(** * WhatsApp AI agent: history store, context builder, orchestrator

    A shallow embedding of
      - src/services/chat-history.service.ts (class ChatHistoryService),
      - src/services/ai.service.ts (class AIService: the functions that
        build the context of a generation, the requests to the two
        model services and the reading of their answers),
      - src/services/whatsapp.service.ts, lines 1-260 (class
        WhatsAppService: the parsing of the messages of the transport,
        and [sendMessage]),
      - src/services/whatsapp.service.ts, lines 260-564 (class
        ChatbotService: [handleIncomingMessage], [processMessage] and
        the public methods that send or change the store),
    and of the parts of the JavaScript runtime they call:
    Array.prototype.slice, String.prototype.trim / includes / split,
    JSON.stringify and JSON.parse.

    Part I holds the definitions, Part II the properties of the history
    store, the context builder, the orchestrator and the export, Part
    III the properties of the rest of the code.

    Conventions.
      - A JavaScript string is its sequence of UTF-16 code units
        ([jsstring] = [list N]); [str] turns an ASCII literal into one.
      - A JavaScript number that the program uses as a count or a time in
        milliseconds is an integer ([Z]).  A double holds an integer of
        magnitude at most 2^53 - 1 exactly ([isSafeInteger]), and the
        clock is such an integer: what the development says about
        exported text and about imported numbers is said for these.  Of
        the other numbers a JSON text can hold the model keeps the
        literal, and knows which of them overflow to an infinity
        ([Number_of]).
      - [Date.now()] is an argument ([now]) of every operation that reads
        the clock.
      - Calls of the logger are left out, but for the warning that a message
        is skipped. *)

From Stdlib Require Import ZArith QArith Lia Ascii String DecimalPos.
From stdpp Require Import base option list gmap fin_maps strings.

(* ===================================================================== *)
(** * Part I. Definitions                                                 *)
(* ===================================================================== *)

(** ** JavaScript strings and arrays *)

Abbreviation jsstring := (list N).

(** An ASCII literal as a sequence of code units. *)
Fixpoint str (s : string) : jsstring :=
  match s with
  | EmptyString => []
  | String a rest => N_of_ascii a :: str rest
  end.

(** A string is truthy when it is not empty. *)
Definition truthy (s : jsstring) : bool :=
  match s with [] => false | _ :: _ => true end.

(** [Array.prototype.slice]: how a relative index is resolved against the
    length (ECMA-262 23.1.3.28, steps 3-7): a negative index counts from
    the end, and the result is clamped to [0, len]. *)
Definition relative_index (len : nat) (i : Z) : nat :=
  Z.to_nat (if (i <? 0)%Z then Z.max (Z.of_nat len + i) 0
            else Z.min i (Z.of_nat len)).

(** [l.slice(start, stop)]; [stop = None] is the call with one argument.
    Since [-0 = 0], [l.slice(-0)] is [l.slice(0)]: the whole array. *)
Definition slice {A : Type} (l : list A) (start : Z) (stop : option Z) : list A :=
  let len := length l in
  let k := relative_index len start in
  let final := match stop with
               | None => len
               | Some e => relative_index len e
               end in
  take (final - k) (drop k l).

(** The last [n] elements of a list, in their order: what the source
    means by the most recent [n] messages. *)
Definition most_recent {A : Type} (n : nat) (l : list A) : list A :=
  drop (length l - n) l.

(** [s.startsWith(p)] and [s.includes(p)]. *)
Fixpoint startsWith (s p : jsstring) : bool :=
  match p, s with
  | [], _ => true
  | _ :: _, [] => false
  | a :: p', c :: s' => (a =? c)%N && startsWith s' p'
  end.

Fixpoint includes (s search : jsstring) : bool :=
  startsWith s search ||
  match s with
  | [] => false
  | _ :: s' => includes s' search
  end.

(** [s.split(sep)] for a separator of one code unit. *)
Fixpoint split (sep : N) (s : jsstring) : list jsstring :=
  match s with
  | [] => [[]]
  | c :: rest =>
      if (c =? sep)%N then [] :: split sep rest
      else match split sep rest with
           | w :: ws => (c :: w) :: ws
           | [] => [[c]]
           end
  end.

(** White space and line terminators, as [String.prototype.trim] strips
    them (ECMA-262 12.2 and 12.3); all of them are single code units. *)
Definition isWhiteSpace (c : N) : bool :=
  ((c =? 9) || (c =? 10) || (c =? 11) || (c =? 12) || (c =? 13) || (c =? 32)
   || (c =? 160) || (c =? 5760) || ((8192 <=? c) && (c <=? 8202))
   || (c =? 8232) || (c =? 8233) || (c =? 8239) || (c =? 8287)
   || (c =? 12288) || (c =? 65279))%N.

Fixpoint trimStart (s : jsstring) : jsstring :=
  match s with
  | [] => []
  | c :: rest => if isWhiteSpace c then trimStart rest else s
  end.

Definition trim (s : jsstring) : jsstring :=
  rev (trimStart (rev (trimStart s))).

(** [Math.max(...xs)]; [None] stands for the [-Infinity] of an empty
    call.  The spread passes one argument for every element, and an
    engine bounds the arguments of a call: beyond its bound the call
    throws a [RangeError], which this function does not have (see
    [spread_limit]). *)
Definition Math_max (xs : list Z) : option Z :=
  match xs with
  | [] => None
  | x :: rest => Some (fold_left Z.max rest x)
  end.

(** A number of arguments that a call of the runtime takes: Node bounds
    the arguments of a spread by its stack, above a hundred thousand
    with the stack it starts with. *)
Definition spread_limit : Z := 65535.

(** [Math.round(a / b)] for [0 <= a] and [0 < b]: [floor (a/b + 1/2)]. *)
Definition Math_round_div (a b : Z) : Z := ((2 * a + b) / (2 * b))%Z.

(** ** src/types/index.ts *)

Inductive MessageType :=
  text | image | video | audio | document | location | contact.

Record WhatsAppMessage := {
  id : jsstring;
  from : jsstring;
  to : jsstring;
  timestamp : Z;
  type : MessageType;
  content : jsstring;
  isGroup : bool;
  groupId : option jsstring;
  senderName : option jsstring
}.

Record ChatHistory := {
  chatId : jsstring;
  messages : list WhatsAppMessage;
  lastUpdated : Z
}.

(** [AIResponse]; its [timestamp] is [producedAt] here, the name being
    taken by the message's field. *)
Record AIResponse := {
  message : jsstring;
  confidence : Q;
  context : list jsstring;
  producedAt : Z
}.

(** ** src/services/chat-history.service.ts *)

(** The service object: the [Map] of histories and [maxHistoryLength]. *)
Record ChatHistoryService := {
  chatHistories : gmap jsstring ChatHistory;
  maxHistoryLength : Z
}.

(** [new ChatHistoryService(maxHistoryLength)]. *)
Definition newChatHistoryService (maxHistoryLength : Z) : ChatHistoryService :=
  {| chatHistories := ∅; maxHistoryLength := maxHistoryLength |}.

(** [addMessage(chatId, message)] (lines 19-53).  The entry is created
    when absent, the message pushed, the array cut with
    [slice(-maxHistoryLength)] when it is longer than [maxHistoryLength],
    and [lastUpdated] set to the clock. *)
Definition addMessage (now : Z) (chatId0 : jsstring) (msg : WhatsAppMessage)
    (svc : ChatHistoryService) : ChatHistoryService :=
  let chatHistory :=
    match chatHistories svc !! chatId0 with
    | Some h => h
    | None => {| chatId := chatId0; messages := []; lastUpdated := now |}
    end in
  let pushed := messages chatHistory ++ [msg] in
  let limited :=
    if (Z.of_nat (length pushed) >? maxHistoryLength svc)%Z
    then slice pushed (- maxHistoryLength svc) None
    else pushed in
  {| chatHistories :=
       <[chatId0 := {| chatId := chatId chatHistory;
                       messages := limited;
                       lastUpdated := now |}]> (chatHistories svc);
     maxHistoryLength := maxHistoryLength svc |}.

(** [getChatHistory(chatId)] (lines 58-61): a copy of the array, or []. *)
Definition getChatHistory (chatId0 : jsstring) (svc : ChatHistoryService)
    : list WhatsAppMessage :=
  match chatHistories svc !! chatId0 with
  | Some h => messages h
  | None => []
  end.

(** [getRecentMessages(chatId, count = 10)] (lines 66-69). *)
Definition getRecentMessages (chatId0 : jsstring) (count : option Z)
    (svc : ChatHistoryService) : list WhatsAppMessage :=
  slice (getChatHistory chatId0 svc) (- default 10%Z count) None.

(** [getConversationContext(chatId, maxMessages = 10)] (lines 74-77). *)
Definition getConversationContext (chatId0 : jsstring) (maxMessages : option Z)
    (svc : ChatHistoryService) : list WhatsAppMessage :=
  slice (getChatHistory chatId0 svc) (- default 10%Z maxMessages) None.

(** [clearChatHistory(chatId)] (lines 82-85). *)
Definition clearChatHistory (chatId0 : jsstring) (svc : ChatHistoryService)
    : ChatHistoryService :=
  {| chatHistories := delete chatId0 (chatHistories svc);
     maxHistoryLength := maxHistoryLength svc |}.

(** The result of [getChatHistoryStats]; [lastMessageTime = None] is the
    [null] of the source. *)
Record ChatHistoryStats := {
  totalMessages : Z;
  lastMessageTime : option Z;
  averageMessageLength : Z
}.

(** [getChatHistoryStats(chatId)] (lines 97-121). *)
Definition getChatHistoryStats (chatId0 : jsstring) (svc : ChatHistoryService)
    : ChatHistoryStats :=
  let msgs := getChatHistory chatId0 svc in
  if (length msgs =? 0)%nat then
    {| totalMessages := 0; lastMessageTime := None; averageMessageLength := 0 |}
  else
    let totalLength :=
      fold_left (λ sum m, sum + Z.of_nat (length (content m)))%Z msgs 0%Z in
    {| totalMessages := Z.of_nat (length msgs);
       lastMessageTime := Math_max (timestamp <$> msgs);
       averageMessageLength := Math_round_div totalLength (Z.of_nat (length msgs)) |}.

(** [getTotalChats()] and [getTotalMessages()] (lines 189-202). *)
Definition getTotalChats (svc : ChatHistoryService) : nat :=
  size (chatHistories svc).

Definition getTotalMessages (svc : ChatHistoryService) : nat :=
  map_fold (λ _ h total, total + length (messages h)) 0 (chatHistories svc).

(** [cleanupOldHistories(daysOld = 30)] (lines 207-223): the loop over
    the entries of the map, deleting on the way and counting. *)
Definition cleanupOldHistories (now : Z) (daysOld : option Z)
    (svc : ChatHistoryService) : ChatHistoryService * Z :=
  let cutoffTime := (now - default 30 daysOld * 24 * 60 * 60 * 1000)%Z in
  let '(kept, cleanedCount) :=
    map_fold
      (λ chatId0 chatHistory '(m, n),
         if (lastUpdated chatHistory <? cutoffTime)%Z
         then (delete chatId0 m, (n + 1)%Z)
         else (m, n))
      (chatHistories svc, 0%Z) (chatHistories svc) in
  ({| chatHistories := kept; maxHistoryLength := maxHistoryLength svc |},
   cleanedCount).

(** [String(n)] for an integer: its decimal digits, with a sign when
    negative ([Z.to_int] is the standard library's conversion).  These
    are the digits of [Number::toString] (ECMA-262 6.1.6.1.20) for an
    integer of magnitude at most 2^53 - 1, where no shorter digit string
    denotes the same double and no exponent is written; the program
    prints an HTTP status and times in milliseconds. *)
Fixpoint uint_chars (d : Decimal.uint) : jsstring :=
  match d with
  | Decimal.Nil => []
  | Decimal.D0 d' => 48%N :: uint_chars d'
  | Decimal.D1 d' => 49%N :: uint_chars d'
  | Decimal.D2 d' => 50%N :: uint_chars d'
  | Decimal.D3 d' => 51%N :: uint_chars d'
  | Decimal.D4 d' => 52%N :: uint_chars d'
  | Decimal.D5 d' => 53%N :: uint_chars d'
  | Decimal.D6 d' => 54%N :: uint_chars d'
  | Decimal.D7 d' => 55%N :: uint_chars d'
  | Decimal.D8 d' => 56%N :: uint_chars d'
  | Decimal.D9 d' => 57%N :: uint_chars d'
  end.

Definition Number_toString (z : Z) : jsstring :=
  match Z.to_int z with
  | Decimal.Pos d => uint_chars d
  | Decimal.Neg d => 45%N :: uint_chars d
  end.

(** ** src/services/ai.service.ts *)

Inductive Role := user | assistant.

(** [buildConversationContext(chatHistory)] (lines 135-153): the loop
    over the last ten messages, pushing [{role, content}] for every
    message whose trimmed content is not empty.  A turn is the pair of
    its role and its content. *)
Definition buildConversationContext (chatHistory : list WhatsAppMessage)
    : list (Role * jsstring) :=
  let recentHistory := slice chatHistory (-10) None in
  fold_left
    (λ ctx msg,
       let role := if includes (from msg) (str "@s.whatsapp.net")
                   then assistant else user in
       let content0 := content msg in
       if truthy (trim content0) then ctx ++ [(role, content0)] else ctx)
    recentHistory [].

(** The role rule of line 144, by itself. *)
Definition role_of (msg : WhatsAppMessage) : Role :=
  if includes (from msg) (str "@s.whatsapp.net") then assistant else user.

(** The words of a message as [extractContext] reads them, and the test
    it applies to a word (lines 184 and 186). *)
Definition words_of (toLowerCase : jsstring → jsstring) (msg : WhatsAppMessage)
    : list jsstring :=
  split 32 (toLowerCase (content msg)).

(** [isCommonWord(word)] (lines 198-217): the list as the source has it,
    repetitions included. *)
Definition commonWords : list jsstring :=
  str <$>
  [ "the"; "and"; "or"; "but"; "in"; "on"; "at"; "to"; "for"; "of"; "with";
    "by"; "is"; "are"; "was"; "were"; "be"; "been"; "have"; "has"; "had";
    "do"; "does"; "did"; "will"; "would"; "could"; "should"; "may"; "might";
    "can"; "this"; "that"; "these"; "those"; "i"; "you"; "he"; "she"; "it";
    "we"; "they"; "me"; "him"; "her"; "us"; "them"; "my"; "your"; "his";
    "her"; "its"; "our"; "their"; "mine"; "yours"; "his"; "hers"; "ours";
    "theirs"; "a"; "an"; "the"; "and"; "or"; "but"; "if"; "then"; "else";
    "when"; "at"; "from"; "up"; "about"; "into"; "through"; "during";
    "before"; "after"; "above"; "below"; "between"; "among"; "under";
    "over"; "inside"; "outside"; "within"; "without"; "against"; "toward";
    "towards"; "upon"; "across"; "behind"; "beneath"; "beside"; "beyond";
    "inside"; "near"; "off"; "out"; "outside"; "over"; "past"; "since";
    "through"; "throughout"; "to"; "toward"; "under"; "underneath"; "until";
    "up"; "upon"; "with"; "within"; "without" ]%string.

Definition isCommonWord (word : jsstring) : bool :=
  bool_decide (word ∈ commonWords).

Definition isTopic (word : jsstring) : bool :=
  (3 <? length word)%nat && negb (isCommonWord word).

(** [extractContext(chatHistory)] (lines 177-193).  The runtime's
    [String.prototype.toLowerCase] (Unicode case mapping) is the argument
    [toLowerCase]; the limit of five topics is the constant of line 192. *)
Definition extractContext (toLowerCase : jsstring → jsstring)
    (chatHistory : list WhatsAppMessage) : list jsstring :=
  let recentMessages := slice chatHistory (-5) None in
  let topics :=
    fold_left
      (λ topics0 msg,
         let words := split 32 (toLowerCase (content msg)) in
         fold_left
           (λ topics1 word,
              if (3 <? length word)%nat && negb (isCommonWord word)
              then topics1 ++ [word] else topics1)
           words topics0)
      recentMessages [] in
  slice topics 0 (Some 5%Z).

(** Lower-casing of the ASCII letters, for the examples. *)
Definition toLowerCase_ascii (s : jsstring) : jsstring :=
  (λ c, if (65 <=? c) && (c <=? 90) then c + 32 else c)%N <$> s.

(** ** JSON: values, [JSON.stringify(value, null, 2)] and [JSON.parse]

    A JSON value is a tree; its numbers are of the type given as
    argument.  The program writes integers only, so [JSON_stringify]
    prints trees over [Z]; [JSON_parse] reads every JSON text, and keeps
    a number as the decimal its literal denotes: the tree it returns is
    the syntax of the text, of which [JSON_value] gives the value the
    runtime holds. *)

#[warnings="-register-all"]
Inductive json (num : Type) : Type :=
| JNull
| JBool (b : bool)
| JNum (n : num)
| JStr (s : jsstring)
| JArr (items : list (json num))
| JObj (members : list (jsstring * json num)).

Arguments JNull {num}.
Arguments JBool {num} b.
Arguments JNum {num} n.
Arguments JStr {num} s.
Arguments JArr {num} items.
Arguments JObj {num} members.

(** [mantissa * 10 ^ exponent]. *)
Record decimal := { mantissa : Z; exponent : Z }.

(** The number an integer is, as a decimal. *)
Definition integer (z : Z) : decimal := {| mantissa := z; exponent := 0 |}.

(** The same tree with its integers read as decimals. *)
Fixpoint as_parsed (v : json Z) : json decimal :=
  match v with
  | JNull => JNull
  | JBool b => JBool b
  | JNum z => JNum (integer z)
  | JStr s => JStr s
  | JArr items => JArr (as_parsed <$> items)
  | JObj members => JObj ((λ kv, (kv.1, as_parsed kv.2)) <$> members)
  end.

(** *** Printing (ECMA-262 25.5.2) *)

Definition hex_digit (n : N) : N := (if n <? 10 then 48 + n else 87 + n)%N.

(** [UnicodeEscape]: a backslash, [u] and four lower-case hex digits. *)
Definition unicode_escape (c : N) : jsstring :=
  [92; 117; hex_digit (c / 4096 mod 16); hex_digit (c / 256 mod 16);
   hex_digit (c / 16 mod 16); hex_digit (c mod 16)]%N.

Definition is_leading_surrogate (c : N) : bool := ((55296 <=? c) && (c <=? 56319))%N.
Definition is_trailing_surrogate (c : N) : bool := ((56320 <=? c) && (c <=? 57343))%N.

(** A code unit that is no surrogate, quoted. *)
Definition quote_unit (c : N) : jsstring :=
  (if c =? 8 then [92; 98]
   else if c =? 9 then [92; 116]
   else if c =? 10 then [92; 110]
   else if c =? 12 then [92; 102]
   else if c =? 13 then [92; 114]
   else if c =? 34 then [92; 34]
   else if c =? 92 then [92; 92]
   else if c <? 32 then unicode_escape c
   else [c])%N.

(** The inside of [QuoteJSONString]: a surrogate pair is copied, a lone
    surrogate escaped. *)
Fixpoint quote_units (s : jsstring) : jsstring :=
  match s with
  | [] => []
  | c :: rest =>
      if is_leading_surrogate c then
        match rest with
        | d :: rest' =>
            if is_trailing_surrogate d then c :: d :: quote_units rest'
            else unicode_escape c ++ quote_units rest
        | [] => unicode_escape c
        end
      else if is_trailing_surrogate c then unicode_escape c ++ quote_units rest
      else quote_unit c ++ quote_units rest
  end.

Definition QuoteJSONString (s : jsstring) : jsstring :=
  34%N :: quote_units s ++ [34%N].

(** [xs.join(sep)] on strings. *)
Fixpoint join (sep : jsstring) (xs : list jsstring) : jsstring :=
  match xs with
  | [] => []
  | [x] => x
  | x :: rest => x ++ sep ++ join sep rest
  end.

(** [SerializeJSONProperty] with a gap of two spaces; [indent] is the
    current indentation. *)
Fixpoint SerializeJSONProperty (indent : jsstring) (v : json Z) : jsstring :=
  match v with
  | JNull => str "null"
  | JBool true => str "true"
  | JBool false => str "false"
  | JNum z => Number_toString z
  | JStr s => QuoteJSONString s
  | JArr [] => str "[]"
  | JArr items =>
      let stepback := indent in
      let indent' := indent ++ [32; 32]%N in
      let separator := [44; 10]%N ++ indent' in
      [91; 10]%N ++ indent'
        ++ join separator (SerializeJSONProperty indent' <$> items)
        ++ [10%N] ++ stepback ++ [93%N]
  | JObj [] => str "{}"
  | JObj members =>
      let stepback := indent in
      let indent' := indent ++ [32; 32]%N in
      let separator := [44; 10]%N ++ indent' in
      [123; 10]%N ++ indent'
        ++ join separator
             ((λ kv, QuoteJSONString kv.1 ++ [58; 32]%N
                      ++ SerializeJSONProperty indent' kv.2) <$> members)
        ++ [10%N] ++ stepback ++ [125%N]
  end.

(** [JSON.stringify(value, null, 2)]. *)
Definition JSON_stringify (v : json Z) : jsstring := SerializeJSONProperty [] v.

(** *** Parsing (ECMA-262 25.5.1 and ECMA-404) *)

(** What a parser on a text returns: a value and the text after it, a
    syntax error, or the exhaustion of its fuel. *)
Inductive parsed (A : Type) : Type :=
| ok (a : A) (rest : jsstring)
| syntax_error
| out_of_fuel.

Arguments ok {A} a rest.
Arguments syntax_error {A}.
Arguments out_of_fuel {A}.

(** JSON white space: space, line feed, carriage return, tab. *)
Definition is_ws (c : N) : bool :=
  ((c =? 32) || (c =? 10) || (c =? 13) || (c =? 9))%N.

Fixpoint skip_ws (s : jsstring) : jsstring :=
  match s with
  | [] => []
  | c :: rest => if is_ws c then skip_ws rest else s
  end.

Definition is_digit (c : N) : bool := ((48 <=? c) && (c <=? 57))%N.

(** The digits at the head of [s], added to [acc] in base ten, their
    number added to [count], and the text after them. *)
Fixpoint read_digits (s : jsstring) (acc : N) (count : nat) : N * nat * jsstring :=
  match s with
  | [] => (acc, count, [])
  | c :: rest =>
      if is_digit c then read_digits rest (10 * acc + (c - 48))%N (S count)
      else (acc, count, s)
  end.

(** [int]: a zero, or a digit that is not zero and the digits after it. *)
Definition parse_int_part (s : jsstring) : option (N * jsstring) :=
  match s with
  | [] => None
  | c :: rest =>
      if (c =? 48)%N then Some (0%N, rest)
      else if is_digit c then
        let '(value, _, rest') := read_digits s 0 0 in Some (value, rest')
      else None
  end.

(** [frac]: a point and at least one digit; the digits extend the
    mantissa. *)
Definition parse_fraction (int_value : N) (s : jsstring)
    : option (N * nat * jsstring) :=
  match s with
  | [] => Some (int_value, 0, [])
  | c :: rest =>
      if (c =? 46)%N then
        let '(value, count, rest') := read_digits rest int_value 0 in
        if (count =? 0)%nat then None else Some (value, count, rest')
      else Some (int_value, 0, s)
  end.

(** [exp]: [e] or [E], a sign or none, and at least one digit. *)
Definition parse_exponent (s : jsstring) : option (Z * jsstring) :=
  match s with
  | [] => Some (0%Z, [])
  | c :: rest =>
      if ((c =? 101) || (c =? 69))%N then
        let '(negative, digits) :=
          match rest with
          | d :: rest' =>
              if (d =? 45)%N then (true, rest')
              else if (d =? 43)%N then (false, rest')
              else (false, rest)
          | [] => (false, [])
          end in
        let '(value, count, rest') := read_digits digits 0 0 in
        if (count =? 0)%nat then None
        else Some (if negative then (- Z.of_N value)%Z else Z.of_N value, rest')
      else Some (0%Z, s)
  end.

Definition parse_number (s : jsstring) : option (decimal * jsstring) :=
  let '(negative, s1) :=
    match s with
    | c :: rest => if (c =? 45)%N then (true, rest) else (false, s)
    | [] => (false, [])
    end in
  '(int_value, s2) ← parse_int_part s1;
  '(value, count, s3) ← parse_fraction int_value s2;
  '(e, s4) ← parse_exponent s3;
  Some ({| mantissa := if negative then (- Z.of_N value)%Z else Z.of_N value;
           exponent := (e - Z.of_nat count)%Z |}, s4).

(** The value of a hex digit, of either case. *)
Definition hex_value (c : N) : option N :=
  (if is_digit c then Some (c - 48)
   else if (97 <=? c) && (c <=? 102) then Some (c - 87)
   else if (65 <=? c) && (c <=? 70) then Some (c - 55)
   else None)%N.

(** The code unit a one-letter escape stands for. *)
Definition simple_escape (c : N) : option N :=
  (if c =? 34 then Some 34
   else if c =? 92 then Some 92
   else if c =? 47 then Some 47
   else if c =? 98 then Some 8
   else if c =? 102 then Some 12
   else if c =? 110 then Some 10
   else if c =? 114 then Some 13
   else if c =? 116 then Some 9
   else None)%N.

(** The characters of a string after its opening quote, up to the
    closing one. *)
Fixpoint parse_chars (s : jsstring) : option (jsstring * jsstring) :=
  match s with
  | [] => None
  | c :: rest =>
      if (c =? 34)%N then Some ([], rest)
      else if (c =? 92)%N then
        match rest with
        | [] => None
        | e :: rest' =>
            if (e =? 117)%N then
              match rest' with
              | h3 :: h2 :: h1 :: h0 :: rest'' =>
                  match hex_value h3, hex_value h2, hex_value h1, hex_value h0,
                        parse_chars rest'' with
                  | Some a, Some b, Some c0, Some d, Some (chars, after) =>
                      Some ((((a * 16 + b) * 16 + c0) * 16 + d)%N :: chars, after)
                  | _, _, _, _, _ => None
                  end
              | _ => None
              end
            else
              match simple_escape e, parse_chars rest' with
              | Some u, Some (chars, after) => Some (u :: chars, after)
              | _, _ => None
              end
        end
      else if (c <? 32)%N then None
      else
        match parse_chars rest with
        | Some (chars, after) => Some (c :: chars, after)
        | None => None
        end
  end.

(** The text after the literal [lit], when [s] starts with it. *)
Fixpoint expect (lit s : jsstring) : option jsstring :=
  match lit, s with
  | [], _ => Some s
  | _ :: _, [] => None
  | a :: lit', c :: s' => if (a =? c)%N then expect lit' s' else None
  end.

(** A value at the head of [s] (no white space before it); the elements
    of an array after its bracket; the members of an object after its
    brace.  Every call spends one unit of [fuel]. *)
Fixpoint parse_value (fuel : nat) (s : jsstring) : parsed (json decimal) :=
  match fuel with
  | 0 => out_of_fuel
  | S fuel' =>
      match s with
      | [] => syntax_error
      | c :: rest =>
          if (c =? 123)%N then
            match skip_ws rest with
            | [] => syntax_error
            | d :: rest' =>
                if (d =? 125)%N then ok (JObj []) rest'
                else
                  match parse_members fuel' (d :: rest') with
                  | ok members after => ok (JObj members) after
                  | syntax_error => syntax_error
                  | out_of_fuel => out_of_fuel
                  end
            end
          else if (c =? 91)%N then
            match skip_ws rest with
            | [] => syntax_error
            | d :: rest' =>
                if (d =? 93)%N then ok (JArr []) rest'
                else
                  match parse_elements fuel' (d :: rest') with
                  | ok items after => ok (JArr items) after
                  | syntax_error => syntax_error
                  | out_of_fuel => out_of_fuel
                  end
            end
          else if (c =? 34)%N then
            match parse_chars rest with
            | Some (chars, after) => ok (JStr chars) after
            | None => syntax_error
            end
          else if (c =? 116)%N then
            match expect (str "rue") rest with
            | Some after => ok (JBool true) after
            | None => syntax_error
            end
          else if (c =? 102)%N then
            match expect (str "alse") rest with
            | Some after => ok (JBool false) after
            | None => syntax_error
            end
          else if (c =? 110)%N then
            match expect (str "ull") rest with
            | Some after => ok JNull after
            | None => syntax_error
            end
          else
            match parse_number s with
            | Some (d, after) => ok (JNum d) after
            | None => syntax_error
            end
      end
  end
with parse_elements (fuel : nat) (s : jsstring) : parsed (list (json decimal)) :=
  match fuel with
  | 0 => out_of_fuel
  | S fuel' =>
      match parse_value fuel' s with
      | ok v rest =>
          match skip_ws rest with
          | [] => syntax_error
          | c :: rest' =>
              if (c =? 44)%N then
                match parse_elements fuel' (skip_ws rest') with
                | ok items after => ok (v :: items) after
                | syntax_error => syntax_error
                | out_of_fuel => out_of_fuel
                end
              else if (c =? 93)%N then ok [v] rest'
              else syntax_error
          end
      | syntax_error => syntax_error
      | out_of_fuel => out_of_fuel
      end
  end
with parse_members (fuel : nat) (s : jsstring)
    : parsed (list (jsstring * json decimal)) :=
  match fuel with
  | 0 => out_of_fuel
  | S fuel' =>
      match s with
      | [] => syntax_error
      | q :: rest =>
          if (q =? 34)%N then
            match parse_chars rest with
            | None => syntax_error
            | Some (key, after_key) =>
                match skip_ws after_key with
                | [] => syntax_error
                | colon :: after_colon =>
                    if (colon =? 58)%N then
                      match parse_value fuel' (skip_ws after_colon) with
                      | ok v rest' =>
                          match skip_ws rest' with
                          | [] => syntax_error
                          | c :: rest'' =>
                              if (c =? 44)%N then
                                match parse_members fuel' (skip_ws rest'') with
                                | ok members after => ok ((key, v) :: members) after
                                | syntax_error => syntax_error
                                | out_of_fuel => out_of_fuel
                                end
                              else if (c =? 125)%N then ok [(key, v)] rest''
                              else syntax_error
                          end
                      | syntax_error => syntax_error
                      | out_of_fuel => out_of_fuel
                      end
                    else syntax_error
                end
            end
          else syntax_error
      end
  end.

(** [JSON.parse(text)]; [None] is the [SyntaxError] it throws.  The fuel
    is more than the parser can use on this text. *)
Definition JSON_parse (text : jsstring) : option (json decimal) :=
  match parse_value (S (2 * length text)) (skip_ws text) with
  | ok v rest =>
      match skip_ws rest with
      | [] => Some v
      | _ :: _ => None
      end
  | syntax_error => None
  | out_of_fuel => None
  end.

(** A text that does not go on with a number: it is empty, or its first
    code unit is no digit, no point and no exponent mark. *)
Definition delimited (rest : jsstring) : Prop :=
  match rest with
  | [] => True
  | c :: _ => is_digit c = false ∧ c ≠ 46%N ∧ c ≠ 101%N ∧ c ≠ 69%N
  end.

(** A text that starts with a value: its first code unit is no white
    space and closes no array or object. *)
Definition starts_value (s : jsstring) : Prop :=
  match s with
  | [] => False
  | c :: _ => is_ws c = false ∧ c ≠ 93%N ∧ c ≠ 125%N
  end.

(** Fuel that is enough to parse the text printed for a value. *)
Fixpoint weight (v : json Z) : nat :=
  match v with
  | JArr items => S (sum_list ((λ item, S (weight item)) <$> items))
  | JObj members => S (sum_list ((λ kv, S (weight kv.2)) <$> members))
  | _ => 1
  end.

(** The parser reads back what was printed for [v], at every
    indentation and before every text that ends the value. *)
Definition reads_back (v : json Z) : Prop :=
  ∀ (indent rest : jsstring) (fuel : nat),
    Forall (λ c, is_ws c = true) indent → delimited rest → weight v ≤ fuel →
    parse_value fuel (SerializeJSONProperty indent v ++ rest)
    = ok (as_parsed v) rest.

(** A JSON text of the examples, written with apostrophes for the
    quotation marks. *)
Definition json_text (s : string) : jsstring :=
  (λ c, if c =? 39 then 34 else c)%N <$> str s.

(** [object[key]] on a parsed value: of the members with this key the
    last one counts; [None] is [undefined]. *)
Fixpoint last_member (key : jsstring) (members : list (jsstring * json decimal))
    : option (json decimal) :=
  match members with
  | [] => None
  | (k, v) :: rest =>
      match last_member key rest with
      | Some later => Some later
      | None => if decide (k = key) then Some v else None
      end
  end.

Definition property (key : string) (v : json decimal) : option (json decimal) :=
  match v with
  | JObj members => last_member (str key) members
  | _ => None
  end.

(** *** Numbers and objects of the runtime (ECMA-262 6.1.6.1, 10.1.11)

    The largest integer up to which every integer is a double. *)
Definition MAX_SAFE_INTEGER : Z := 2 ^ 53 - 1.

(** [Number.isSafeInteger] on an integer. *)
Definition isSafeInteger (z : Z) : bool :=
  (- MAX_SAFE_INTEGER <=? z)%Z && (z <=? MAX_SAFE_INTEGER)%Z.

(** The integer a decimal is, if it is one. *)
Definition exact_integer (d : decimal) : option Z :=
  if (exponent d =? 0)%Z then Some (mantissa d)
  else if (0 <? exponent d)%Z then Some (mantissa d * 10 ^ exponent d)%Z
  else if (mantissa d mod 10 ^ (- exponent d) =? 0)%Z
       then Some (mantissa d / 10 ^ (- exponent d))%Z
       else None.

(** The integer the runtime holds for a literal, where the literal
    denotes a safe integer: the double is then this integer. *)
Definition integer_value (d : decimal) : option Z :=
  z ← exact_integer d; if isSafeInteger z then Some z else None.

(** A literal of magnitude [2^1024 - 2^970] or more, half way between
    the largest double and [2^1024], is read as an infinity: rounding
    is to the nearest, ties to the even significand, which [2^1024]
    would have. *)
Definition overflows (d : decimal) : bool :=
  let limit := (2 ^ 1024 - 2 ^ 970)%Z in
  if (0 <=? exponent d)%Z
  then (limit <=? Z.abs (mantissa d) * 10 ^ exponent d)%Z
  else (limit * 10 ^ (- exponent d) <=? Z.abs (mantissa d))%Z.

(** The Number that [JSON.parse] makes of a literal: the double nearest
    to the decimal.  It is the integer itself for a safe integer and an
    infinity for a literal that overflows; the double of any other
    literal (a fraction, an integer beyond 2^53, either of which may
    round to an integer) is not computed here, the literal stands for
    it.  [safeInteger 0] stands for both zeros, which [===] and
    [JSON.stringify] do not tell apart. *)
Inductive Number :=
| safeInteger (z : Z)
| Infinity (negative : bool)
| nearest (literal : decimal).

Definition Number_of (d : decimal) : Number :=
  match integer_value d with
  | Some z => safeInteger z
  | None => if overflows d then Infinity (mantissa d <? 0)%Z else nearest d
  end.

(** [CreateDataProperty] on the properties of an object, in the order
    of their creation: a key that is there keeps its place and takes the
    new value. *)
Fixpoint define {A : Type} (key : jsstring) (value : A)
    (properties : list (jsstring * A)) : list (jsstring * A) :=
  match properties with
  | [] => [(key, value)]
  | (k, v) :: rest =>
      if decide (k = key) then (k, value) :: rest
      else (k, v) :: define key value rest
  end.

(** The array index a key is: decimal digits with no leading zero, of a
    value below [2^32 - 1]. *)
Definition array_index (key : jsstring) : option N :=
  match key with
  | [] => None
  | first :: rest =>
      if forallb is_digit key && (negb (first =? 48)%N || bool_decide (rest = []))
      then let index := fold_left (λ n c, n * 10 + (c - 48))%N key 0%N in
           if (index <? 2 ^ 32 - 1)%N then Some index else None
      else None
  end.

Fixpoint place {A : Type} (index : N) (p : A) (sorted : list (N * A))
    : list (N * A) :=
  match sorted with
  | [] => [(index, p)]
  | (j, q) :: rest =>
      if (index <? j)%N then (index, p) :: sorted
      else (j, q) :: place index p rest
  end.

(** [OrdinaryOwnPropertyKeys]: the array indices in ascending order,
    then the other keys in the order of their creation. *)
Definition own_properties {A : Type} (properties : list (jsstring * A))
    : list (jsstring * A) :=
  (snd <$> fold_right (λ p sorted, match array_index p.1 with
                                  | Some index => place index p sorted
                                  | None => sorted
                                  end) [] properties)
  ++ List.filter (λ p, match array_index p.1 with
                       | Some _ => false
                       | None => true
                       end) properties.

(** The value [JSON.parse] returns for the syntax [v]: the numbers are
    doubles, and an object has each key once, with the value of its
    last member. *)
Fixpoint JSON_value (v : json decimal) : json Number :=
  match v with
  | JNull => JNull
  | JBool b => JBool b
  | JNum d => JNum (Number_of d)
  | JStr s => JStr s
  | JArr items => JArr (JSON_value <$> items)
  | JObj members =>
      JObj (own_properties
              (fold_left (λ properties kv, define kv.1 kv.2 properties)
                 ((λ kv, (kv.1, JSON_value kv.2)) <$> members) []))
  end.



(** ** Export and import (chat-history.service.ts, lines 155-184) *)

Definition type_name (t : MessageType) : jsstring :=
  match t with
  | text => str "text"
  | image => str "image"
  | video => str "video"
  | audio => str "audio"
  | document => str "document"
  | location => str "location"
  | contact => str "contact"
  end.

(** A property whose value is [undefined] is left out by
    [JSON.stringify]. *)
Definition optional_member (key : string) (value : option jsstring)
    : list (jsstring * json Z) :=
  match value with
  | Some s => [(str key, JStr s)]
  | None => []
  end.

(** The order of the properties of the stored objects.  [JSON.stringify]
    writes the properties of an object in the order the object holds
    them, which for these keys is the order of their creation.  The
    typed store does not record it: an object built by the literal of
    [addMessage], [parseMessage] or [handleIncomingMessage] has the order
    of the literal, an object that [importChatHistory] stored has the
    order of the imported text.  A [Layout] gives the order, for the
    history object and for each of its messages by position. *)
Record Layout := {
  of_history : list (jsstring * json Z) → list (jsstring * json Z);
  of_message : nat → list (jsstring * json Z) → list (jsstring * json Z)
}.

(** The order of the object literals of the source. *)
Definition literal_order : Layout :=
  {| of_history := λ members, members; of_message := λ _ members, members |}.


(** A layout orders the properties an object has: it adds none and
    drops none. *)
Definition arranges (layout : Layout) : Prop :=
  (∀ members, of_history layout members ≡ₚ members)
  ∧ ∀ i members, of_message layout i members ≡ₚ members.

(** A message as the object [JSON.stringify] walks, its properties
    listed in the order of the object literals that build it (lines
    139-149 and 378-388) and held in the order [arrange] gives. *)
Definition message_to_json
    (arrange : list (jsstring * json Z) → list (jsstring * json Z))
    (msg : WhatsAppMessage) : json Z :=
  JObj (arrange
          ([ (str "id", JStr (id msg));
             (str "from", JStr (from msg));
             (str "to", JStr (to msg));
             (str "timestamp", JNum (timestamp msg));
             (str "type", JStr (type_name (type msg)));
             (str "content", JStr (content msg));
             (str "isGroup", JBool (isGroup msg)) ]
           ++ optional_member "groupId" (groupId msg)
           ++ optional_member "senderName" (senderName msg))).

(** A history, its properties listed in the order of the literal of
    [addMessage] (lines 24-28). *)
Definition history_to_json (layout : Layout) (h : ChatHistory) : json Z :=
  JObj (of_history layout
          [ (str "chatId", JStr (chatId h));
            (str "messages",
             JArr (imap (λ i, message_to_json (of_message layout i))
                     (messages h)));
            (str "lastUpdated", JNum (lastUpdated h)) ]).

(** [exportChatHistory(chatId)] (lines 155-160); [None] is [null]. *)
Definition exportChatHistory (layout : Layout) (chatId0 : jsstring)
    (svc : ChatHistoryService) : option jsstring :=
  match chatHistories svc !! chatId0 with
  | None => None
  | Some chatHistory => Some (JSON_stringify (history_to_json layout chatHistory))
  end.

(** The numbers of a tree are safe integers: the text printed for it
    then has the digits the runtime writes. *)
Fixpoint safe_json (v : json Z) : bool :=
  match v with
  | JNum z => isSafeInteger z
  | JArr items => forallb safe_json items
  | JObj members => forallb (λ kv, safe_json kv.2) members
  | _ => true
  end.

(** The numbers of a history are safe integers. *)
Definition safe_history (h : ChatHistory) : bool :=
  isSafeInteger (lastUpdated h)
  && forallb (λ msg, isSafeInteger (timestamp msg)) (messages h).

(** Reading a parsed value at the types of src/types/index.ts.  The
    source asserts the type of what [JSON.parse] returns without looking
    at it; these functions say when the assertion is true, and the
    numbers are integers the runtime holds exactly. *)

Definition string_of (v : option (json decimal)) : option jsstring :=
  match v with Some (JStr s) => Some s | _ => None end.

Definition integer_of (v : option (json decimal)) : option Z :=
  match v with Some (JNum d) => integer_value d | _ => None end.

Definition boolean_of (v : option (json decimal)) : option bool :=
  match v with Some (JBool b) => Some b | _ => None end.

Definition optional_string_of (v : option (json decimal))
    : option (option jsstring) :=
  match v with
  | None => Some None
  | Some (JStr s) => Some (Some s)
  | Some _ => None
  end.

Definition type_of_name (s : jsstring) : option MessageType :=
  list_find (λ t, type_name t = s)
    [text; image; video; audio; document; location; contact] ≫= λ it, Some it.2.

Definition message_keys : list jsstring :=
  str <$> ["id"; "from"; "to"; "timestamp"; "type"; "content"; "isGroup";
           "groupId"; "senderName"]%string.

Definition history_keys : list jsstring :=
  str <$> ["chatId"; "messages"; "lastUpdated"]%string.

Definition only_keys (keys : list jsstring)
    (members : list (jsstring * json decimal)) : bool :=
  forallb (λ kv, bool_decide (kv.1 ∈ keys)) members.

(** The [WhatsAppMessage] a parsed value is, if it is one: an object
    with these properties and no other. *)
Definition message_of_json (v : json decimal) : option WhatsAppMessage :=
  match v with
  | JObj members =>
      if only_keys message_keys members then
        id0 ← string_of (property "id" v);
        from0 ← string_of (property "from" v);
        to0 ← string_of (property "to" v);
        timestamp0 ← integer_of (property "timestamp" v);
        type0 ← string_of (property "type" v) ≫= type_of_name;
        content0 ← string_of (property "content" v);
        isGroup0 ← boolean_of (property "isGroup" v);
        groupId0 ← optional_string_of (property "groupId" v);
        senderName0 ← optional_string_of (property "senderName" v);
        Some {| id := id0; from := from0; to := to0; timestamp := timestamp0;
                type := type0; content := content0; isGroup := isGroup0;
                groupId := groupId0; senderName := senderName0 |}
      else None
  | _ => None
  end.

(** The [ChatHistory] a parsed value is, if it is one. *)
Definition history_of_json (v : json decimal) : option ChatHistory :=
  match v with
  | JObj members =>
      if only_keys history_keys members then
        chatId0 ← string_of (property "chatId" v);
        messages0 ← match property "messages" v with
                    | Some (JArr items) => mapM message_of_json items
                    | _ => None
                    end;
        lastUpdated0 ← integer_of (property "lastUpdated" v);
        Some {| chatId := chatId0; messages := messages0;
                lastUpdated := lastUpdated0 |}
      else None
  | _ => None
  end.

(** What a call of [importChatHistory] does: it returns a boolean and
    leaves a store; or it returns [true] having stored under the
    [chatId] a value that [history_of_json] does not read as a
    [ChatHistory]: the typed store does not hold such a value, and the
    outcome names it and what the map holds beside it. *)
Inductive ImportOutcome :=
| returned (result : bool) (svc : ChatHistoryService)
| stored_untyped (value : json Number) (others : ChatHistoryService).

(** [importChatHistory(chatId, jsonData)] (lines 165-184).  A
    [SyntaxError] of [JSON.parse], and the [TypeError] of reading
    [chatId] of [null], are caught and give [false]; so does a [chatId]
    that is not the string asked for.  Otherwise [set] puts the parsed
    value in the place of what the map held under [chatId]. *)
Definition importChatHistory (chatId0 : jsstring) (jsonData : jsstring)
    (svc : ChatHistoryService) : ImportOutcome :=
  match JSON_parse jsonData with
  | None => returned false svc
  | Some JNull => returned false svc
  | Some chatHistory =>
      match property "chatId" chatHistory with
      | Some (JStr embedded) =>
          if decide (embedded = chatId0) then
            match history_of_json chatHistory with
            | Some h =>
                returned true
                  {| chatHistories := <[chatId0 := h]> (chatHistories svc);
                     maxHistoryLength := maxHistoryLength svc |}
            | None =>
                stored_untyped (JSON_value chatHistory)
                  {| chatHistories := delete chatId0 (chatHistories svc);
                     maxHistoryLength := maxHistoryLength svc |}
            end
          else returned false svc
      | _ => returned false svc
      end
  end.

(** The [chatId] a text carries, if it is JSON for an object with such a
    string. *)
Definition embedded_chatId (jsonData : jsstring) : option jsstring :=
  match JSON_parse jsonData with
  | Some v => string_of (property "chatId" v)
  | None => None
  end.

(** Every history is stored under its own [chatId]. *)
Definition keyed_by_chatId (svc : ChatHistoryService) : Prop :=
  ∀ c h, chatHistories svc !! c = Some h → chatId h = c.

(** ** src/services/whatsapp.service.ts, lines 260-564: ChatbotService

    [handleIncomingMessage] is an async function.  The runtime runs it
    from the call up to its first [await], and from each [await] to the
    next when the awaited promise settles; between two such segments any
    other event may be handled.  The three awaits are the invocation's
    possible points of suspension; a segment is a function on the state
    of the system. *)

(** Calls on the collaborators, in the order they are made. *)
Inductive Effect :=
| sendMessageReceived (msg : WhatsAppMessage)
| sendAIResponseGenerated (response : AIResponse)
| sendMessageSent (msg : WhatsAppMessage)
| sendError (what : jsstring) (error : option jsstring)
| generateResponse (text0 : jsstring) (chatHistory : list WhatsAppMessage)
| delay (ms : Z)
| sendMessage (chatId0 : jsstring) (text0 : jsstring)
| warnSkipping.

(** An invocation of [handleIncomingMessage] suspended at an await. *)
Inductive Suspended :=
| awaitGenerateResponse (msg : WhatsAppMessage)
| awaitDelay (msg : WhatsAppMessage) (response : jsstring)
| awaitSendMessage (msg : WhatsAppMessage) (response : jsstring).

(** The service object ([chatHistoryService], [isProcessing],
    [responseDelay]) and, of the runtime, the suspended invocations of
    the handler and the calls made so far. *)
Record ChatbotService := {
  chatHistoryService : ChatHistoryService;
  isProcessing : bool;
  responseDelay : Z;
  suspended : list Suspended;
  calls : list Effect
}.

(** [new ChatbotService(..., chatHistoryService, ..., responseDelay)]. *)
Definition newChatbotService (history : ChatHistoryService) (responseDelay0 : Z)
    : ChatbotService :=
  {| chatHistoryService := history; isProcessing := false;
     responseDelay := responseDelay0; suspended := []; calls := [] |}.

Definition set_isProcessing (b : bool) (s : ChatbotService) : ChatbotService :=
  {| chatHistoryService := chatHistoryService s; isProcessing := b;
     responseDelay := responseDelay s; suspended := suspended s;
     calls := calls s |}.

Definition on_history (f : ChatHistoryService → ChatHistoryService)
    (s : ChatbotService) : ChatbotService :=
  {| chatHistoryService := f (chatHistoryService s);
     isProcessing := isProcessing s; responseDelay := responseDelay s;
     suspended := suspended s; calls := calls s |}.

Definition call (e : Effect) (s : ChatbotService) : ChatbotService :=
  {| chatHistoryService := chatHistoryService s;
     isProcessing := isProcessing s; responseDelay := responseDelay s;
     suspended := suspended s; calls := calls s ++ [e] |}.

Definition suspend (k : Suspended) (s : ChatbotService) : ChatbotService :=
  {| chatHistoryService := chatHistoryService s;
     isProcessing := isProcessing s; responseDelay := responseDelay s;
     suspended := suspended s ++ [k]; calls := calls s |}.

Definition resume (i : nat) (s : ChatbotService) : ChatbotService :=
  {| chatHistoryService := chatHistoryService s;
     isProcessing := isProcessing s; responseDelay := responseDelay s;
     suspended := delete i (suspended s); calls := calls s |}.

(** What a segment reads of its surroundings: the clock, and which call
    on the event channel throws (with the message of the exception). *)
Record Env := {
  now : Z;
  throws : Effect → option jsstring
}.

(** A call [this.webSocketService.send...(...)]: made, or thrown. *)
Definition broadcast (env : Env) (e : Effect) (s : ChatbotService)
    : ChatbotService + jsstring :=
  match throws env e with
  | Some error => inr error
  | None => inl (call e s)
  end.

(** [finally { this.isProcessing = false; }] (lines 419-421). *)
Definition finally (s : ChatbotService) : ChatbotService :=
  set_isProcessing false s.

(** [catch (error) { ...sendError(...) } finally {...}] (lines 411-421).
    An exception of the catch block itself leaves through [finally]. *)
Definition catch_finally (env : Env) (error : jsstring) (s : ChatbotService)
    : ChatbotService :=
  finally
    match broadcast env
            (sendError (str "Error processing message") (Some error)) s with
    | inl s' => s'
    | inr _ => s
    end.

(** Lines 342-365 and 427-442: from the call to the await of
    [aiService.generateResponse] inside [processMessage]. *)
Definition handleIncomingMessage (env : Env) (msg : WhatsAppMessage)
    (s : ChatbotService) : ChatbotService :=
  if isProcessing s then call warnSkipping s
  else
    let s1 := set_isProcessing true s in
    match broadcast env (sendMessageReceived msg) s1 with
    | inr error => catch_finally env error s1
    | inl s2 =>
        let s3 := on_history (addMessage (now env) (to msg) msg) s2 in
        let chatHistory :=
          getConversationContext (to msg) None (chatHistoryService s3) in
        suspend (awaitGenerateResponse msg)
                (call (generateResponse (content msg) chatHistory) s3)
    end.

(** Lines 400-406: the branch taken when processing did not succeed. *)
Definition processingFailed (env : Env) (error : option jsstring)
    (s : ChatbotService) : ChatbotService :=
  match broadcast env
          (sendError (str "Failed to process message") error) s with
  | inl s' => finally s'
  | inr thrown => catch_finally env thrown s
  end.

(** Lines 439-468 and 365-370: the generation settled.  [processMessage]
    turns a rejection, and an exception of its own broadcast, into a
    result without success; then [if (result.success && result.response)]. *)
Definition afterGenerateResponse (env : Env) (msg : WhatsAppMessage)
    (outcome : AIResponse + jsstring) (s : ChatbotService) : ChatbotService :=
  let '(result, s1) :=
    match outcome with
    | inl aiResponse =>
        match broadcast env (sendAIResponseGenerated aiResponse) s with
        | inl s' => (inl (message aiResponse), s')
        | inr thrown => (inr thrown, s)
        end
    | inr error => (inr error, s)
    end in
  match result with
  | inl response =>
      if truthy response
      then suspend (awaitDelay msg response) (call (delay (responseDelay s1)) s1)
      else processingFailed env None s1
  | inr error => processingFailed env (Some error) s1
  end.

(** Lines 372-374: the delay elapsed; [whatsappService.sendMessage] is
    called and awaited. *)
Definition afterDelay (msg : WhatsAppMessage) (response : jsstring)
    (s : ChatbotService) : ChatbotService :=
  suspend (awaitSendMessage msg response)
          (call (sendMessage (from msg) response) s).

(** The message synthesised for the reply (lines 378-388). *)
Definition botMessage (env : Env) (msg : WhatsAppMessage) (response : jsstring)
    : WhatsAppMessage :=
  {| id := str "bot-" ++ Number_toString (now env);
     from := to msg;
     to := from msg;
     timestamp := now env;
     type := text;
     content := response;
     isGroup := isGroup msg;
     groupId := match groupId msg with
                | Some g => if truthy g then Some g else None
                | None => None
                end;
     senderName := Some (str "AI Assistant") |}.

(** Lines 376-399 and 408-421: the send settled. *)
Definition afterSendMessage (env : Env) (msg : WhatsAppMessage)
    (response : jsstring) (outcome : bool + jsstring) (s : ChatbotService)
    : ChatbotService :=
  match outcome with
  | inl true =>
      let s1 :=
        on_history (addMessage (now env) (to msg) (botMessage env msg response)) s in
      match broadcast env (sendMessageSent (botMessage env msg response)) s1 with
      | inl s2 => finally s2
      | inr thrown => catch_finally env thrown s1
      end
  | inl false => finally s
  | inr thrown => catch_finally env thrown s
  end.

(** What can happen to the service: the transport delivers a message
    (the handler registered by [setupEventHandlers] is called), or the
    promise awaited by the [i]-th suspended invocation settles. *)
Inductive Event :=
| inbound (msg : WhatsAppMessage)
| generated (i : nat) (outcome : AIResponse + jsstring)
| delayed (i : nat)
| sent (i : nat) (outcome : bool + jsstring).

(** One event; [None] when no invocation waits for it. *)
Definition step (env : Env) (ev : Event) (s : ChatbotService)
    : option ChatbotService :=
  match ev with
  | inbound msg => Some (handleIncomingMessage env msg s)
  | generated i outcome =>
      match suspended s !! i with
      | Some (awaitGenerateResponse msg) =>
          Some (afterGenerateResponse env msg outcome (resume i s))
      | _ => None
      end
  | delayed i =>
      match suspended s !! i with
      | Some (awaitDelay msg response) =>
          Some (afterDelay msg response (resume i s))
      | _ => None
      end
  | sent i outcome =>
      match suspended s !! i with
      | Some (awaitSendMessage msg response) =>
          Some (afterSendMessage env msg response outcome (resume i s))
      | _ => None
      end
  end.

Fixpoint run (evs : list (Env * Event)) (s : ChatbotService)
    : option ChatbotService :=
  match evs with
  | [] => Some s
  | (env, ev) :: rest =>
      match step env ev s with
      | Some s' => run rest s'
      | None => None
      end
  end.

(** The number of invocations of the handler that are in flight. *)
Definition in_flight (s : ChatbotService) : nat := length (suspended s).

(** What holds between two segments: the busy flag is set exactly when
    one invocation is in flight, and never more than one is. *)
Definition flag_counts_flight (s : ChatbotService) : Prop :=
  in_flight s = if isProcessing s then 1 else 0.

(** ** Sample data for the examples *)

(** A text message of a private conversation. *)
Definition textMessage (id0 from0 to0 : string) (time : Z) (body : string)
    : WhatsAppMessage :=
  {| id := str id0; from := str from0; to := str to0; timestamp := time;
     type := text; content := str body; isGroup := false;
     groupId := None; senderName := None |}.

(** A message of a group, sent by one of its participants. *)
Definition groupMessage (id0 participant group : string) (time : Z)
    (name body : string) : WhatsAppMessage :=
  {| id := str id0; from := str participant; to := str group;
     timestamp := time; type := text; content := str body; isGroup := true;
     groupId := Some (str group); senderName := Some (str name) |}.

(** Surroundings in which no call throws. *)
Definition calm (time : Z) : Env := {| now := time; throws := λ _, None |}.

(** Surroundings in which every call on the event channel throws. *)
Definition stormy (time : Z) : Env :=
  {| now := time; throws := λ _, Some (str "socket closed") |}.

(** Appending a list of messages to one conversation, one call each;
    every message comes with the clock of its call. *)
Definition addMessages (chatId0 : jsstring) (msgs : list (Z * WhatsAppMessage))
    (svc : ChatHistoryService) : ChatHistoryService :=
  fold_left (λ svc0 tm, addMessage tm.1 chatId0 tm.2 svc0) msgs svc.

(** ** JavaScript strings, continued *)

(** [s.endsWith(p)]. *)
Definition endsWith (s p : jsstring) : bool := startsWith (rev s) (rev p).

(** A string that may be absent ([null], [undefined]), as the operand of
    [||] or of [if]: itself when it is there and not empty. *)
Definition nonempty (s : option jsstring) : option jsstring :=
  match s with
  | Some s' => if truthy s' then Some s' else None
  | None => None
  end.

(** [a || b] on such operands, once they are read with [nonempty]. *)
Definition or_else {A : Type} (a b : option A) : option A :=
  match a with
  | Some x => Some x
  | None => b
  end.

(** Whether an optional property is there. *)
Definition present {A : Type} (x : option A) : bool :=
  match x with Some _ => true | None => false end.

(** [error instanceof Error ? error.message : 'Unknown error']: a thrown
    value is [Some message] when it is an [Error], [None] otherwise. *)
Definition error_message (thrown : option jsstring) : jsstring :=
  match thrown with
  | Some m => m
  | None => str "Unknown error"
  end.

(** ** chat-history.service.ts: the queries *)

(** [searchMessages(chatId, query)] (lines 126-133); [toLowerCase] is the
    runtime's, as for [extractContext]. *)
Definition searchMessages (toLowerCase : jsstring → jsstring)
    (chatId0 query : jsstring) (svc : ChatHistoryService)
    : list WhatsAppMessage :=
  let msgs := getChatHistory chatId0 svc in
  let lowerQuery := toLowerCase query in
  List.filter (λ msg, includes (toLowerCase (content msg)) lowerQuery) msgs.

(** [getMessagesByDateRange(chatId, startDate, endDate)] (lines 138-150);
    the two dates are given by their time values ([getTime()]). *)
Definition getMessagesByDateRange (chatId0 : jsstring) (startTime endTime : Z)
    (svc : ChatHistoryService) : list WhatsAppMessage :=
  let msgs := getChatHistory chatId0 svc in
  List.filter (λ msg, (startTime <=? timestamp msg)%Z
                      && (timestamp msg <=? endTime)%Z) msgs.

(** The calls that change a store without reading a text. *)
Inductive StoreCall :=
| callAddMessage (now : Z) (chatId0 : jsstring) (msg : WhatsAppMessage)
| callClearChatHistory (chatId0 : jsstring)
| callCleanupOldHistories (now : Z) (daysOld : option Z).

Definition perform (c : StoreCall) (svc : ChatHistoryService)
    : ChatHistoryService :=
  match c with
  | callAddMessage now chatId0 msg => addMessage now chatId0 msg svc
  | callClearChatHistory chatId0 => clearChatHistory chatId0 svc
  | callCleanupOldHistories now daysOld =>
      (cleanupOldHistories now daysOld svc).1
  end.

Definition performAll (cs : list StoreCall) (svc : ChatHistoryService)
    : ChatHistoryService :=
  fold_left (λ svc0 c, perform c svc0) cs svc.

(** What [addMessage] keeps of a store: every history is stored under
    its own [chatId], holds a message, and is no longer than the limit. *)
Definition within_limit (svc : ChatHistoryService) : Prop :=
  ∀ c h, chatHistories svc !! c = Some h →
         chatId h = c
         ∧ (1 <= Z.of_nat (length (messages h)) <= maxHistoryLength svc)%Z.

(** ** src/services/whatsapp.service.ts, lines 1-260: WhatsAppService *)

Module WhatsAppService.

(** Of [proto.IMessage], what [getMessageType] and
    [extractMessageContent] read.  A message inside the message is
    [Some] when it is there, and then holds the one property read of it
    (the text of an extended text message, the caption of an image or a
    video, the title of a document); of the three others only the
    presence is read. *)
Record IMessage := {
  conversation : option jsstring;
  extendedTextMessage : option (option jsstring);
  imageMessage : option (option jsstring);
  videoMessage : option (option jsstring);
  audioMessage : bool;
  documentMessage : option (option jsstring);
  locationMessage : bool;
  contactMessage : bool
}.

(** [proto.IMessageKey]; [key_id] is its [id]. *)
Record IMessageKey := {
  remoteJid : option jsstring;
  fromMe : option bool;
  key_id : option jsstring;
  participant : option jsstring
}.

(** Of [proto.IWebMessageInfo], what [parseMessage] reads.
    [messageTimestamp] is a number of seconds (the [Long] objects of
    the protocol buffers are outside the model). *)
Record IWebMessageInfo := {
  key : IMessageKey;
  message : option IMessage;
  messageTimestamp : option Z;
  pushName : option jsstring
}.

(** [extractMessageContent(message)] (lines 159-169). *)
Definition extractMessageContent (message0 : option IMessage)
    : option jsstring :=
  match message0 with
  | None => None
  | Some m =>
      or_else (nonempty (conversation m))
     (or_else (nonempty (mjoin (extendedTextMessage m)))
     (or_else (nonempty (mjoin (imageMessage m)))
     (or_else (nonempty (mjoin (videoMessage m)))
              (nonempty (mjoin (documentMessage m))))))
  end.

(** [getMessageType(message)] (lines 174-186). *)
Definition getMessageType (message0 : option IMessage) : MessageType :=
  match message0 with
  | None => text
  | Some m =>
      if present (nonempty (conversation m)) || present (extendedTextMessage m)
      then text
      else if present (imageMessage m) then image
      else if present (videoMessage m) then video
      else if audioMessage m then audio
      else if present (documentMessage m) then document
      else if locationMessage m then location
      else if contactMessage m then contact
      else text
  end.

(** [parseMessage(msg)] (lines 129-154).  Nothing in the [try] block
    throws on a value of the declared type. *)
Definition parseMessage (now : Z) (msg : IWebMessageInfo)
    : option WhatsAppMessage :=
  let messageType := getMessageType (message msg) in
  match extractMessageContent (message msg) with
  | None => None
  | Some content0 =>
      let isGroup0 :=
        match remoteJid (key msg) with
        | Some jid => endsWith jid (str "@g.us")
        | None => false
        end in
      let groupId0 := if isGroup0 then remoteJid (key msg) else None in
      Some {| id := default [] (nonempty (key_id (key msg)));
              from := default [] (or_else (nonempty (participant (key msg)))
                                          (nonempty (remoteJid (key msg))));
              to := default [] (nonempty (remoteJid (key msg)));
              timestamp :=
                match messageTimestamp msg with
                | Some seconds =>
                    if (seconds =? 0)%Z then now else (seconds * 1000)%Z
                | None => now
                end;
              type := messageType;
              content := content0;
              isGroup := isGroup0;
              groupId := nonempty groupId0;
              senderName := nonempty (pushName msg) |}
  end.

(** The handler of [messages.upsert] (lines 73-94): the message, if any,
    that the message handlers are called with. *)
Definition onMessagesUpsert (now : Z) (messages0 : list IWebMessageInfo)
    : option WhatsAppMessage :=
  match messages0 with
  | [] => None
  | msg :: _ =>
      if negb (default false (fromMe (key msg))) && present (message msg)
      then parseMessage now msg
      else None
  end.

(** [ConnectionStatus] (src/types/index.ts, lines 67-73). *)
Inductive ConnectionStatus :=
  DISCONNECTED | CONNECTING | CONNECTED | AUTHENTICATING | READY.

(** The service object: whether there is a socket, and the status. *)
Record State := {
  sock : bool;
  connectionStatus : ConnectionStatus
}.

(** [isConnected()] (lines 228-230). *)
Definition isConnected (st : State) : bool :=
  match connectionStatus st with READY => true | _ => false end.

(** [sendMessage(chatId, message)] (lines 107-124): the boolean its
    promise resolves to; the promise is never rejected.  [delivered]
    says whether [sock.sendMessage], if it is called, resolves. *)
Definition sendMessage (delivered : bool) (st : State) : bool :=
  if negb (sock st) || negb (isConnected st) then false
  else if delivered then true else false.

End WhatsAppService.

(** ** src/services/ai.service.ts: AIService *)

Module AIService.

(** [AIProvider] and [AIServiceConfig] (src/types/index.ts, lines 47
    and 88-95). *)
Inductive AIProvider := openai | gemini.

Record AIServiceConfig := {
  provider : AIProvider;
  apiKey : jsstring;
  model : jsstring;
  maxTokens : Z;
  temperature : Q;
  systemPrompt : jsstring
}.

(** The reply that stands for a missing one (lines 63 and 117). *)
Definition apology : jsstring :=
  str "I apologize, but I cannot generate a response at the moment.".

(** The role of a turn, as the string the source writes. *)
Definition role_name (r : Role) : jsstring :=
  match r with
  | user => str "user"
  | assistant => str "assistant"
  end.

(** The [messages] of the request to OpenAI (lines 51-56): pairs of a
    role and a content. *)
Definition chatMessages (config : AIServiceConfig) (message0 : jsstring)
    (chatHistory : list WhatsAppMessage) : list (jsstring * jsstring) :=
  let conversationContext := buildConversationContext chatHistory in
  [(str "system", systemPrompt config)]
  ++ ((λ turn, (role_name turn.1, turn.2)) <$> conversationContext)
  ++ [(str "user", message0)].

(** The argument of [openai.chat.completions.create] (lines 57-62). *)
Record ChatCompletionRequest := {
  request_model : jsstring;
  request_messages : list (jsstring * jsstring);
  max_tokens : Z;
  request_temperature : Q
}.

Definition completionRequest (config : AIServiceConfig) (message0 : jsstring)
    (chatHistory : list WhatsAppMessage) : ChatCompletionRequest :=
  {| request_model := model config;
     request_messages := chatMessages config message0 chatHistory;
     max_tokens := maxTokens config;
     request_temperature := temperature config |}.

(** Of a completion, what the source reads: of every choice its
    [finish_reason] and the [content] of its [message]. *)
Record ChatCompletionMessage := { completion_content : option jsstring }.

Record Choice := {
  finish_reason : option jsstring;
  choice_message : option ChatCompletionMessage
}.

Record ChatCompletion := { choices : list Choice }.

(** [calculateConfidence(completion)] (lines 158-172). *)
Definition calculateConfidence (completion : ChatCompletion) : Q :=
  let finishReason := choices completion !! 0 ≫= finish_reason in
  if decide (finishReason = Some (str "stop")) then 9 # 10
  else if decide (finishReason = Some (str "length")) then 7 # 10
  else if decide (finishReason = Some (str "content_filter")) then 5 # 10
  else 6 # 10.

(** The prompt of the request to Gemini (lines 88-91). *)
Definition turn_line (turn : Role * jsstring) : jsstring :=
  (match turn.1 with user => str "User" | assistant => str "Bot" end)
  ++ str ": " ++ turn.2.

Definition geminiPrompt (config : AIServiceConfig) (message0 : jsstring)
    (chatHistory : list WhatsAppMessage) : jsstring :=
  let context0 :=
    join [10%N] (turn_line <$> buildConversationContext chatHistory) in
  systemPrompt config ++ [10%N] ++ context0 ++ [10%N] ++ str "User: "
  ++ message0 ++ [10%N] ++ str "Bot:".

(** How the request to Gemini goes on (lines 106-116): [fetch] is
    rejected; or it resolves to a response that is not [ok], whose
    [text()] is read; or to one that is, whose [json()] is read.  Each of
    the two readings resolves ([inl]) or is rejected ([inr]). *)
Inductive FetchOutcome :=
| fetch_rejected (thrown : option jsstring)
| response_not_ok (status : Z) (errorText : jsstring + option jsstring)
| response_ok (data : json decimal + option jsstring).

(** [v?.[0]] on a value that [JSON.parse] made: the first element of an
    array, the property ["0"] of an object, the first code unit of a
    string; [None] is [undefined]. *)
Definition first_element (v : json decimal) : option (json decimal) :=
  match v with
  | JArr items => items !! 0
  | JObj members => last_member (str "0") members
  | JStr (c :: _) => Some (JStr [c])
  | _ => None
  end.

(** [data.candidates?.[0]?.content?.parts?.[0]?.text] (line 117) for a
    [data] that is not [null].  No prototype has a property of one of
    these four names, so [property] is the reading of each. *)
Definition candidate_text (data : json decimal) : option (json decimal) :=
  candidates ← property "candidates" data;
  candidate ← first_element candidates;
  content0 ← property "content" candidate;
  parts ← property "parts" content0;
  part ← first_element parts;
  property "text" part.

(** [text || apology]: the string of the reply, or the value that is
    stored as the message though it is no string.  A number is falsy
    when it is zero (the underflow of a double is outside the model). *)
Definition reply_text (text0 : option (json decimal))
    : jsstring + json decimal :=
  match text0 with
  | None => inl apology
  | Some JNull => inl apology
  | Some (JBool false) => inl apology
  | Some (JStr s) => if truthy s then inl s else inl apology
  | Some (JNum d) => if (mantissa d =? 0)%Z then inl apology else inr (JNum d)
  | Some v => inr v
  end.

(** What the promise of [generateResponse] settles to: it resolves to a
    response, or to an object whose [message] is no string, or it is
    rejected with an [Error] of this message. *)
Inductive Generated :=
| replied (response : AIResponse)
| replied_untyped (message0 : json decimal)
| failed (error : jsstring).

Section Runtime.

(** The runtime's [String.prototype.toLowerCase], and the message of the
    [TypeError] it throws when a property of [null] is read. *)
Variable toLowerCase : jsstring → jsstring.
Variable nullReadError : jsstring.

(** [generateOpenAIResponse(message, chatHistory)] (lines 44-76), after
    the request is made: [outcome] is the completion, or what
    [create] threw. *)
Definition generateOpenAIResponse (now : Z) (chatHistory : list WhatsAppMessage)
    (outcome : ChatCompletion + option jsstring) : Generated :=
  match outcome with
  | inl completion =>
      let aiMessage :=
        default apology
          (nonempty (choice ← choices completion !! 0;
                     message0 ← choice_message choice;
                     completion_content message0)) in
      replied {| message := aiMessage;
                 confidence := calculateConfidence completion;
                 context := extractContext toLowerCase chatHistory;
                 producedAt := now |}
  | inr thrown =>
      failed (str "Failed to generate OpenAI response: " ++ error_message thrown)
  end.

(** [generateGeminiResponse(message, chatHistory)] (lines 81-130), after
    the request is made. *)
Definition generateGeminiResponse (now : Z) (chatHistory : list WhatsAppMessage)
    (outcome : FetchOutcome) : Generated :=
  let rejected thrown :=
    failed (str "Failed to generate Gemini response: " ++ thrown) in
  match outcome with
  | fetch_rejected thrown => rejected (error_message thrown)
  | response_not_ok status (inl errorText) =>
      rejected (str "Gemini API error: " ++ Number_toString status
                ++ str " - " ++ errorText)
  | response_not_ok status (inr thrown) => rejected (error_message thrown)
  | response_ok (inr thrown) => rejected (error_message thrown)
  | response_ok (inl JNull) => rejected nullReadError
  | response_ok (inl data) =>
      match reply_text (candidate_text data) with
      | inl aiMessage =>
          replied {| message := aiMessage;
                     confidence := 9 # 10;
                     context := extractContext toLowerCase chatHistory;
                     producedAt := now |}
      | inr other => replied_untyped other
      end
  end.

(** What the two services answer to a request. *)
Record Answers := {
  completion : ChatCompletion + option jsstring;
  fetched : FetchOutcome
}.

(** [generateResponse(message, chatHistory)] (lines 30-39). *)
Definition generateResponse (config : AIServiceConfig) (now : Z)
    (chatHistory : list WhatsAppMessage) (answers : Answers) : Generated :=
  match provider config with
  | openai => generateOpenAIResponse now chatHistory (completion answers)
  | gemini => generateGeminiResponse now chatHistory (fetched answers)
  end.

End Runtime.

End AIService.

(** ** The transport and the orchestrator together *)

(** A batch of the transport reaches the orchestrator through the
    handler that [setupEventHandlers] registers (lines 300-302);
    [parsedAt] is the clock that [parseMessage] reads. *)
Definition deliver (parsedAt : Z) (env : Env)
    (batch : list WhatsAppService.IWebMessageInfo) (s : ChatbotService)
    : ChatbotService :=
  match WhatsAppService.onMessagesUpsert parsedAt batch with
  | Some msg => handleIncomingMessage env msg s
  | None => s
  end.

(** *** The public methods that write (lines 499-546)

    Besides the handler, [ChatbotService] has methods for its owner.
    Four of them change what the handler works on:
    [sendManualMessage] calls [whatsappService.sendMessage] with its
    arguments; [clearChatHistory], [importChatHistory] and
    [cleanupOldHistories] pass their arguments to the store.  The other
    methods read ([getStatus], [getChatHistory], [searchMessages],
    [exportChatHistory]) or start and stop the collaborators
    ([initialize], [shutdown]); the handler of the connection status
    (lines 305-308) tells the event channel and does nothing else. *)
Module Chatbot.

(** What is asked of the service: an event of the handler, or a call of
    one of the four methods. *)
Inductive Call :=
| event (ev : Event)
| sendManualMessage (chatId0 message0 : jsstring)
| clearChatHistory (chatId0 : jsstring)
| importChatHistory (chatId0 jsonData : jsstring)
| cleanupOldHistories (daysOld : option Z).

End Chatbot.

(** One call.  [sendManualMessage] makes its call of [sendMessage] and
    awaits it; nothing of the service depends on the result.  [None]
    when the call is an event no invocation waits for, and when an
    import stores a value that is no history: the typed store cannot
    follow the service there. *)
Definition serve (env : Env) (c : Chatbot.Call) (s : ChatbotService)
    : option ChatbotService :=
  match c with
  | Chatbot.event ev => step env ev s
  | Chatbot.sendManualMessage chatId0 message0 =>
      Some (call (sendMessage chatId0 message0) s)
  | Chatbot.clearChatHistory chatId0 =>
      Some (on_history (clearChatHistory chatId0) s)
  | Chatbot.importChatHistory chatId0 jsonData =>
      match importChatHistory chatId0 jsonData (chatHistoryService s) with
      | returned _ svc => Some (on_history (λ _, svc) s)
      | stored_untyped _ _ => None
      end
  | Chatbot.cleanupOldHistories daysOld =>
      Some (on_history (λ svc, (cleanupOldHistories (now env) daysOld svc).1) s)
  end.

Fixpoint serveAll (cs : list (Env * Chatbot.Call)) (s : ChatbotService)
    : option ChatbotService :=
  match cs with
  | [] => Some s
  | (env, c) :: rest =>
      match serve env c s with
      | Some s' => serveAll rest s'
      | None => None
      end
  end.

(** The calls of a run with their surroundings left out. *)
Definition asked (cs : list (Env * Chatbot.Call)) : list Chatbot.Call := cs.*2.

(** In a run, [reply] is a reply to [msg]: the message was delivered, and
    a generation settled with [reply] as its message, which is not
    empty. *)
Definition replies_to (cs : list (Env * Chatbot.Call)) (msg : WhatsAppMessage)
    (reply : jsstring) : Prop :=
  Chatbot.event (inbound msg) ∈ asked cs
  ∧ (∃ i response, Chatbot.event (generated i (inl response)) ∈ asked cs
                   ∧ message response = reply)
  ∧ truthy reply = true.

(** [m] is the message built for the reply [reply] to [msg] (lines
    378-388), but for its [id] and its [timestamp], which are read from
    the clock. *)
Definition answers (m msg : WhatsAppMessage) (reply : jsstring) : Prop :=
  from m = to msg ∧ to m = from msg ∧ type m = text ∧ content m = reply
  ∧ isGroup m = isGroup msg ∧ senderName m = Some (str "AI Assistant").

(** In a run, [m] was imported into the conversation [c]: it is a
    message of the history that a text imported under [c] spells. *)
Definition imported (cs : list (Env * Chatbot.Call)) (c : jsstring)
    (m : WhatsAppMessage) : Prop :=
  ∃ jsonData parsed h,
    Chatbot.importChatHistory c jsonData ∈ asked cs
    ∧ JSON_parse jsonData = Some parsed
    ∧ history_of_json parsed = Some h
    ∧ m ∈ messages h.

(** What a suspended invocation owes to the run: the message it handles
    was delivered, and the reply it holds, if it holds one, is a reply
    to this message. *)
Definition waits_for (cs : list (Env * Chatbot.Call)) (k : Suspended) : Prop :=
  match k with
  | awaitGenerateResponse msg => Chatbot.event (inbound msg) ∈ asked cs
  | awaitDelay msg reply => replies_to cs msg reply
  | awaitSendMessage msg reply => replies_to cs msg reply
  end.

(** What holds of the service after the calls [cs], from a store
    [history0]: every send made was asked for by [sendManualMessage], or
    is a reply to a message delivered, to its sender; every message
    stored was there at the start, or is a message delivered, stored
    under its [to], or is the message built for a reply, stored under
    the [to] of the message it answers, or was imported. *)
Definition accounted (history0 : ChatHistoryService)
    (cs : list (Env * Chatbot.Call)) (s : ChatbotService) : Prop :=
  (∀ k, k ∈ suspended s → waits_for cs k)
  ∧ (∀ c reply, sendMessage c reply ∈ calls s →
       Chatbot.sendManualMessage c reply ∈ asked cs
       ∨ ∃ msg, c = from msg ∧ replies_to cs msg reply)
  ∧ (∀ c m, m ∈ getChatHistory c (chatHistoryService s) →
       m ∈ getChatHistory c history0
       ∨ (Chatbot.event (inbound m) ∈ asked cs ∧ c = to m)
       ∨ (∃ msg reply, answers m msg reply ∧ c = to msg
                       ∧ replies_to cs msg reply)
       ∨ imported cs c m).
(* ===================================================================== *)
(** * Part II. Properties                                                 *)
(* ===================================================================== *)

Example slice_minus_zero : slice [1; 2; 3] (-0) None = [1; 2; 3].
Proof. reflexivity. Qed.

Example slice_minus_two : slice [1; 2; 3] (-2) None = [2; 3].
Proof. reflexivity. Qed.

Example split_spaces : split 32 (str "a  bc") = [str "a"; []; str "bc"].
Proof. reflexivity. Qed.


(** ** Array.prototype.slice *)

Lemma relative_index_neg (len : nat) (n : Z) :
  (0 < n)%Z → relative_index len (- n) = len - Z.to_nat n.
Proof.
  intros Hn. unfold relative_index.
  destruct (Z.ltb_spec (- n) 0); lia.
Qed.

Lemma relative_index_nonneg (len : nat) (n : Z) :
  (0 <= n)%Z → relative_index len n = min (Z.to_nat n) len.
Proof.
  intros Hn. unfold relative_index.
  destruct (Z.ltb_spec n 0); lia.
Qed.

Lemma slice_from_start {A} (l : list A) : slice l 0 None = l.
Proof.
  unfold slice. rewrite relative_index_nonneg by lia.
  change (Z.to_nat 0) with 0. rewrite Nat.min_0_l, Nat.sub_0_r.
  apply firstn_all.
Qed.

Lemma slice_last {A} (l : list A) (n : Z) :
  (0 < n)%Z → slice l (- n) None = drop (length l - Z.to_nat n) l.
Proof.
  intros Hn. unfold slice. rewrite relative_index_neg by done.
  apply take_ge. rewrite length_drop. lia.
Qed.

Lemma slice_last_length {A} (l : list A) (n : Z) :
  (0 < n)%Z → length (slice l (- n) None) = min (Z.to_nat n) (length l).
Proof. intros Hn. rewrite slice_last by done. rewrite length_drop. lia. Qed.

Lemma slice_first {A} (l : list A) (n : Z) :
  (0 <= n)%Z → slice l 0 (Some n) = take (Z.to_nat n) l.
Proof.
  intros Hn. unfold slice. rewrite !relative_index_nonneg by lia.
  change (Z.to_nat 0) with 0. rewrite Nat.min_0_l, Nat.sub_0_r.
  unfold drop.
  destruct (Nat.min_spec (Z.to_nat n) (length l)) as [[? ->]|[? ->]]; [done|].
  rewrite firstn_all. symmetry. by apply take_ge.
Qed.
(** ** The history store *)

Lemma most_recent_all {A} (n : nat) (l : list A) :
  length l ≤ n → most_recent n l = l.
Proof. intros H. unfold most_recent. by replace (length l - n) with 0 by lia. Qed.

Lemma most_recent_length {A} (n : nat) (l : list A) :
  length (most_recent n l) = min n (length l).
Proof. unfold most_recent. rewrite length_drop. lia. Qed.

Lemma most_recent_app {A} (n : nat) (l k : list A) :
  most_recent n (most_recent n l ++ k) = most_recent n (l ++ k).
Proof.
  destruct (decide (length l ≤ n)) as [Hle|Hgt].
  { by rewrite (most_recent_all n l). }
  unfold most_recent at 1 3. rewrite !length_app, most_recent_length.
  unfold most_recent. rewrite !drop_app, drop_drop, length_drop.
  f_equal; f_equal; lia.
Qed.

Lemma slice_last_most_recent {A} (l : list A) (n : Z) :
  (0 < n)%Z → slice l (- n) None = most_recent (Z.to_nat n) l.
Proof. apply slice_last. Qed.

Lemma maxHistoryLength_addMessage now c m svc :
  maxHistoryLength (addMessage now c m svc) = maxHistoryLength svc.
Proof. done. Qed.

Lemma getChatHistory_addMessage now c m svc :
  getChatHistory c (addMessage now c m svc) =
  let pushed := getChatHistory c svc ++ [m] in
  if (Z.of_nat (length pushed) >? maxHistoryLength svc)%Z
  then slice pushed (- maxHistoryLength svc) None
  else pushed.
Proof.
  unfold getChatHistory, addMessage. simpl. rewrite lookup_insert_eq. simpl.
  by destruct (chatHistories svc !! c).
Qed.

Lemma getChatHistory_addMessage_ne now c c' m svc :
  c ≠ c' → getChatHistory c' (addMessage now c m svc) = getChatHistory c' svc.
Proof.
  intros Hne. unfold getChatHistory, addMessage. simpl.
  by rewrite lookup_insert_ne.
Qed.

Lemma lastUpdated_addMessage now c m svc :
  lastUpdated <$> chatHistories (addMessage now c m svc) !! c = Some now.
Proof. unfold addMessage. simpl. by rewrite lookup_insert_eq. Qed.

(** With a limit of at least one, a call leaves the most recent
    [maxHistoryLength] of what was stored followed by the new message. *)
Lemma getChatHistory_addMessage_pos now c m svc :
  (1 <= maxHistoryLength svc)%Z →
  getChatHistory c (addMessage now c m svc) =
  most_recent (Z.to_nat (maxHistoryLength svc)) (getChatHistory c svc ++ [m]).
Proof.
  intros HL. rewrite getChatHistory_addMessage. cbv zeta.
  destruct (Z.gtb_spec (Z.of_nat (length (getChatHistory c svc ++ [m])))
              (maxHistoryLength svc)) as [Hgt|Hle].
  - apply slice_last_most_recent. lia.
  - symmetry. apply most_recent_all. lia.
Qed.

(** With a limit of zero nothing is ever cut: [slice(-0)] is the whole
    array. *)
Lemma getChatHistory_addMessage_zero now c m svc :
  maxHistoryLength svc = 0%Z →
  getChatHistory c (addMessage now c m svc) = getChatHistory c svc ++ [m].
Proof.
  intros HL. rewrite getChatHistory_addMessage. cbv zeta. rewrite HL.
  change (- 0)%Z with 0%Z. rewrite slice_from_start.
  by destruct (_ >? _)%Z.
Qed.

Lemma maxHistoryLength_addMessages c msgs svc :
  maxHistoryLength (addMessages c msgs svc) = maxHistoryLength svc.
Proof.
  revert svc. induction msgs as [|[t m] msgs IH]; intros svc; [done|].
  simpl. by rewrite IH.
Qed.

Lemma getChatHistory_addMessages_pos c msgs svc :
  (1 <= maxHistoryLength svc)%Z →
  length (getChatHistory c svc) ≤ Z.to_nat (maxHistoryLength svc) →
  getChatHistory c (addMessages c msgs svc) =
  most_recent (Z.to_nat (maxHistoryLength svc)) (getChatHistory c svc ++ msgs.*2).
Proof.
  revert svc. induction msgs as [|[t m] msgs IH]; intros svc HL Hlen.
  - simpl. rewrite app_nil_r. symmetry. by apply most_recent_all.
  - simpl. rewrite IH.
    + rewrite maxHistoryLength_addMessage, getChatHistory_addMessage_pos by done.
      rewrite most_recent_app. by rewrite <- app_assoc.
    + by rewrite maxHistoryLength_addMessage.
    + rewrite maxHistoryLength_addMessage, getChatHistory_addMessage_pos by done.
      rewrite most_recent_length. lia.
Qed.

Lemma getChatHistory_addMessages_zero c msgs svc :
  maxHistoryLength svc = 0%Z →
  getChatHistory c (addMessages c msgs svc) = getChatHistory c svc ++ msgs.*2.
Proof.
  revert svc. induction msgs as [|[t m] msgs IH]; intros svc HL.
  - simpl. by rewrite app_nil_r.
  - simpl. rewrite IH by done.
    rewrite getChatHistory_addMessage_zero by done. by rewrite <- app_assoc.
Qed.

Lemma getChatHistory_new L c : getChatHistory c (newChatHistoryService L) = [].
Proof. unfold getChatHistory. simpl. by rewrite lookup_empty. Qed.

(** X1 (the bound behind claim C2, for a limit of at least one): after
    any sequence of calls of [addMessage] on one conversation of a new
    store, the stored history is the most recent [maxHistoryLength] of
    the messages appended, in their order, and is no longer than
    [maxHistoryLength]. *)
Theorem addMessage_keeps_most_recent (L : Z) (c : jsstring)
    (msgs : list (Z * WhatsAppMessage)) :
  (1 <= L)%Z →
  getChatHistory c (addMessages c msgs (newChatHistoryService L))
    = most_recent (Z.to_nat L) msgs.*2
  ∧ (Z.of_nat (length (getChatHistory c (addMessages c msgs (newChatHistoryService L)))) <= L)%Z.
Proof.
  intros HL.
  assert (getChatHistory c (addMessages c msgs (newChatHistoryService L))
          = most_recent (Z.to_nat L) msgs.*2) as ->.
  { rewrite getChatHistory_addMessages_pos, getChatHistory_new; [done|done|].
    rewrite getChatHistory_new. simpl. lia. }
  split; [done|]. rewrite most_recent_length. lia.
Qed.

Lemma addMessage_keeps_most_recent_witness :
  let msgs := [(1%Z, textMessage "A" "u" "chat" 1 "a");
               (2%Z, textMessage "B" "u" "chat" 2 "b")] in
  (1 <= 1)%Z
  ∧ (getChatHistory (str "chat")
       (addMessages (str "chat") msgs (newChatHistoryService 1))
     = most_recent (Z.to_nat 1) msgs.*2
     ∧ (Z.of_nat (length (getChatHistory (str "chat")
          (addMessages (str "chat") msgs (newChatHistoryService 1)))) <= 1)%Z).
Proof.
  split; [lia|]. apply (addMessage_keeps_most_recent 1 (str "chat")). lia.
Defined.

(** The scenario of claim C2: limit 3, messages A, B, C, D. *)
Example addMessage_scenario_ABCD :
  let A := textMessage "A" "u" "chat" 1 "a" in
  let B := textMessage "B" "u" "chat" 2 "b" in
  let C := textMessage "C" "u" "chat" 3 "c" in
  let D := textMessage "D" "u" "chat" 4 "d" in
  getChatHistory (str "chat")
    (addMessages (str "chat") [(1%Z, A); (2%Z, B); (3%Z, C); (4%Z, D)]
       (newChatHistoryService 3))
  = [B; C; D].
Proof. vm_compute. reflexivity. Qed.

(** C2: with [maxHistoryLength = 0] the history is not bounded by the
    limit.  [new ChatHistoryService(0)], then [addMessage("chat", A)]:
    the stored history is [A], of length 1. *)
Theorem addMessage_limit_zero_not_enforced :
  let A := textMessage "A" "u" "chat" 1 "a" in
  let svc := addMessage 1 (str "chat") A (newChatHistoryService 0) in
  getChatHistory (str "chat") svc = [A]
  ∧ (Z.of_nat (length (getChatHistory (str "chat") svc)) > maxHistoryLength svc)%Z.
Proof. vm_compute. split; reflexivity. Qed.

(** ** Reading the store *)

Lemma getChatHistory_unknown c svc :
  chatHistories svc !! c = None → getChatHistory c svc = [].
Proof. intros H. unfold getChatHistory. by rewrite H. Qed.

Lemma slice_nil {A} start stop : slice (@nil A) start stop = [].
Proof. unfold slice. by rewrite drop_nil, take_nil. Qed.

(** X2 (claim C4 for a count of at least one): [getRecentMessages]
    returns the last [min(n, len)] stored messages in their order, and
    the empty array for a conversation the store does not know. *)
Theorem getRecentMessages_last (c : jsstring) (n : Z) (svc : ChatHistoryService) :
  (1 <= n)%Z →
  getRecentMessages c (Some n) svc = most_recent (Z.to_nat n) (getChatHistory c svc)
  ∧ length (getRecentMessages c (Some n) svc)
    = min (Z.to_nat n) (length (getChatHistory c svc))
  ∧ (chatHistories svc !! c = None → getRecentMessages c (Some n) svc = []).
Proof.
  intros Hn. unfold getRecentMessages. simpl.
  rewrite slice_last_most_recent by lia. split; [done|]. split.
  - apply most_recent_length.
  - intros H. by rewrite getChatHistory_unknown.
Qed.

Lemma getRecentMessages_last_witness :
  let svc := addMessages (str "chat")
               [(1%Z, textMessage "A" "u" "chat" 1 "a");
                (2%Z, textMessage "B" "u" "chat" 2 "b")]
               (newChatHistoryService 50) in
  (1 <= 1)%Z ∧ getRecentMessages (str "chat") (Some 1%Z) svc
               = [textMessage "B" "u" "chat" 2 "b"].
Proof.
  intros svc. split; [lia|].
  destruct (getRecentMessages_last (str "chat") 1 svc ltac:(lia)) as [-> _].
  reflexivity.
Defined.

(** A conversation without history reads as the empty array, whatever
    the count (zero and the default included). *)
Lemma getRecentMessages_unknown c count svc :
  chatHistories svc !! c = None → getRecentMessages c count svc = [].
Proof.
  intros H. unfold getRecentMessages. rewrite getChatHistory_unknown by done.
  apply slice_nil.
Qed.

(** A count of zero returns every stored message: [slice(-0)]. *)
Lemma getRecentMessages_zero c svc :
  getRecentMessages c (Some 0%Z) svc = getChatHistory c svc.
Proof. unfold getRecentMessages. simpl. apply slice_from_start. Qed.

(** C4: [getRecentMessages(chatId, 0)] on a history of two messages
    returns both, not the last [min(0, 2) = 0] of them. *)
Theorem getRecentMessages_zero_returns_all :
  let A := textMessage "A" "u" "chat" 1 "a" in
  let B := textMessage "B" "u" "chat" 2 "b" in
  let svc := addMessages (str "chat") [(1%Z, A); (2%Z, B)]
               (newChatHistoryService 50) in
  getRecentMessages (str "chat") (Some 0%Z) svc = [A; B].
Proof. vm_compute. reflexivity. Qed.

(** C9: for a conversation without stored history
    [getChatHistoryStats] returns (it is a total function: no exception)
    the record with [totalMessages = 0], [lastMessageTime = null] and
    [averageMessageLength = 0]. *)
Theorem getChatHistoryStats_unknown (c : jsstring) (svc : ChatHistoryService) :
  chatHistories svc !! c = None →
  getChatHistoryStats c svc
  = {| totalMessages := 0; lastMessageTime := None; averageMessageLength := 0 |}.
Proof.
  intros H. unfold getChatHistoryStats.
  by rewrite getChatHistory_unknown.
Qed.

Lemma getChatHistoryStats_unknown_witness :
  let svc := addMessage 1 (str "chat") (textMessage "A" "u" "chat" 1 "a")
               (newChatHistoryService 50) in
  chatHistories svc !! str "other" = None
  ∧ getChatHistoryStats (str "other") svc
    = {| totalMessages := 0; lastMessageTime := None; averageMessageLength := 0 |}.
Proof.
  intros svc.
  assert (H : chatHistories svc !! str "other" = None) by (vm_compute; reflexivity).
  split; [exact H|]. exact (getChatHistoryStats_unknown (str "other") svc H).
Defined.

Example getChatHistoryStats_known :
  getChatHistoryStats (str "chat")
    (addMessages (str "chat")
       [(1%Z, textMessage "A" "u" "chat" 10 "abcd");
        (2%Z, textMessage "B" "u" "chat" 20 "abc")]
       (newChatHistoryService 50))
  = {| totalMessages := 2; lastMessageTime := Some 20%Z;
       averageMessageLength := 4 |}.
Proof. vm_compute. reflexivity. Qed.

(** ** Eviction *)

(** The loop of [cleanupOldHistories], entry by entry: what it has
    deleted and counted once the entries of [seen] are done. *)
Lemma cleanup_loop (cutoffTime : Z) (all : gmap jsstring ChatHistory) :
  ∀ seen : gmap jsstring ChatHistory,
    map_fold
      (λ chatId0 chatHistory '(m, n),
         if (lastUpdated chatHistory <? cutoffTime)%Z
         then (delete chatId0 m, (n + 1)%Z)
         else (m, n))
      (all, 0%Z) seen
    = (all ∖ filter (λ kv, (lastUpdated kv.2 < cutoffTime)%Z) seen,
       Z.of_nat (size (filter (λ kv, (lastUpdated kv.2 < cutoffTime)%Z) seen))).
Proof.
  apply (map_fold_weak_ind (λ r seen,
    r = (all ∖ filter (λ kv, (lastUpdated kv.2 < cutoffTime)%Z) seen,
         Z.of_nat (size (filter (λ kv, (lastUpdated kv.2 < cutoffTime)%Z) seen))))).
  - rewrite map_filter_empty, map_difference_empty, map_size_empty. done.
  - intros c h seen [m n] Hfresh [= -> ->].
    destruct (Z.ltb_spec (lastUpdated h) cutoffTime) as [Hold|Hnew].
    + rewrite map_filter_insert_True by done.
      rewrite map_size_insert_None by (by rewrite map_lookup_filter, Hfresh).
      f_equal; [|lia].
      apply map_eq. intros k.
      destruct (decide (k = c)) as [->|Hne].
      * rewrite lookup_delete_eq. symmetry. apply lookup_difference_None.
        right. rewrite lookup_insert_eq. eauto.
      * rewrite lookup_delete_ne by done.
        rewrite !lookup_difference, lookup_insert_ne by done. done.
    + rewrite map_filter_insert_False by (simpl; lia).
      by rewrite delete_id.
Qed.

Lemma cleanupOldHistories_unfold now daysOld svc :
  let cutoffTime := (now - default 30 daysOld * 24 * 60 * 60 * 1000)%Z in
  cleanupOldHistories now daysOld svc
  = ({| chatHistories :=
          filter (λ kv, ¬ (lastUpdated kv.2 < cutoffTime)%Z) (chatHistories svc);
        maxHistoryLength := maxHistoryLength svc |},
     Z.of_nat (size (filter (λ kv, (lastUpdated kv.2 < cutoffTime)%Z)
                            (chatHistories svc)))).
Proof.
  intros cutoffTime. unfold cleanupOldHistories. fold cutoffTime.
  rewrite cleanup_loop. f_equal. f_equal.
  apply map_eq. intros k. apply option_eq. intros h.
  rewrite lookup_difference_Some, !map_lookup_filter_Some, map_lookup_filter_None.
  simpl. split.
  - intros [Hk [Hnone|Hnot]]; [congruence|]. split; [done|]. by apply Hnot.
  - intros [Hk Hnew]. split; [done|]. right. intros h' Hk'. congruence.
Qed.

(** C8: [cleanupOldHistories(daysOld)] at clock [now], with
    [D = daysOld * 24 * 60 * 60 * 1000] milliseconds: a conversation is
    in the store afterwards exactly when it was there before and its
    [lastUpdated] is not below [now - D], and then with its state
    unchanged; the number returned is the number of conversations
    removed.  The limit of the store is untouched. *)
Theorem cleanupOldHistories_removes_exactly_the_old
    (now : Z) (daysOld : option Z) (svc : ChatHistoryService) :
  let D := (default 30 daysOld * 24 * 60 * 60 * 1000)%Z in
  let svc' := (cleanupOldHistories now daysOld svc).1 in
  let removed := (cleanupOldHistories now daysOld svc).2 in
  (∀ c, chatHistories svc' !! c
        = match chatHistories svc !! c with
          | Some h => if decide (lastUpdated h < now - D)%Z then None else Some h
          | None => None
          end)
  ∧ removed = Z.of_nat (size (filter (λ kv, (lastUpdated kv.2 < now - D)%Z)
                                     (chatHistories svc)))
  ∧ removed = (Z.of_nat (size (chatHistories svc))
               - Z.of_nat (size (chatHistories svc')))%Z
  ∧ maxHistoryLength svc' = maxHistoryLength svc.
Proof.
  intros D svc' removed. subst svc' removed.
  rewrite cleanupOldHistories_unfold. fold D. simpl.
  split; [|split; [done|split; [|done]]].
  - intros c. rewrite map_lookup_filter.
    destruct (chatHistories svc !! c) as [h|]; [|done]. simpl.
    destruct (decide (lastUpdated h < now - D)%Z).
    + by rewrite option_guard_False by tauto.
    + by rewrite option_guard_True.
  - pose proof (map_size_disj_union _ _
                  (map_disjoint_filter_complement
                     (λ kv : jsstring * ChatHistory, (lastUpdated kv.2 < now - D)%Z)
                     (chatHistories svc))) as Hs.
    rewrite map_filter_union_complement in Hs. lia.
Qed.

Example cleanupOldHistories_example :
  let svc := addMessage 1000 (str "old") (textMessage "A" "u" "old" 1 "a")
               (addMessage (90000000) (str "new") (textMessage "B" "u" "new" 2 "b")
                  (newChatHistoryService 50)) in
  let r := cleanupOldHistories 90000000 (Some 1%Z) svc in
  r.2 = 1%Z
  ∧ getChatHistory (str "old") r.1 = []
  ∧ getChatHistory (str "new") r.1 = [textMessage "B" "u" "new" 2 "b"].
Proof. vm_compute. repeat split; reflexivity. Qed.

(** ** The context builder *)

(** A loop that pushes [f x] for the elements [x] that pass [p]. *)
Lemma fold_left_push {A B} (p : A → bool) (f : A → B) (l : list A) (acc : list B) :
  fold_left (λ acc0 x, if p x then acc0 ++ [f x] else acc0) l acc
  = acc ++ (f <$> filter (λ x, p x = true) l).
Proof.
  revert acc. induction l as [|x l IH]; intros acc; simpl.
  - by rewrite app_nil_r.
  - rewrite IH. rewrite filter_cons. destruct (p x) eqn:Hp.
    + rewrite decide_True by done. simpl. by rewrite <- app_assoc.
    + rewrite decide_False by congruence. done.
Qed.

Lemma trimStart_nil (s : jsstring) :
  trimStart s = [] ↔ Forall (λ c, isWhiteSpace c = true) s.
Proof.
  induction s as [|c s IH]; simpl.
  - split; [constructor|done].
  - destruct (isWhiteSpace c) eqn:Hc.
    + rewrite IH. split; [by constructor|]. by inversion 1.
    + split; [done|]. inversion 1; congruence.
Qed.

Lemma trimStart_suffix (s : jsstring) : ∃ ws, s = ws ++ trimStart s
  ∧ Forall (λ c, isWhiteSpace c = true) ws.
Proof.
  induction s as [|c s (ws & Hs & Hws)]; simpl.
  - by exists [].
  - destruct (isWhiteSpace c) eqn:Hc.
    + exists (c :: ws). split; [simpl; congruence|by constructor].
    + by exists [].
Qed.

Lemma rev_nil_iff {A} (l : list A) : rev l = [] ↔ l = [].
Proof.
  split; [|by intros ->].
  intros H%(f_equal length). rewrite length_rev in H. by destruct l.
Qed.

Lemma truthy_false (s : jsstring) : truthy s = false ↔ s = [].
Proof. destruct s; simpl; split; congruence. Qed.

(** A content is blank (empty after [trim]) exactly when all of its code
    units are white space. *)
Lemma trim_blank (s : jsstring) :
  truthy (trim s) = false ↔ Forall (λ c, isWhiteSpace c = true) s.
Proof.
  unfold trim. rewrite truthy_false, rev_nil_iff, trimStart_nil.
  destruct (trimStart_suffix s) as (ws & Hs & Hws).
  rewrite Hs at 2. rewrite Forall_app.
  split.
  - intros H%Forall_rev. rewrite rev_involutive in H. done.
  - intros [_ H]. by apply Forall_rev.
Qed.

(** X3 (the part of claim C3 on selection, blanks and order):
    [buildConversationContext] takes the last ten messages, drops those
    whose content is empty after [trim], keeps the order, and pairs each
    content with the role of line 144 ([assistant] exactly when [from]
    contains "@s.whatsapp.net"). *)
Theorem buildConversationContext_window (chatHistory : list WhatsAppMessage) :
  buildConversationContext chatHistory
  = (λ msg, (role_of msg, content msg))
    <$> filter (λ msg, truthy (trim (content msg)) = true)
               (most_recent 10 chatHistory).
Proof.
  unfold buildConversationContext.
  change (slice chatHistory (-10) None) with (slice chatHistory (- (10)) None).
  rewrite (slice_last_most_recent chatHistory 10) by lia.
  change (Z.to_nat 10) with 10.
  exact (fold_left_push (λ msg, truthy (trim (content msg)))
           (λ msg, (role_of msg, content msg)) (most_recent 10 chatHistory) []).
Qed.

(** The turns of a history, as a helper of the proofs below. *)
Lemma buildConversationContext_turns (chatHistory : list WhatsAppMessage) :
  buildConversationContext chatHistory
  = (λ msg, (role_of msg, content msg))
    <$> filter (λ msg, truthy (trim (content msg)) = true)
               (most_recent 10 chatHistory).
Proof.
  unfold buildConversationContext.
  change (slice chatHistory (-10) None) with (slice chatHistory (- (10)) None).
  rewrite (slice_last_most_recent chatHistory 10) by lia.
  change (Z.to_nat 10) with 10.
  exact (fold_left_push (λ msg, truthy (trim (content msg)))
           (λ msg, (role_of msg, content msg)) (most_recent 10 chatHistory) []).
Qed.

Lemma buildConversationContext_length (chatHistory : list WhatsAppMessage) :
  length (buildConversationContext chatHistory) ≤ 10.
Proof.
  rewrite buildConversationContext_turns, length_fmap.
  etrans; [apply length_filter|]. rewrite most_recent_length. lia.
Qed.

(** The scenario of claim C3: twelve messages, the fifth with an empty
    body; nine turns come out, oldest first. *)
Example buildConversationContext_twelve :
  let m (i : Z) (body : string) :=
    textMessage "id" "491700000000@c.us" "chat" i body in
  buildConversationContext
    [m 1%Z "one"; m 2%Z "two"; m 3%Z "three"; m 4%Z "four"; m 5%Z ""; m 6%Z "six";
     m 7%Z "seven"; m 8%Z "eight"; m 9%Z "nine"; m 10%Z "ten"; m 11%Z "eleven";
     m 12%Z "twelve"]
  = [(user, str "three"); (user, str "four"); (user, str "six");
     (user, str "seven"); (user, str "eight"); (user, str "nine");
     (user, str "ten"); (user, str "eleven"); (user, str "twelve")].
Proof. vm_compute. reflexivity. Qed.

(** ** Topics *)

Lemma extractContext_unfold toLowerCase (chatHistory : list WhatsAppMessage) :
  extractContext toLowerCase chatHistory
  = take 5 (filter (λ word, isTopic word = true)
              (mjoin (words_of toLowerCase <$> most_recent 5 chatHistory))).
Proof.
  unfold extractContext.
  change (slice chatHistory (-5) None) with (slice chatHistory (- (5)) None).
  rewrite (slice_last_most_recent chatHistory 5) by lia.
  change (Z.to_nat 5) with 5.
  rewrite slice_first by lia. change (Z.to_nat 5) with 5. f_equal.
  generalize (most_recent 5 chatHistory). intros recent.
  change (fold_left _ recent [])
    with (fold_left
            (λ topics0 msg,
               fold_left (λ topics1 word,
                            if isTopic word then topics1 ++ [word] else topics1)
                         (words_of toLowerCase msg) topics0)
            recent []).
  enough (∀ acc,
    fold_left
      (λ topics0 msg,
         fold_left (λ topics1 word,
                      if isTopic word then topics1 ++ [word] else topics1)
                   (words_of toLowerCase msg) topics0)
      recent acc
    = acc ++ filter (λ word, isTopic word = true)
               (mjoin (words_of toLowerCase <$> recent))) as H by apply (H []).
  induction recent as [|msg recent IH]; intros acc; simpl.
  - by rewrite app_nil_r.
  - rewrite IH. rewrite (fold_left_push isTopic Datatypes.id), list_fmap_id.
    rewrite filter_app. by rewrite <- app_assoc.
Qed.

(** C7: whatever the messages (and whatever the lower-casing of the
    runtime), [extractContext] returns at most five topics, every topic
    is longer than three code units, and no topic is one of
    [commonWords]. *)
Theorem extractContext_topics (toLowerCase : jsstring → jsstring)
    (chatHistory : list WhatsAppMessage) :
  length (extractContext toLowerCase chatHistory) ≤ 5
  ∧ Forall (λ topic, 3 < length topic ∧ isCommonWord topic = false
                     ∧ topic ∉ commonWords)
           (extractContext toLowerCase chatHistory).
Proof.
  rewrite extractContext_unfold. split.
  - rewrite length_take. lia.
  - apply Forall_take. apply Forall_forall. intros word Hin.
    apply list_elem_of_filter in Hin as [Htopic _].
    unfold isTopic in Htopic. apply andb_true_iff in Htopic as [Hlen Hcommon].
    apply Nat.ltb_lt in Hlen. apply negb_true_iff in Hcommon.
    split; [done|]. split; [done|].
    unfold isCommonWord in Hcommon. by apply bool_decide_eq_false in Hcommon.
Qed.

Example extractContext_example :
  extractContext toLowerCase_ascii
    [textMessage "1" "u" "chat" 1 "Please Book THE flight with luggage";
     textMessage "2" "u" "chat" 2 "from Berlin towards Lisbon before Friday evening"]
  = [str "please"; str "book"; str "flight"; str "luggage"; str "berlin"].
Proof. vm_compute. reflexivity. Qed.

(** ** The orchestrator: single-flight processing *)

Lemma handleIncomingMessage_busy env msg s :
  isProcessing s = true → handleIncomingMessage env msg s = call warnSkipping s.
Proof. intros H. unfold handleIncomingMessage. by rewrite H. Qed.

Lemma catch_finally_exit env error s :
  isProcessing (catch_finally env error s) = false
  ∧ suspended (catch_finally env error s) = suspended s
  ∧ chatHistoryService (catch_finally env error s) = chatHistoryService s.
Proof.
  unfold catch_finally, broadcast.
  by destruct (throws env _).
Qed.

Lemma processingFailed_exit env error s :
  isProcessing (processingFailed env error s) = false
  ∧ suspended (processingFailed env error s) = suspended s
  ∧ chatHistoryService (processingFailed env error s) = chatHistoryService s.
Proof.
  unfold processingFailed, broadcast.
  destruct (throws env _); [apply catch_finally_exit|done].
Qed.

Lemma handleIncomingMessage_idle env msg s :
  isProcessing s = false →
  (suspended (handleIncomingMessage env msg s)
     = suspended s ++ [awaitGenerateResponse msg]
   ∧ isProcessing (handleIncomingMessage env msg s) = true)
  ∨ (suspended (handleIncomingMessage env msg s) = suspended s
     ∧ isProcessing (handleIncomingMessage env msg s) = false).
Proof.
  intros H. unfold handleIncomingMessage, broadcast. rewrite H.
  destruct (throws env _).
  - right. by destruct (catch_finally_exit env l (set_isProcessing true s)) as (-> & -> & _).
  - by left.
Qed.

Lemma afterGenerateResponse_exit env msg outcome s :
  (∃ response,
     suspended (afterGenerateResponse env msg outcome s)
       = suspended s ++ [awaitDelay msg response]
     ∧ isProcessing (afterGenerateResponse env msg outcome s) = isProcessing s)
  ∨ (suspended (afterGenerateResponse env msg outcome s) = suspended s
     ∧ isProcessing (afterGenerateResponse env msg outcome s) = false).
Proof.
  unfold afterGenerateResponse, broadcast.
  destruct outcome as [aiResponse|error].
  - destruct (throws env (sendAIResponseGenerated aiResponse)).
    + right. by destruct (processingFailed_exit env (Some l) s) as (-> & -> & _).
    + destruct (truthy (message aiResponse)).
      * left. by exists (message aiResponse).
      * right. by destruct (processingFailed_exit env None
                              (call (sendAIResponseGenerated aiResponse) s))
                 as (-> & -> & _).
  - right. by destruct (processingFailed_exit env (Some error) s) as (-> & -> & _).
Qed.

Lemma afterDelay_suspends msg response s :
  suspended (afterDelay msg response s)
    = suspended s ++ [awaitSendMessage msg response]
  ∧ isProcessing (afterDelay msg response s) = isProcessing s.
Proof. done. Qed.

Lemma afterSendMessage_exit env msg response outcome s :
  suspended (afterSendMessage env msg response outcome s) = suspended s
  ∧ isProcessing (afterSendMessage env msg response outcome s) = false.
Proof.
  unfold afterSendMessage, broadcast.
  destruct outcome as [[|]|error].
  - destruct (throws env _); [|done].
    by destruct (catch_finally_exit env l
                   (on_history (addMessage (now env) (to msg)
                                  (botMessage env msg response)) s))
      as (-> & -> & _).
  - done.
  - by destruct (catch_finally_exit env error s) as (-> & -> & _).
Qed.

Lemma resume_flight i s k :
  suspended s !! i = Some k →
  in_flight (resume i s) = in_flight s - 1
  ∧ isProcessing (resume i s) = isProcessing s.
Proof.
  intros Hi. unfold in_flight, resume. simpl. split; [|done].
  rewrite length_delete; [done|]. eauto.
Qed.

Lemma step_preserves env ev s s' :
  step env ev s = Some s' → flag_counts_flight s → flag_counts_flight s'.
Proof.
  unfold flag_counts_flight. intros Hstep Hinv. destruct ev as [msg|i outcome|i|i outcome]; simpl in Hstep.
  - injection Hstep as <-. destruct (isProcessing s) eqn:Hbusy.
    + rewrite handleIncomingMessage_busy by done.
      unfold in_flight in *. simpl. by rewrite Hbusy.
    + destruct (handleIncomingMessage_idle env msg s Hbusy) as [[Hs ->]|[Hs ->]];
        unfold in_flight in *; rewrite Hs; [rewrite length_app; simpl; lia|done].
  - destruct (suspended s !! i) as [[msg| |]|] eqn:Hi; try done.
    injection Hstep as <-.
    destruct (resume_flight i s _ Hi) as [Hn Hb].
    assert (isProcessing s = true) as Hbusy.
    { destruct (isProcessing s); [done|]. apply lookup_lt_Some in Hi.
      unfold in_flight in Hinv. lia. }
    rewrite Hbusy in *.
    destruct (afterGenerateResponse_exit env msg outcome (resume i s))
      as [(r & Hs & ->)|[Hs ->]]; unfold in_flight in *; rewrite Hs.
    + rewrite Hb, length_app. simpl in *. lia.
    + simpl in *. lia.
  - destruct (suspended s !! i) as [[|msg response|]|] eqn:Hi; try done.
    injection Hstep as <-.
    destruct (resume_flight i s _ Hi) as [Hn Hb].
    assert (isProcessing s = true) as Hbusy.
    { destruct (isProcessing s); [done|]. apply lookup_lt_Some in Hi.
      unfold in_flight in Hinv. lia. }
    rewrite Hbusy in *.
    destruct (afterDelay_suspends msg response (resume i s)) as [Hs ->].
    unfold in_flight in *. rewrite Hs, Hb, length_app. simpl in *. lia.
  - destruct (suspended s !! i) as [[| |msg response]|] eqn:Hi; try done.
    injection Hstep as <-.
    destruct (resume_flight i s _ Hi) as [Hn Hb].
    assert (isProcessing s = true) as Hbusy.
    { destruct (isProcessing s); [done|]. apply lookup_lt_Some in Hi.
      unfold in_flight in Hinv. lia. }
    rewrite Hbusy in *.
    destruct (afterSendMessage_exit env msg response outcome (resume i s)) as [Hs ->].
    unfold in_flight in *. rewrite Hs. simpl in *. lia.
Qed.

Lemma run_preserves evs s s' :
  run evs s = Some s' → flag_counts_flight s → flag_counts_flight s'.
Proof.
  revert s. induction evs as [|[env ev] evs IH]; intros s; simpl.
  - by intros [= ->].
  - destruct (step env ev s) as [s1|] eqn:Hstep; [|done].
    intros Hrun Hinv. eapply IH; [done|]. by eapply step_preserves.
Qed.

(** C1: single-flight processing.
    (a) A message delivered while [isProcessing] is set is dropped at
        once: the history store, the suspended invocations and the flag
        are as before, and the only call made is the warning of the log
        (so no append, no context, no generation, no send).
    (b) In every state the service reaches from its construction, at
        most one invocation of the handler is in flight, and the flag is
        set exactly when one is.
    (c) Every way out of an accepted invocation clears the flag: the
        first segment either suspends on the generation or leaves with
        the flag cleared (an exception of the event channel); the
        segment after the generation either suspends on the delay or
        leaves with the flag cleared (generation failed, empty reply,
        exception); the segment after the delay suspends on the send;
        the segment after the send always leaves with the flag cleared
        (sent, not sent, exception). *)
Theorem single_flight_processing :
  (∀ env msg s,
     isProcessing s = true →
     chatHistoryService (handleIncomingMessage env msg s) = chatHistoryService s
     ∧ suspended (handleIncomingMessage env msg s) = suspended s
     ∧ isProcessing (handleIncomingMessage env msg s) = true
     ∧ calls (handleIncomingMessage env msg s) = calls s ++ [warnSkipping])
  ∧ (∀ history responseDelay0 evs s,
       run evs (newChatbotService history responseDelay0) = Some s →
       in_flight s ≤ 1 ∧ (isProcessing s = true ↔ in_flight s = 1))
  ∧ (∀ env msg s,
       isProcessing s = false →
       (suspended (handleIncomingMessage env msg s)
          = suspended s ++ [awaitGenerateResponse msg]
        ∧ isProcessing (handleIncomingMessage env msg s) = true)
       ∨ (suspended (handleIncomingMessage env msg s) = suspended s
          ∧ isProcessing (handleIncomingMessage env msg s) = false))
  ∧ (∀ env msg outcome s,
       (∃ response,
          suspended (afterGenerateResponse env msg outcome s)
            = suspended s ++ [awaitDelay msg response]
          ∧ isProcessing (afterGenerateResponse env msg outcome s)
            = isProcessing s)
       ∨ (suspended (afterGenerateResponse env msg outcome s) = suspended s
          ∧ isProcessing (afterGenerateResponse env msg outcome s) = false))
  ∧ (∀ msg response s,
       suspended (afterDelay msg response s)
         = suspended s ++ [awaitSendMessage msg response]
       ∧ isProcessing (afterDelay msg response s) = isProcessing s)
  ∧ (∀ env msg response outcome s,
       suspended (afterSendMessage env msg response outcome s) = suspended s
       ∧ isProcessing (afterSendMessage env msg response outcome s) = false).
Proof.
  split; [|split; [|split; [|split; [|split]]]].
  - intros env msg s Hbusy. by rewrite handleIncomingMessage_busy.
  - intros history responseDelay0 evs s Hrun.
    assert (flag_counts_flight s) as Hinv.
    { eapply run_preserves; [done|]. by unfold flag_counts_flight. }
    unfold flag_counts_flight in Hinv. destruct (isProcessing s).
    + split; [lia|done].
    + split; [lia|]. split; [done|lia].
  - apply handleIncomingMessage_idle.
  - apply afterGenerateResponse_exit.
  - apply afterDelay_suspends.
  - apply afterSendMessage_exit.
Qed.

(** Two messages back to back: one generation call, and the warning for
    the second. *)
Example second_message_is_dropped :
  let m1 := textMessage "M1" "491700000001@c.us" "chat" 1 "first" in
  let m2 := textMessage "M2" "491700000001@c.us" "chat" 2 "second" in
  ∃ s, run [(calm 10, inbound m1); (calm 11, inbound m2)]
           (newChatbotService (newChatHistoryService 50) 1000) = Some s
  ∧ calls s = [sendMessageReceived m1; generateResponse (str "first") [m1];
               warnSkipping]
  ∧ getChatHistory (str "chat") (chatHistoryService s) = [m1]
  ∧ suspended s = [awaitGenerateResponse m1]
  ∧ isProcessing s = true.
Proof. eexists. vm_compute. repeat split; reflexivity. Qed.

(** The four ways out: reply sent, generation failed, send failed,
    exception. *)
Example exit_after_reply :
  let m := textMessage "M1" "491700000001@c.us" "chat" 1 "hello" in
  let r := {| message := str "hi"; confidence := 9 # 10; context := [];
              producedAt := 12 |} in
  ∃ s, run [(calm 10, inbound m); (calm 12, generated 0 (inl r));
            (calm 1012, delayed 0); (calm 1013, sent 0 (inl true))]
           (newChatbotService (newChatHistoryService 50) 1000) = Some s
  ∧ isProcessing s = false ∧ suspended s = []
  ∧ getChatHistory (str "chat") (chatHistoryService s)
    = [m; botMessage (calm 1013) m (str "hi")]
  ∧ calls s = [sendMessageReceived m; generateResponse (str "hello") [m];
               sendAIResponseGenerated r; delay 1000;
               sendMessage (str "491700000001@c.us") (str "hi");
               sendMessageSent (botMessage (calm 1013) m (str "hi"))].
Proof. eexists. vm_compute. repeat split; reflexivity. Qed.

Example exit_after_generation_failure :
  let m := textMessage "M1" "491700000001@c.us" "chat" 1 "hello" in
  ∃ s, run [(calm 10, inbound m); (calm 12, generated 0 (inr (str "quota")))]
           (newChatbotService (newChatHistoryService 50) 1000) = Some s
  ∧ isProcessing s = false ∧ suspended s = []
  ∧ calls s = [sendMessageReceived m; generateResponse (str "hello") [m];
               sendError (str "Failed to process message") (Some (str "quota"))].
Proof. eexists. vm_compute. repeat split; reflexivity. Qed.

Example exit_after_send_failure :
  let m := textMessage "M1" "491700000001@c.us" "chat" 1 "hello" in
  let r := {| message := str "hi"; confidence := 9 # 10; context := [];
              producedAt := 12 |} in
  ∃ s, run [(calm 10, inbound m); (calm 12, generated 0 (inl r));
            (calm 1012, delayed 0); (calm 1013, sent 0 (inl false))]
           (newChatbotService (newChatHistoryService 50) 1000) = Some s
  ∧ isProcessing s = false ∧ suspended s = []
  ∧ getChatHistory (str "chat") (chatHistoryService s) = [m].
Proof. eexists. vm_compute. repeat split; reflexivity. Qed.

Example exit_after_exception :
  let m := textMessage "M1" "491700000001@c.us" "chat" 1 "hello" in
  ∃ s, run [(stormy 10, inbound m)]
           (newChatbotService (newChatHistoryService 50) 1000) = Some s
  ∧ isProcessing s = false ∧ suspended s = [] ∧ calls s = []
  ∧ getChatHistory (str "chat") (chatHistoryService s) = [].
Proof. eexists. vm_compute. repeat split; reflexivity. Qed.

(** C3, the role: a message of a group and the reply to it, as the
    orchestrator stores them.  The participant's message is tagged
    [assistant], and the bot's own reply (built by [botMessage], its
    [from] the conversation the bot answers in) is tagged [user]. *)
Theorem buildConversationContext_tags_reply_as_user :
  let m := groupMessage "M1" "5511999990000@s.whatsapp.net"
             "120363000000000000@g.us" 1 "Ana" "hello bot" in
  let r := {| message := str "hello Ana"; confidence := 9 # 10; context := [];
              producedAt := 12 |} in
  ∃ s, run [(calm 10, inbound m); (calm 12, generated 0 (inl r));
            (calm 1012, delayed 0); (calm 1013, sent 0 (inl true))]
           (newChatbotService (newChatHistoryService 50) 1000) = Some s
  ∧ getChatHistory (to m) (chatHistoryService s)
    = [m; botMessage (calm 1013) m (str "hello Ana")]
  ∧ buildConversationContext (getChatHistory (to m) (chatHistoryService s))
    = [(assistant, str "hello bot"); (user, str "hello Ana")].
Proof. eexists. vm_compute. repeat split; reflexivity. Qed.

(** The role of a reply only depends on the conversation it answers in. *)
Lemma role_of_botMessage env msg response :
  role_of (botMessage env msg response)
  = if includes (to msg) (str "@s.whatsapp.net") then assistant else user.
Proof. reflexivity. Qed.

(** In a private conversation the message of the user and the reply of
    the bot carry the same [from]; both are tagged [assistant]. *)
Example buildConversationContext_private_chat :
  let m := textMessage "M1" "4915112345678@s.whatsapp.net"
             "4915112345678@s.whatsapp.net" 1 "hello bot" in
  buildConversationContext [m; botMessage (calm 1013) m (str "hello")]
  = [(assistant, str "hello bot"); (assistant, str "hello")].
Proof. vm_compute. reflexivity. Qed.

(** ** JSON: strings *)

Ltac cases_N :=
  repeat match goal with
  | |- context [(?a =? ?b)%N] => destruct (N.eqb_spec a b)
  | |- context [(?a <? ?b)%N] => destruct (N.ltb_spec a b)
  | |- context [(?a <=? ?b)%N] => destruct (N.leb_spec a b)
  end; simpl; try lia; try done.

Lemma hex_value_hex_digit (n : N) :
  (n < 16)%N → hex_value (hex_digit n) = Some n.
Proof.
  intros Hn. unfold hex_value, hex_digit, is_digit.
  destruct (N.ltb_spec n 10).
  - cases_N. f_equal. lia.
  - cases_N. f_equal. lia.
Qed.

Lemma hex_digits_value (c : N) :
  (c < 65536)%N →
  ((((c / 4096 mod 16) * 16 + c / 256 mod 16) * 16 + c / 16 mod 16) * 16
   + c mod 16 = c)%N.
Proof.
  intros Hc. zify. Z.to_euclidean_division_equations. lia.
Qed.

Lemma parse_chars_plain (c : N) (more : jsstring) :
  c ≠ 34%N → c ≠ 92%N → (32 <= c)%N →
  parse_chars (c :: more)
  = match parse_chars more with
    | Some (chars, after) => Some (c :: chars, after)
    | None => None
    end.
Proof. intros. simpl. cases_N. Qed.

Lemma parse_chars_escape_u (h3 h2 h1 h0 : N) (more : jsstring) :
  parse_chars (92 :: 117 :: h3 :: h2 :: h1 :: h0 :: more)%N
  = match hex_value h3, hex_value h2, hex_value h1, hex_value h0,
          parse_chars more with
    | Some x3, Some x2, Some x1, Some x0, Some (chars, after) =>
        Some ((((x3 * 16 + x2) * 16 + x1) * 16 + x0)%N :: chars, after)
    | _, _, _, _, _ => None
    end.
Proof. reflexivity. Qed.

Lemma parse_chars_unicode_escape (c : N) (more : jsstring) :
  (c < 65536)%N →
  parse_chars (unicode_escape c ++ more)
  = match parse_chars more with
    | Some (chars, after) => Some (c :: chars, after)
    | None => None
    end.
Proof.
  intros Hc. unfold unicode_escape. simpl app.
  rewrite parse_chars_escape_u.
  rewrite !hex_value_hex_digit by (apply N.mod_lt; lia).
  rewrite hex_digits_value by done. done.
Qed.

Lemma parse_chars_quote_unit (c : N) (more : jsstring) :
  is_leading_surrogate c = false → is_trailing_surrogate c = false →
  parse_chars (quote_unit c ++ more)
  = match parse_chars more with
    | Some (chars, after) => Some (c :: chars, after)
    | None => None
    end.
Proof.
  intros _ _. unfold quote_unit.
  destruct (N.eqb_spec c 8) as [->|]; [done|].
  destruct (N.eqb_spec c 9) as [->|]; [done|].
  destruct (N.eqb_spec c 10) as [->|]; [done|].
  destruct (N.eqb_spec c 12) as [->|]; [done|].
  destruct (N.eqb_spec c 13) as [->|]; [done|].
  destruct (N.eqb_spec c 34) as [->|]; [done|].
  destruct (N.eqb_spec c 92) as [->|]; [done|].
  destruct (N.ltb_spec c 32).
  - apply parse_chars_unicode_escape. lia.
  - by apply parse_chars_plain.
Qed.

Lemma quote_units_cons (c : N) (s : jsstring) :
  quote_units (c :: s)
  = if is_leading_surrogate c then
      match s with
      | d :: rest' =>
          if is_trailing_surrogate d then c :: d :: quote_units rest'
          else unicode_escape c ++ quote_units s
      | [] => unicode_escape c
      end
    else if is_trailing_surrogate c then unicode_escape c ++ quote_units s
    else quote_unit c ++ quote_units s.
Proof. by destruct s. Qed.

(** Reading back what [QuoteJSONString] wrote. *)
Lemma parse_chars_quote_units (s rest : jsstring) :
  parse_chars (quote_units s ++ 34%N :: rest) = Some (s, rest).
Proof.
  remember (length s) as n eqn:Hn.
  revert s Hn. induction (lt_wf n) as [n _ IH]. intros s ->.
  destruct s as [|c s]; [done|]. rewrite quote_units_cons.
  destruct (is_leading_surrogate c) eqn:Hlead.
  - assert (c ≠ 34%N ∧ c ≠ 92%N ∧ (32 <= c)%N ∧ (c < 65536)%N) as (? & ? & ? & ?).
    { unfold is_leading_surrogate in Hlead.
      apply andb_true_iff in Hlead as [?%N.leb_le ?%N.leb_le]. lia. }
    destruct s as [|d s].
    + rewrite parse_chars_unicode_escape by done. done.
    + destruct (is_trailing_surrogate d) eqn:Htrail.
      * assert (d ≠ 34%N ∧ d ≠ 92%N ∧ (32 <= d)%N) as (? & ? & ?).
        { unfold is_trailing_surrogate in Htrail.
          apply andb_true_iff in Htrail as [?%N.leb_le ?%N.leb_le]. lia. }
        rewrite <- !app_comm_cons.
        rewrite parse_chars_plain, parse_chars_plain by done.
        by rewrite (IH (length s)) by (simpl; lia || done).
      * rewrite <- app_assoc, parse_chars_unicode_escape by done.
        by rewrite (IH (length (d :: s))) by (simpl; lia || done).
  - destruct (is_trailing_surrogate c) eqn:Htrail.
    + assert (c < 65536)%N.
      { unfold is_trailing_surrogate in Htrail.
        apply andb_true_iff in Htrail as [?%N.leb_le ?%N.leb_le]. lia. }
      rewrite <- app_assoc, parse_chars_unicode_escape by done.
      by rewrite (IH (length s)) by (simpl; lia || done).
    + rewrite <- app_assoc, parse_chars_quote_unit by done.
      by rewrite (IH (length s)) by (simpl; lia || done).
Qed.

(** ** JSON: numbers *)

Lemma read_digits_stop (rest : jsstring) (acc : N) (count : nat) :
  delimited rest → read_digits rest acc count = (acc, count, rest).
Proof. destruct rest as [|c rest]; [done|]. simpl. by intros [-> _]. Qed.

Lemma read_digits_digit (c : N) (rest : jsstring) (acc : N) (count : nat) :
  is_digit c = true →
  read_digits (c :: rest) acc count
  = read_digits rest (10 * acc + (c - 48))%N (S count).
Proof. intros H. simpl. by rewrite H. Qed.

Lemma read_digits_uint_acc (d : Decimal.uint) (rest : jsstring) :
  delimited rest →
  ∀ (p : positive) (count : nat),
    ∃ count', read_digits (uint_chars d ++ rest) (Npos p) count
              = (Npos (Pos.of_uint_acc d p), count', rest).
Proof.
  intros Hrest.
  induction d as [|d IH|d IH|d IH|d IH|d IH|d IH|d IH|d IH|d IH|d IH];
    intros p count;
    [exists count; by apply read_digits_stop|..];
    cbn [uint_chars app Pos.of_uint_acc];
    rewrite read_digits_digit by done;
    match goal with
    | |- context [Pos.of_uint_acc d ?q] =>
        destruct (IH q (S count)) as [k Hk]; exists k; rewrite <- Hk;
        f_equal; lia
    end.
Qed.

Lemma read_digits_uint (d : Decimal.uint) (rest : jsstring) :
  delimited rest →
  ∀ count, ∃ count', read_digits (uint_chars d ++ rest) 0 count
                     = (Pos.of_uint d, count', rest).
Proof.
  intros Hrest.
  induction d as [|d IH|d IH|d IH|d IH|d IH|d IH|d IH|d IH|d IH|d IH];
    intros count;
    [exists count; by apply read_digits_stop|..];
    cbn [uint_chars app Pos.of_uint];
    rewrite read_digits_digit by done.
  - apply IH.
  - destruct (read_digits_uint_acc d rest Hrest 1 (S count)) as [k Hk]. by exists k.
  - destruct (read_digits_uint_acc d rest Hrest 2 (S count)) as [k Hk]. by exists k.
  - destruct (read_digits_uint_acc d rest Hrest 3 (S count)) as [k Hk]. by exists k.
  - destruct (read_digits_uint_acc d rest Hrest 4 (S count)) as [k Hk]. by exists k.
  - destruct (read_digits_uint_acc d rest Hrest 5 (S count)) as [k Hk]. by exists k.
  - destruct (read_digits_uint_acc d rest Hrest 6 (S count)) as [k Hk]. by exists k.
  - destruct (read_digits_uint_acc d rest Hrest 7 (S count)) as [k Hk]. by exists k.
  - destruct (read_digits_uint_acc d rest Hrest 8 (S count)) as [k Hk]. by exists k.
  - destruct (read_digits_uint_acc d rest Hrest 9 (S count)) as [k Hk]. by exists k.
Qed.

(** The digits of a positive number do not start with a zero. *)
Lemma nzhead_no_zero (d d' : Decimal.uint) :
  Decimal.nzhead d ≠ Decimal.D0 d'.
Proof. induction d; simpl; congruence. Qed.

Lemma to_uint_first_digit (p : positive) :
  ∃ c chars, uint_chars (Pos.to_uint p) = c :: chars
             ∧ is_digit c = true ∧ c ≠ 48%N.
Proof.
  pose proof (DecimalPos.Unsigned.to_of (Pos.to_uint p)) as Hnorm.
  rewrite DecimalPos.Unsigned.of_to in Hnorm. simpl in Hnorm.
  pose proof (DecimalPos.Unsigned.to_uint_nonnil p) as Hnil.
  unfold Decimal.unorm in Hnorm.
  destruct (Decimal.nzhead (Pos.to_uint p)) eqn:Hhead.
  - by destruct (DecimalPos.Unsigned.to_uint_nonzero p).
  - by destruct (nzhead_no_zero (Pos.to_uint p) u).
  - rewrite Hnorm. eauto.
  - rewrite Hnorm. eauto.
  - rewrite Hnorm. eauto.
  - rewrite Hnorm. eauto.
  - rewrite Hnorm. eauto.
  - rewrite Hnorm. eauto.
  - rewrite Hnorm. eauto.
  - rewrite Hnorm. eauto.
  - rewrite Hnorm. eauto.
Qed.

(** Reading back the digits [Number_toString] wrote. *)
Lemma parse_number_toString (z : Z) (rest : jsstring) :
  delimited rest →
  parse_number (Number_toString z ++ rest) = Some (integer z, rest).
Proof.
  intros Hrest.
  assert (Hfrac : ∀ v, parse_fraction v rest = Some (v, 0, rest)).
  { intros v. destruct rest as [|c rest']; [done|]. simpl.
    destruct Hrest as (_ & ? & _). by destruct (N.eqb_spec c 46). }
  assert (Hexp : parse_exponent rest = Some (0%Z, rest)).
  { destruct rest as [|c rest']; [done|]. simpl.
    destruct Hrest as (_ & _ & ? & ?).
    destruct (N.eqb_spec c 101); [done|].
    destruct (N.eqb_spec c 69); [done|]. done. }
  assert (Hint : ∀ p, parse_int_part (uint_chars (Pos.to_uint p) ++ rest)
                      = Some (Npos p, rest)).
  { intros p. destruct (to_uint_first_digit p) as (c & chars & Hc & Hdigit & Hnz).
    destruct (read_digits_uint (Pos.to_uint p) rest Hrest 0) as [k Hk].
    rewrite DecimalPos.Unsigned.of_to in Hk.
    unfold parse_int_part. rewrite Hc in *. simpl app in *.
    cbn [parse_int_part]. rewrite (proj2 (N.eqb_neq c 48)) by done.
    rewrite Hdigit. by rewrite Hk. }
  unfold Number_toString, parse_number. destruct z as [|p|p]; simpl Z.to_int.
  - simpl. rewrite Hfrac. simpl. rewrite Hexp. done.
  - destruct (to_uint_first_digit p) as (c & chars & Hc & Hdigit & Hnz).
    assert (c ≠ 45%N).
    { unfold is_digit in Hdigit.
      apply andb_true_iff in Hdigit as [?%N.leb_le ?%N.leb_le]. lia. }
    pose proof (Hint p) as Hp. rewrite Hc in *. simpl app in *.
    cbv beta iota. rewrite (proj2 (N.eqb_neq c 45)) by done.
    rewrite Hp. simpl. rewrite Hfrac. simpl. rewrite Hexp. done.
  - simpl app. simpl. rewrite Hint. simpl. rewrite Hfrac. simpl. rewrite Hexp. done.
Qed.

(** ** JSON: values *)

(** Induction on a JSON value, with the hypothesis for every item of an
    array and every member of an object. *)
Lemma json_induction {num : Type} (P : json num → Prop) :
  P JNull →
  (∀ b, P (JBool b)) →
  (∀ n, P (JNum n)) →
  (∀ s, P (JStr s)) →
  (∀ items, Forall P items → P (JArr items)) →
  (∀ members, Forall (λ kv, P kv.2) members → P (JObj members)) →
  ∀ v, P v.
Proof.
  intros Hnull Hbool Hnum Hstr Harr Hobj.
  fix IH 1. intros [|b|n|s|items|members].
  - exact Hnull.
  - apply Hbool.
  - apply Hnum.
  - apply Hstr.
  - apply Harr.
    exact ((fix all (l : list (json num)) : Forall P l :=
              match l with
              | [] => List.Forall_nil P
              | v :: l' => @List.Forall_cons _ P v l' (IH v) (all l')
              end) items).
  - apply Hobj.
    exact ((fix all (l : list (jsstring * json num))
              : Forall (λ kv, P kv.2) l :=
              match l with
              | [] => List.Forall_nil _
              | kv :: l' => @List.Forall_cons _ _ kv l' (IH kv.2) (all l')
              end) members).
Qed.

Lemma skip_ws_app (ws s : jsstring) :
  Forall (λ c, is_ws c = true) ws → skip_ws (ws ++ s) = skip_ws s.
Proof. induction 1 as [|c ws Hc _ IH]; [done|]. simpl. by rewrite Hc. Qed.

Lemma skip_ws_value (s : jsstring) : starts_value s → skip_ws s = s.
Proof. destruct s as [|c s]; [done|]. simpl. by intros [-> _]. Qed.

Lemma skip_ws_indent (ws s : jsstring) :
  Forall (λ c, is_ws c = true) ws → starts_value s → skip_ws (ws ++ s) = s.
Proof. intros. by rewrite skip_ws_app, skip_ws_value. Qed.

Lemma Number_toString_first (z : Z) :
  ∃ c chars, Number_toString z = c :: chars ∧ (is_digit c = true ∨ c = 45%N).
Proof.
  unfold Number_toString. destruct z as [|p|p]; simpl Z.to_int.
  - exists 48%N, []. auto.
  - destruct (to_uint_first_digit p) as (c & chars & -> & ? & _). eauto.
  - eauto.
Qed.

Lemma is_digit_bounds (c : N) : is_digit c = true → (48 <= c <= 57)%N.
Proof.
  unfold is_digit. intros [?%N.leb_le ?%N.leb_le]%andb_true_iff. lia.
Qed.

Lemma join_cons (sep x y : jsstring) (xs : list jsstring) :
  join sep (x :: y :: xs) = x ++ sep ++ join sep (y :: xs).
Proof. done. Qed.

(** What is printed for a value starts a value. *)
Lemma print_starts_value (indent : jsstring) (v : json Z) (more : jsstring) :
  starts_value (SerializeJSONProperty indent v ++ more).
Proof.
  destruct v as [|[|]|z|s|[|item items]|[|member members]]; try (by vm_compute).
  - destruct (Number_toString_first z) as (c & chars & Hz & [Hc%is_digit_bounds| ->]);
      simpl; rewrite Hz; simpl; [|by vm_compute].
    unfold is_ws. split; [|lia]. cases_N.
Qed.

(** A number is parsed by [parse_number]. *)
Lemma parse_value_number (fuel : nat) (c : N) (s : jsstring) :
  is_digit c = true ∨ c = 45%N →
  parse_value (S fuel) (c :: s)
  = match parse_number (c :: s) with
    | Some (d, after) => ok (JNum d) after
    | None => syntax_error
    end.
Proof.
  intros Hc.
  assert (c ≠ 123 ∧ c ≠ 91 ∧ c ≠ 34 ∧ c ≠ 116 ∧ c ≠ 102 ∧ c ≠ 110)%N
    as (? & ? & ? & ? & ? & ?).
  { destruct Hc as [Hc%is_digit_bounds| ->]; lia. }
  cbn [parse_value].
  by rewrite !(proj2 (N.eqb_neq c _)) by done.
Qed.

Lemma parse_value_array (fuel : nat) (ws s : jsstring) :
  Forall (λ c, is_ws c = true) ws → starts_value s →
  parse_value (S fuel) (91%N :: ws ++ s)
  = match parse_elements fuel s with
    | ok items after => ok (JArr items) after
    | syntax_error => syntax_error
    | out_of_fuel => out_of_fuel
    end.
Proof.
  intros Hws Hs. cbn [parse_value]. change (91 =? 123)%N with false.
  change (91 =? 91)%N with true. cbv iota.
  rewrite skip_ws_indent by done.
  destruct s as [|d s']; [done|]. destruct Hs as (_ & Hd & _).
  by rewrite (proj2 (N.eqb_neq d 93)).
Qed.

Lemma parse_value_object (fuel : nat) (ws s : jsstring) :
  Forall (λ c, is_ws c = true) ws → starts_value s →
  parse_value (S fuel) (123%N :: ws ++ s)
  = match parse_members fuel s with
    | ok members after => ok (JObj members) after
    | syntax_error => syntax_error
    | out_of_fuel => out_of_fuel
    end.
Proof.
  intros Hws Hs. cbn [parse_value]. change (123 =? 123)%N with true. cbv iota.
  rewrite skip_ws_indent by done.
  destruct s as [|d s']; [done|]. destruct Hs as (_ & _ & Hd).
  by rewrite (proj2 (N.eqb_neq d 125)).
Qed.

Lemma skip_ws_stop (c : N) (s : jsstring) :
  is_ws c = false → skip_ws (c :: s) = c :: s.
Proof. intros H. simpl. by rewrite H. Qed.

Lemma join_first (sep x : jsstring) (xs : list jsstring) (tail : jsstring) :
  ∃ more, join sep (x :: xs) ++ tail = x ++ more.
Proof.
  destruct xs as [|y xs].
  - by exists tail.
  - exists (sep ++ join sep (y :: xs) ++ tail). by rewrite join_cons, <- !app_assoc.
Qed.

Lemma parse_elements_print (items : list (json Z))
    (indent closing rest : jsstring) :
  Forall reads_back items → items ≠ [] →
  Forall (λ c, is_ws c = true) indent → Forall (λ c, is_ws c = true) closing →
  ∀ fuel, sum_list ((λ item, S (weight item)) <$> items) ≤ fuel →
    parse_elements fuel
      (join ([44; 10]%N ++ indent) (SerializeJSONProperty indent <$> items)
       ++ 10%N :: closing ++ 93%N :: rest)
    = ok (as_parsed <$> items) rest.
Proof.
  intros Hall Hne Hindent Hclosing.
  induction Hall as [|v items Hv Hitems IH]; [done|]. clear Hne.
  intros [|fuel] Hfuel; [simpl in Hfuel; lia|].
  cbn [parse_elements]. destruct items as [|w items].
  - simpl join. rewrite Hv; [|done|done|simpl in Hfuel; lia].
    change (10%N :: closing ++ 93%N :: rest)
      with ((10%N :: closing) ++ 93%N :: rest).
    rewrite skip_ws_app by (constructor; done). done.
  - rewrite !fmap_cons, join_cons, <- !app_assoc.
    rewrite Hv; [|done|by cbn|simpl in Hfuel; lia].
    change ([44%N; 10%N] ++ indent ++ ?x) with (44%N :: (10%N :: indent) ++ x).
    rewrite (skip_ws_stop 44) by done.
    change (44 =? 44)%N with true. cbv iota.
    rewrite skip_ws_indent; [|by constructor|].
    + rewrite <- fmap_cons. rewrite IH; [done|done|]. simpl in *. lia.
    + destruct (join_first ([44; 10]%N ++ indent) (SerializeJSONProperty indent w)
                  (SerializeJSONProperty indent <$> items)
                  (10%N :: closing ++ 93%N :: rest)) as [more ->].
      apply print_starts_value.
Qed.

Lemma parse_members_member (fuel : nat) (k s : jsstring) :
  starts_value s →
  parse_members (S fuel) (QuoteJSONString k ++ [58; 32]%N ++ s)
  = match parse_value fuel s with
    | ok v rest' =>
        match skip_ws rest' with
        | [] => syntax_error
        | c :: rest'' =>
            if (c =? 44)%N then
              match parse_members fuel (skip_ws rest'') with
              | ok members after => ok ((k, v) :: members) after
              | syntax_error => syntax_error
              | out_of_fuel => out_of_fuel
              end
            else if (c =? 125)%N then ok [(k, v)] rest''
            else syntax_error
        end
    | syntax_error => syntax_error
    | out_of_fuel => out_of_fuel
    end.
Proof.
  intros Hs. unfold QuoteJSONString.
  rewrite <- app_comm_cons, <- app_assoc.
  change (parse_members (S fuel) (34%N :: ?x))
    with (match parse_chars x with
          | None => syntax_error
          | Some (key, after_key) =>
              match skip_ws after_key with
              | [] => syntax_error
              | colon :: after_colon =>
                  if (colon =? 58)%N then
                    match parse_value fuel (skip_ws after_colon) with
                    | ok v rest' =>
                        match skip_ws rest' with
                        | [] => syntax_error
                        | c :: rest'' =>
                            if (c =? 44)%N then
                              match parse_members fuel (skip_ws rest'') with
                              | ok members after => ok ((key, v) :: members) after
                              | syntax_error => syntax_error
                              | out_of_fuel => out_of_fuel
                              end
                            else if (c =? 125)%N then ok [(key, v)] rest''
                            else syntax_error
                        end
                    | syntax_error => syntax_error
                    | out_of_fuel => out_of_fuel
                    end
                  else syntax_error
              end
          end).
  change ([34%N] ++ [58%N; 32%N] ++ s) with (34%N :: 58%N :: 32%N :: s).
  rewrite parse_chars_quote_units.
  change (skip_ws (58%N :: 32%N :: s)) with (58%N :: 32%N :: s).
  change (58 =? 58)%N with true. cbv iota.
  change (skip_ws (32%N :: s)) with (skip_ws s).
  by rewrite skip_ws_value.
Qed.

Lemma parse_members_print (members : list (jsstring * json Z))
    (indent closing rest : jsstring) :
  Forall (λ kv, reads_back kv.2) members → members ≠ [] →
  Forall (λ c, is_ws c = true) indent → Forall (λ c, is_ws c = true) closing →
  ∀ fuel, sum_list ((λ kv, S (weight kv.2)) <$> members) ≤ fuel →
    parse_members fuel
      (join ([44; 10]%N ++ indent)
         ((λ kv, QuoteJSONString kv.1 ++ [58; 32]%N
                  ++ SerializeJSONProperty indent kv.2) <$> members)
       ++ 10%N :: closing ++ 125%N :: rest)
    = ok ((λ kv, (kv.1, as_parsed kv.2)) <$> members) rest.
Proof.
  intros Hall Hne Hindent Hclosing.
  induction Hall as [|[k v] members Hv Hmembers IH]; [done|]. clear Hne.
  intros [|fuel] Hfuel; [simpl in Hfuel; lia|].
  change (reads_back v) in Hv.
  destruct members as [|kw members].
  - change (join _ _) with (QuoteJSONString k ++ [58; 32]%N
                            ++ SerializeJSONProperty indent v).
    rewrite <- !app_assoc.
    rewrite parse_members_member by apply print_starts_value.
    rewrite Hv; [|done|done|simpl in Hfuel; lia].
    change (10%N :: closing ++ 125%N :: rest)
      with ((10%N :: closing) ++ 125%N :: rest).
    rewrite skip_ws_app by (constructor; done). done.
  - rewrite !fmap_cons, join_cons.
    change ((k, v).1) with k. change ((k, v).2) with v.
    rewrite <- !app_assoc.
    rewrite parse_members_member by apply print_starts_value.
    rewrite Hv; [|done|by cbn|simpl in Hfuel; lia].
    change ([44%N; 10%N] ++ indent ++ ?x) with (44%N :: (10%N :: indent) ++ x).
    rewrite (skip_ws_stop 44) by done.
    change (44 =? 44)%N with true. cbv iota.
    rewrite skip_ws_indent; [|by constructor|].
    + specialize (IH ltac:(done) fuel ltac:(simpl in *; lia)).
      match type of IH with
      | ?lhs = _ =>
          match goal with
          | |- context [parse_members fuel ?t] =>
              change (parse_members fuel t) with lhs
          end
      end.
      by rewrite IH.
    + destruct (join_first ([44; 10]%N ++ indent)
                  (QuoteJSONString kw.1 ++ [58; 32]%N
                   ++ SerializeJSONProperty indent kw.2)
                  ((λ kv, QuoteJSONString kv.1 ++ [58; 32]%N
                           ++ SerializeJSONProperty indent kv.2) <$> members)
                  (10%N :: closing ++ 125%N :: rest)) as [more Hmore].
      rewrite Hmore. by vm_compute.
Qed.

(** The parser reads back what [SerializeJSONProperty] printed. *)
Lemma parse_value_print (v : json Z) : reads_back v.
Proof.
  induction v as [|b|z|s|items IH|members IH] using json_induction;
    intros indent rest [|fuel] Hindent Hrest Hfuel;
    try (simpl in Hfuel; lia).
  - reflexivity.
  - by destruct b.
  - cbn [SerializeJSONProperty as_parsed].
    destruct (Number_toString_first z) as (c & chars & Hz & Hc).
    rewrite Hz, <- app_comm_cons, parse_value_number by done.
    by rewrite app_comm_cons, <- Hz, parse_number_toString.
  - cbn [SerializeJSONProperty as_parsed]. unfold QuoteJSONString.
    rewrite <- app_comm_cons, <- app_assoc.
    change (parse_value (S fuel) (34%N :: ?x))
      with (match parse_chars x with
            | Some (chars, after) => ok (JStr chars) after
            | None => @syntax_error (json decimal)
            end).
    change ([34%N] ++ rest) with (34%N :: rest).
    by rewrite parse_chars_quote_units.
  - destruct items as [|item items]; [reflexivity|].
    cbn [SerializeJSONProperty as_parsed].
    rewrite <- !app_assoc. rewrite (app_assoc indent [32%N; 32%N]).
    change ([91%N; 10%N] ++ (indent ++ [32%N; 32%N]) ++ ?x)
      with (91%N :: (10%N :: indent ++ [32%N; 32%N]) ++ x).
    assert (Forall (λ c, is_ws c = true) (indent ++ [32%N; 32%N])) as Hindent'.
    { apply Forall_app. split; [done|]. by repeat constructor. }
    rewrite parse_value_array.
    + change ([10%N] ++ indent ++ [93%N] ++ rest)
        with (10%N :: indent ++ 93%N :: rest).
      rewrite parse_elements_print; try done.
      change (S (sum_list ((λ item0, S (weight item0)) <$> item :: items)) ≤ S fuel)
        in Hfuel. lia.
    + by constructor.
    + destruct (join_first ([44; 10]%N ++ indent ++ [32; 32]%N)
                  (SerializeJSONProperty (indent ++ [32; 32]%N) item)
                  (SerializeJSONProperty (indent ++ [32; 32]%N) <$> items)
                  ([10%N] ++ indent ++ [93%N] ++ rest)) as [more Hmore].
      rewrite fmap_cons, Hmore. apply print_starts_value.
  - destruct members as [|member members]; [reflexivity|].
    cbn [SerializeJSONProperty as_parsed].
    rewrite <- !app_assoc. rewrite (app_assoc indent [32%N; 32%N]).
    change ([123%N; 10%N] ++ (indent ++ [32%N; 32%N]) ++ ?x)
      with (123%N :: (10%N :: indent ++ [32%N; 32%N]) ++ x).
    assert (Forall (λ c, is_ws c = true) (indent ++ [32%N; 32%N])) as Hindent'.
    { apply Forall_app. split; [done|]. by repeat constructor. }
    rewrite parse_value_object.
    + change ([10%N] ++ indent ++ [125%N] ++ rest)
        with (10%N :: indent ++ 125%N :: rest).
      rewrite parse_members_print; try done.
      change (S (sum_list ((λ kv, S (weight kv.2)) <$> member :: members)) ≤ S fuel)
        in Hfuel. lia.
    + by constructor.
    + destruct (join_first ([44; 10]%N ++ indent ++ [32; 32]%N)
                  (QuoteJSONString member.1 ++ [58; 32]%N
                   ++ SerializeJSONProperty (indent ++ [32; 32]%N) member.2)
                  ((λ kv, QuoteJSONString kv.1 ++ [58; 32]%N
                           ++ SerializeJSONProperty (indent ++ [32; 32]%N) kv.2)
                     <$> members)
                  ([10%N] ++ indent ++ [125%N] ++ rest)) as [more Hmore].
      rewrite fmap_cons, Hmore. by vm_compute.
Qed.

(** The fuel [JSON_parse] gives is enough for a printed text. *)
Lemma join_weight {A} (w : A → nat) (print : A → jsstring) (sep : jsstring)
    (xs : list A) :
  Forall (λ x, w x ≤ length (print x)) xs → 1 ≤ length sep →
  sum_list ((λ x, S (w x)) <$> xs) ≤ S (length (join sep (print <$> xs))).
Proof.
  intros Hall Hsep. induction Hall as [|x xs Hx Hxs IH]; [simpl; lia|].
  destruct xs as [|y xs].
  - simpl. lia.
  - rewrite !fmap_cons, join_cons, !length_app.
    rewrite !fmap_cons in IH. simpl in *. lia.
Qed.

Lemma weight_le_length (v : json Z) :
  ∀ indent, weight v ≤ length (SerializeJSONProperty indent v).
Proof.
  induction v as [|b|z|s|items IH|members IH] using json_induction; intros indent.
  - simpl. lia.
  - destruct b; simpl; lia.
  - simpl. destruct (Number_toString_first z) as (c & chars & -> & _). simpl. lia.
  - simpl. lia.
  - destruct items as [|item items]; [simpl; lia|].
    cbn [SerializeJSONProperty].
    change (weight (JArr (item :: items)))
      with (S (sum_list ((λ item0, S (weight item0)) <$> item :: items))).
    assert (sum_list ((λ x, S (weight x)) <$> item :: items)
            ≤ S (length (join ([44; 10]%N ++ indent ++ [32; 32]%N)
                           (SerializeJSONProperty (indent ++ [32; 32]%N)
                              <$> item :: items)))) as Hle.
    { apply (join_weight weight); [|simpl; lia].
      eapply Forall_impl; [exact IH|]. intros x Hx. apply Hx. }
    set (J := join _ _) in *. set (W := sum_list _) in *.
    rewrite !length_app. simpl. lia.
  - destruct members as [|member members]; [simpl; lia|].
    cbn [SerializeJSONProperty].
    change (weight (JObj (member :: members)))
      with (S (sum_list ((λ kv, S (weight kv.2)) <$> member :: members))).
    assert (sum_list ((λ kv, S (weight kv.2)) <$> member :: members)
            ≤ S (length (join ([44; 10]%N ++ indent ++ [32; 32]%N)
                           ((λ kv, QuoteJSONString kv.1 ++ [58; 32]%N
                                    ++ SerializeJSONProperty
                                         (indent ++ [32; 32]%N) kv.2)
                              <$> member :: members)))) as Hle.
    { apply (join_weight (λ kv : jsstring * json Z, weight kv.2)); [|simpl; lia].
      eapply Forall_impl; [exact IH|]. intros x Hx. cbv beta.
      rewrite !length_app. specialize (Hx (indent ++ [32; 32]%N)).
      cbv beta in Hx. lia. }
    set (J := join _ _) in *. set (W := sum_list _) in *.
    rewrite !length_app. simpl. lia.
Qed.

(** Round trip of the text: [JSON.parse(JSON.stringify(v, null, 2))]
    is [v]. *)
Lemma JSON_parse_stringify (v : json Z) :
  JSON_parse (JSON_stringify v) = Some (as_parsed v).
Proof.
  unfold JSON_parse, JSON_stringify.
  rewrite skip_ws_value.
  - rewrite <- (app_nil_r (SerializeJSONProperty [] v)) at 2.
    rewrite parse_value_print; [done|done|done|].
    pose proof (weight_le_length v []). lia.
  - rewrite <- (app_nil_r (SerializeJSONProperty [] v)).
    apply print_starts_value.
Qed.

(** ** Export and import *)

Lemma integer_value_integer (z : Z) :
  isSafeInteger z = true → integer_value (integer z) = Some z.
Proof. intros H. unfold integer_value, exact_integer. simpl. by rewrite H. Qed.

Lemma integer_value_safe (d : decimal) (z : Z) :
  integer_value d = Some z → isSafeInteger z = true.
Proof.
  unfold integer_value. destruct (exact_integer d) as [z'|]; simpl; [|done].
  destruct (isSafeInteger z') eqn:H; [|done]. by intros [= <-].
Qed.

(** Reading a property does not depend on the order in which an object
    holds its properties. *)
Lemma last_member_NoDup (key : jsstring)
    (members : list (jsstring * json decimal)) (v : json decimal) :
  NoDup members.*1 → last_member key members = Some v ↔ (key, v) ∈ members.
Proof.
  revert v. induction members as [|[k x] rest IH]; simpl; intros v.
  - intros _. split; [done|]. by intros ?%elem_of_nil.
  - intros [Hk Hrest]%NoDup_cons.
    assert (IH' : ∀ w, last_member key rest = Some w ↔ (key, w) ∈ rest)
      by (intros w; by apply IH).
    clear IH. rename IH' into IH.
    rewrite elem_of_cons. split.
    + destruct (last_member key rest) as [later|] eqn:Hlater.
      * intros [= ->]. right. by apply IH.
      * destruct (decide (k = key)) as [->|]; [|done]. intros [= ->]. by left.
    + intros [[= Hkey Hv]|Hin].
      * subst k x. destruct (last_member key rest) as [later|] eqn:Hlater.
        -- exfalso. apply Hk. apply list_elem_of_fmap. exists (key, later).
           split; [done|]. by apply IH.
        -- by rewrite decide_True.
      * apply IH in Hin. by rewrite Hin.
Qed.

Lemma last_member_Permutation (key : jsstring)
    (members members' : list (jsstring * json decimal)) :
  NoDup members.*1 → members' ≡ₚ members →
  last_member key members' = last_member key members.
Proof.
  intros Hnodup Hperm.
  assert (Hnodup' : NoDup members'.*1) by by rewrite Hperm.
  apply option_eq. intros v.
  rewrite !last_member_NoDup by done. by rewrite Hperm.
Qed.

Lemma only_keys_Permutation (keys : list jsstring)
    (members members' : list (jsstring * json decimal)) :
  members' ≡ₚ members → only_keys keys members' = only_keys keys members.
Proof.
  intros Hperm. unfold only_keys. apply Bool.eq_true_iff_eq.
  rewrite !forallb_forall. split; intros H kv Hin; apply H.
  - by apply (Permutation_in _ (Permutation_sym Hperm)).
  - by apply (Permutation_in _ Hperm).
Qed.

Lemma message_of_json_Permutation (members members' : list (jsstring * json decimal)) :
  NoDup members.*1 → members' ≡ₚ members →
  message_of_json (JObj members') = message_of_json (JObj members).
Proof.
  intros Hnodup Hperm. unfold message_of_json, property.
  rewrite (only_keys_Permutation _ _ _ Hperm).
  by rewrite !(last_member_Permutation _ _ _ Hnodup Hperm).
Qed.

Lemma history_of_json_Permutation (members members' : list (jsstring * json decimal)) :
  NoDup members.*1 → members' ≡ₚ members →
  history_of_json (JObj members') = history_of_json (JObj members).
Proof.
  intros Hnodup Hperm. unfold history_of_json, property.
  rewrite (only_keys_Permutation _ _ _ Hperm).
  by rewrite !(last_member_Permutation _ _ _ Hnodup Hperm).
Qed.

Lemma as_parsed_members (arrange : list (jsstring * json Z) → list (jsstring * json Z))
    (members : list (jsstring * json Z)) :
  arrange members ≡ₚ members →
  ((λ kv, (kv.1, as_parsed kv.2)) <$> arrange members)
  ≡ₚ ((λ kv, (kv.1, as_parsed kv.2)) <$> members).
Proof. intros H. by rewrite H. Qed.

(** A message is read back from the object written for it, whatever the
    order of its properties. *)
Lemma message_of_json_to_json arrange (msg : WhatsAppMessage) :
  (∀ members, arrange members ≡ₚ members) →
  isSafeInteger (timestamp msg) = true →
  message_of_json (as_parsed (message_to_json arrange msg)) = Some msg.
Proof.
  intros Harrange Hsafe. unfold message_to_json. cbn [as_parsed].
  destruct msg as [id0 from0 to0 timestamp0 type0 content0 isGroup0 groupId0 senderName0].
  cbn [timestamp] in Hsafe.
  match goal with
  | |- message_of_json (JObj (?f <$> arrange ?members)) = _ =>
      assert (Hnodup : NoDup (f <$> members).*1)
  end.
  { rewrite <- list_fmap_compose.
    destruct groupId0 as [g|], senderName0 as [n|];
      apply (bool_decide_unpack _); vm_compute; done. }
  rewrite (message_of_json_Permutation _ _ Hnodup (as_parsed_members _ _ (Harrange _))).
  clear Hnodup.
  destruct type0, groupId0 as [g|], senderName0 as [n|];
    cbv -[isSafeInteger]; by rewrite Hsafe.
Qed.

Lemma mapM_message_of_json (arrange : nat → list (jsstring * json Z) → list (jsstring * json Z))
    (msgs : list WhatsAppMessage) :
  (∀ i members, arrange i members ≡ₚ members) →
  forallb (λ msg, isSafeInteger (timestamp msg)) msgs = true →
  mapM message_of_json (as_parsed <$> imap (λ i, message_to_json (arrange i)) msgs)
  = Some msgs.
Proof.
  intros Harrange Hsafe. apply mapM_Some.
  revert arrange Harrange. induction msgs as [|msg msgs IH]; intros arrange Harrange.
  - constructor.
  - simpl in Hsafe. apply andb_prop in Hsafe as [Hmsg Hmsgs].
    simpl. constructor.
    + by apply message_of_json_to_json.
    + apply (IH Hmsgs (λ i, arrange (S i))). intros i. apply Harrange.
Qed.

(** So is a history. *)
Lemma history_of_json_to_json (layout : Layout) (h : ChatHistory) :
  arranges layout → safe_history h = true →
  history_of_json (as_parsed (history_to_json layout h)) = Some h.
Proof.
  intros [Hhistory Hmessage] [Hlast Hmsgs]%andb_prop.
  destruct h as [chatId0 messages0 lastUpdated0]. cbn [lastUpdated messages] in *.
  unfold history_to_json. cbn [as_parsed chatId messages lastUpdated].
  set (items := imap _ messages0).
  match goal with
  | |- history_of_json (JObj (?f <$> of_history layout ?members)) = _ =>
      assert (Hnodup : NoDup (f <$> members).*1)
        by (apply (bool_decide_unpack _); vm_compute; done);
      rewrite (history_of_json_Permutation _ _ Hnodup
                 (as_parsed_members _ _ (Hhistory _)))
  end.
  change (history_of_json _)
    with (messages1 ← mapM message_of_json (as_parsed <$> items);
          lastUpdated1 ← integer_value (integer lastUpdated0);
          Some {| chatId := chatId0; messages := messages1;
                  lastUpdated := lastUpdated1 |}).
  unfold items. rewrite mapM_message_of_json by done.
  by rewrite integer_value_integer.
Qed.

(** What a typed import stored has safe integers for its numbers. *)
Lemma message_of_json_safe (v : json decimal) (msg : WhatsAppMessage) :
  message_of_json v = Some msg → isSafeInteger (timestamp msg) = true.
Proof.
  destruct v as [| | | | |members]; try done. unfold message_of_json.
  destruct (only_keys message_keys members); [|done].
  intros (id0 & _ & H)%bind_Some.
  apply bind_Some in H as (from0 & _ & H).
  apply bind_Some in H as (to0 & _ & H).
  apply bind_Some in H as (timestamp0 & Ht & H).
  apply bind_Some in H as (type0 & _ & H).
  apply bind_Some in H as (content0 & _ & H).
  apply bind_Some in H as (isGroup0 & _ & H).
  apply bind_Some in H as (groupId0 & _ & H).
  apply bind_Some in H as (senderName0 & _ & H).
  injection H as <-. cbn [timestamp].
  unfold integer_of in Ht.
  destruct (property "timestamp" (JObj members)) as [[| |d| | |]|]; try done.
  by apply (integer_value_safe d).
Qed.

Lemma history_of_json_safe (v : json decimal) (h : ChatHistory) :
  history_of_json v = Some h → safe_history h = true.
Proof.
  destruct v as [| | | | |members]; try done. unfold history_of_json.
  destruct (only_keys history_keys members); [|done].
  intros (chatId0 & _ & H)%bind_Some.
  apply bind_Some in H as (ms & Hms & H).
  apply bind_Some in H as (lu & Hlu & H).
  injection H as <-. unfold safe_history. cbn [lastUpdated messages].
  apply andb_true_intro. split.
  - unfold integer_of in Hlu.
    destruct (property "lastUpdated" (JObj members)) as [[| |d| | |]|]; try done.
    by apply (integer_value_safe d).
  - destruct (property "messages" (JObj members)) as [[| | | |items|]|]; try done.
    apply mapM_Some in Hms.
    induction Hms as [|item msg items' ms' Hitem _ IH]; [done|].
    simpl. apply andb_true_intro. split; [|done].
    by apply (message_of_json_safe item).
Qed.




Lemma keyed_by_chatId_clear c svc :
  keyed_by_chatId svc → keyed_by_chatId (clearChatHistory c svc).
Proof.
  intros Hsvc c' h'. unfold clearChatHistory. simpl.
  intros [_ H]%lookup_delete_Some. by apply Hsvc.
Qed.

Lemma keyed_by_chatId_cleanup now daysOld svc :
  keyed_by_chatId svc → keyed_by_chatId (cleanupOldHistories now daysOld svc).1.
Proof.
  intros Hsvc c h. rewrite cleanupOldHistories_unfold. simpl.
  intros [H _]%map_lookup_filter_Some. by apply Hsvc.
Qed.

Lemma history_of_json_chatId (v : json decimal) (h : ChatHistory) :
  history_of_json v = Some h → property "chatId" v = Some (JStr (chatId h)).
Proof.
  destruct v as [| | | | |members]; try done. unfold history_of_json.
  destruct (only_keys history_keys members); [|done].
  intros (chatId0 & Hc & H)%bind_Some.
  apply bind_Some in H as (ms & _ & H).
  apply bind_Some in H as (lu & _ & H).
  injection H as <-. cbn [chatId].
  by destruct (property "chatId" (JObj members)) as [[| | |s| |]|];
    try done; injection Hc as ->.
Qed.

Lemma importChatHistory_parsed c blob svc parsed :
  JSON_parse blob = Some parsed →
  importChatHistory c blob svc
  = match property "chatId" parsed with
    | Some (JStr embedded) =>
        if decide (embedded = c) then
          match history_of_json parsed with
          | Some h =>
              returned true
                {| chatHistories := <[c := h]> (chatHistories svc);
                   maxHistoryLength := maxHistoryLength svc |}
          | None =>
              stored_untyped (JSON_value parsed)
                {| chatHistories := delete c (chatHistories svc);
                   maxHistoryLength := maxHistoryLength svc |}
          end
        else returned false svc
    | _ => returned false svc
    end.
Proof. intros H. unfold importChatHistory. rewrite H. by destruct parsed. Qed.

Lemma importChatHistory_typed c blob svc parsed h :
  JSON_parse blob = Some parsed → history_of_json parsed = Some h →
  chatId h = c →
  importChatHistory c blob svc
  = returned true {| chatHistories := <[c := h]> (chatHistories svc);
                     maxHistoryLength := maxHistoryLength svc |}.
Proof.
  intros Hparse Hh Hc. rewrite (importChatHistory_parsed _ _ _ _ Hparse).
  rewrite (history_of_json_chatId _ _ Hh), Hc, decide_True by done.
  by rewrite Hh.
Qed.

Lemma keyed_by_chatId_import c blob svc result svc' :
  importChatHistory c blob svc = returned result svc' →
  keyed_by_chatId svc → keyed_by_chatId svc'.
Proof.
  intros H Hsvc.
  destruct (JSON_parse blob) as [parsed|] eqn:Hparse;
    [|unfold importChatHistory in H; rewrite Hparse in H; by injection H as _ <-].
  rewrite (importChatHistory_parsed _ _ _ _ Hparse) in H.
  destruct (property "chatId" parsed) as [[| | |embedded| |]|] eqn:Hid;
    try (by injection H as _ <-).
  destruct (decide (embedded = c)) as [->|]; [|by injection H as _ <-].
  destruct (history_of_json parsed) as [h|] eqn:Hh; [|done].
  injection H as _ <-. intros c' h'. simpl.
  destruct (decide (c = c')) as [<-|Hne].
  - rewrite lookup_insert_eq. intros [= <-].
    apply history_of_json_chatId in Hh. congruence.
  - rewrite lookup_insert_ne by done. apply Hsvc.
Qed.




(** The text of an export, for a conversation that [addMessage] built
    from a message of [parseMessage]: the properties in the order of
    the literals, two spaces of indentation. *)
Example exportChatHistory_text :
  exportChatHistory literal_order (str "chat")
    (addMessage 5 (str "chat")
       (groupMessage "M1" "u" "chat" 1 "Ana" "hi") (newChatHistoryService 50))
  = Some (join [10%N]
            (json_text <$>
               ["{";
                "  'chatId': 'chat',";
                "  'messages': [";
                "    {";
                "      'id': 'M1',";
                "      'from': 'u',";
                "      'to': 'chat',";
                "      'timestamp': 1,";
                "      'type': 'text',";
                "      'content': 'hi',";
                "      'isGroup': true,";
                "      'groupId': 'chat',";
                "      'senderName': 'Ana'";
                "    }";
                "  ],";
                "  'lastUpdated': 5";
                "}"]%string)).
Proof. vm_compute. reflexivity. Qed.


(** C6: a text whose embedded [chatId] is not the [chatId] asked for
    (a text that is no JSON, or JSON for no object, or for an object
    without such a string, included): [importChatHistory] returns
    [false], the failure it has, and the store is the store it was. *)
Theorem import_mismatch_leaves_store (c : jsstring) (blob : jsstring)
    (svc : ChatHistoryService) :
  embedded_chatId blob ≠ Some c →
  importChatHistory c blob svc = returned false svc.
Proof.
  unfold embedded_chatId. intros Hne.
  destruct (JSON_parse blob) as [parsed|] eqn:Hparse.
  - rewrite (importChatHistory_parsed _ _ _ _ Hparse).
    destruct (property "chatId" parsed) as [[| | |embedded| |]|]; try done.
    simpl in Hne. destruct (decide (embedded = c)) as [->|]; [done|done].
  - unfold importChatHistory. by rewrite Hparse.
Qed.

Lemma import_mismatch_leaves_store_witness :
  let blob := json_text "{'chatId': 'chatB', 'messages': [], 'lastUpdated': 7}" in
  let svc := addMessage 1 (str "chatA") (textMessage "A" "u" "chatA" 1 "a")
               (newChatHistoryService 50) in
  embedded_chatId blob ≠ Some (str "chatA")
  ∧ importChatHistory (str "chatA") blob svc = returned false svc.
Proof.
  intros blob svc.
  assert (H : embedded_chatId blob ≠ Some (str "chatA")) by (vm_compute; congruence).
  split; [exact H|]. exact (import_mismatch_leaves_store (str "chatA") blob svc H).
Defined.

(** C10: a text that is JSON for a [ChatHistory] with the [chatId] asked
    for and with more messages than [maxHistoryLength]:
    [importChatHistory] returns [true], and the history stored is the
    one of the text, all of its messages, more than the limit that
    [addMessage] keeps. *)
Theorem import_installs_without_truncation (c : jsstring) (blob : jsstring)
    (svc : ChatHistoryService) (parsed : json decimal) (h : ChatHistory) :
  JSON_parse blob = Some parsed →
  history_of_json parsed = Some h →
  chatId h = c →
  (maxHistoryLength svc < Z.of_nat (length (messages h)))%Z →
  ∃ svc',
    importChatHistory c blob svc = returned true svc'
    ∧ getChatHistory c svc' = messages h
    ∧ length (getChatHistory c svc') = length (messages h)
    ∧ (maxHistoryLength svc' < Z.of_nat (length (getChatHistory c svc')))%Z.
Proof.
  intros Hparse Hh Hc Hlong. eexists. split.
  { by apply (importChatHistory_typed _ _ _ parsed h). }
  unfold getChatHistory. simpl. rewrite lookup_insert_eq. done.
Qed.

Lemma import_installs_without_truncation_witness :
  let blob :=
    json_text "{'chatId':'chat','messages':[{'id':'1','from':'u','to':'chat','timestamp':1,'type':'text','content':'a','isGroup':false},{'id':'2','from':'u','to':'chat','timestamp':2,'type':'text','content':'b','isGroup':false}],'lastUpdated':9}" in
  let h := {| chatId := str "chat";
              messages := [textMessage "1" "u" "chat" 1 "a";
                           textMessage "2" "u" "chat" 2 "b"];
              lastUpdated := 9 |} in
  ∃ svc',
    importChatHistory (str "chat") blob (newChatHistoryService 1)
    = returned true svc'
    ∧ getChatHistory (str "chat") svc' = messages h
    ∧ length (getChatHistory (str "chat") svc') = length (messages h)
    ∧ (maxHistoryLength svc' < Z.of_nat (length (getChatHistory (str "chat") svc')))%Z.
Proof.
  intros blob h.
  destruct (JSON_parse blob) as [parsed|] eqn:Hparse;
    [|exfalso; vm_compute in Hparse; discriminate].
  assert (Hh : history_of_json parsed = Some h).
  { vm_compute in Hparse. injection Hparse as <-. vm_compute. reflexivity. }
  apply (import_installs_without_truncation (str "chat") blob
           (newChatHistoryService 1) parsed h Hparse Hh eq_refl).
  vm_compute. reflexivity.
Defined.

(** ** JSON: the fuel of the parser *)

Lemma skip_ws_length (s : jsstring) : length (skip_ws s) ≤ length s.
Proof. induction s as [|c s IH]; simpl; [done|]. destruct (is_ws c); simpl; lia. Qed.

Lemma parse_chars_shorter (s chars after : jsstring) :
  parse_chars s = Some (chars, after) → length after < length s.
Proof.
  remember (length s) as n eqn:Hn. revert s chars after Hn.
  induction (lt_wf n) as [n _ IH]. intros s chars after -> H.
  destruct s as [|c s]; [done|]. simpl in H.
  destruct (c =? 34)%N; [injection H as _ <-; simpl; lia|].
  destruct (c =? 92)%N.
  - destruct s as [|e s]; [done|].
    destruct (e =? 117)%N.
    + destruct s as [|h3 [|h2 [|h1 [|h0 s]]]]; try done.
      destruct (hex_value h3), (hex_value h2), (hex_value h1), (hex_value h0);
        try done.
      destruct (parse_chars s) as [[chars' after']|] eqn:Hs; [|done].
      injection H as _ <-.
      specialize (IH (length s) ltac:(simpl; lia) s chars' after' eq_refl Hs).
      simpl. lia.
    + destruct (simple_escape e); [|done].
      destruct (parse_chars s) as [[chars' after']|] eqn:Hs; [|done].
      injection H as _ <-.
      specialize (IH (length s) ltac:(simpl; lia) s chars' after' eq_refl Hs).
      simpl. lia.
  - destruct (c <? 32)%N; [done|].
    destruct (parse_chars s) as [[chars' after']|] eqn:Hs; [|done].
    injection H as _ <-.
    specialize (IH (length s) ltac:(simpl; lia) s chars' after' eq_refl Hs).
    simpl. lia.
Qed.

Lemma expect_length (lit s after : jsstring) :
  expect lit s = Some after → length after ≤ length s.
Proof.
  revert s. induction lit as [|a lit IH]; intros s; simpl.
  - by intros [= ->].
  - destruct s as [|c s]; [done|]. destruct (a =? c)%N; [|done].
    intros H%IH. simpl. lia.
Qed.

Lemma read_digits_length (s : jsstring) (acc : N) (count : nat) :
  length (read_digits s acc count).2 ≤ length s.
Proof.
  revert acc count. induction s as [|c s IH]; intros acc count; simpl; [done|].
  destruct (is_digit c); simpl; [|done]. specialize (IH (10 * acc + (c - 48))%N (S count)). lia.
Qed.

Lemma parse_number_shorter (s : jsstring) (d : decimal) (after : jsstring) :
  parse_number s = Some (d, after) → length after < length s.
Proof.
  unfold parse_number.
  set (signed := match s with
                 | c :: rest => if (c =? 45)%N then (true, rest) else (false, s)
                 | [] => (false, [])
                 end).
  assert (length signed.2 ≤ length s) as Hsign.
  { subst signed. destruct s as [|c rest]; [done|].
    destruct (c =? 45)%N; simpl; lia. }
  destruct signed as [negative s1]. simpl in Hsign.
  intros ([int_value s2] & Hint & H)%bind_Some.
  apply bind_Some in H as ([[value count] s3] & Hfrac & H).
  apply bind_Some in H as ([e s4] & Hexp & H). injection H as _ <-.
  assert (length s2 < length s1) as H12.
  { unfold parse_int_part in Hint. destruct s1 as [|c rest]; [done|].
    destruct (c =? 48)%N; [injection Hint as _ <-; simpl; lia|].
    destruct (is_digit c) eqn:Hc; [|done].
    pose proof (read_digits_length (c :: rest) 0 0) as Hlen.
    simpl in Hint, Hlen. rewrite Hc in Hint, Hlen.
    destruct (read_digits rest _ _) as [[v k] r] eqn:Hr.
    injection Hint as _ <-.
    pose proof (read_digits_length rest (10 * 0 + (c - 48))%N 1) as Hlen'.
    rewrite Hr in Hlen'. simpl in *. lia. }
  assert (length s3 ≤ length s2) as H23.
  { unfold parse_fraction in Hfrac. destruct s2 as [|c rest]; [by injection Hfrac as _ _ <-|].
    destruct (c =? 46)%N; [|by injection Hfrac as _ _ <-].
    pose proof (read_digits_length rest int_value 0) as Hlen.
    destruct (read_digits rest int_value 0) as [[v k] r].
    destruct (k =? 0)%nat; [done|]. injection Hfrac as _ _ <-. simpl in *. lia. }
  assert (length s4 ≤ length s3) as H34.
  { unfold parse_exponent in Hexp. destruct s3 as [|c rest]; [by injection Hexp as _ <-|].
    destruct ((c =? 101) || (c =? 69))%N; [|by injection Hexp as _ <-].
    set (sgn := match rest with
                | d0 :: rest' =>
                    if (d0 =? 45)%N then (true, rest')
                    else if (d0 =? 43)%N then (false, rest') else (false, rest)
                | [] => (false, [])
                end) in Hexp.
    assert (length sgn.2 ≤ length rest) as Hsgn.
    { subst sgn. destruct rest as [|d0 rest']; [done|].
      destruct (d0 =? 45)%N; [simpl; lia|]. destruct (d0 =? 43)%N; simpl; lia. }
    destruct sgn as [neg digits]. simpl in Hsgn.
    pose proof (read_digits_length digits 0 0) as Hlen.
    destruct (read_digits digits 0 0) as [[v k] r].
    destruct (k =? 0)%nat; [done|]. injection Hexp as _ <-. simpl in *. lia. }
  lia.
Qed.

(** A value, a list of elements and a list of members use up text. *)
Lemma parse_shorter (fuel : nat) :
  (∀ s v rest, parse_value fuel s = ok v rest → length rest < length s)
  ∧ (∀ s vs rest, parse_elements fuel s = ok vs rest → length rest < length s)
  ∧ (∀ s ms rest, parse_members fuel s = ok ms rest → length rest < length s).
Proof.
  induction fuel as [|fuel (IHv & IHe & IHm)]; [by repeat split|].
  split; [|split].
  - intros s v rest H. destruct s as [|c s]; [done|]. cbn [parse_value] in H.
    destruct (c =? 123)%N.
    { pose proof (skip_ws_length s) as Hws.
      destruct (skip_ws s) as [|d s'] eqn:Hs; [done|].
      destruct (d =? 125)%N; [injection H as _ <-; simpl in *; lia|].
      destruct (parse_members fuel (d :: s')) as [ms after| |] eqn:Hm; try done.
      injection H as _ <-. apply IHm in Hm. simpl in *. lia. }
    destruct (c =? 91)%N.
    { pose proof (skip_ws_length s) as Hws.
      destruct (skip_ws s) as [|d s'] eqn:Hs; [done|].
      destruct (d =? 93)%N; [injection H as _ <-; simpl in *; lia|].
      destruct (parse_elements fuel (d :: s')) as [vs after| |] eqn:He; try done.
      injection H as _ <-. apply IHe in He. simpl in *. lia. }
    destruct (c =? 34)%N.
    { destruct (parse_chars s) as [[chars after]|] eqn:Hc; [|done].
      injection H as _ <-. apply parse_chars_shorter in Hc. simpl. lia. }
    destruct (c =? 116)%N.
    { destruct (expect _ s) as [after|] eqn:He; [|done].
      injection H as _ <-. apply expect_length in He. simpl. lia. }
    destruct (c =? 102)%N.
    { destruct (expect _ s) as [after|] eqn:He; [|done].
      injection H as _ <-. apply expect_length in He. simpl. lia. }
    destruct (c =? 110)%N.
    { destruct (expect _ s) as [after|] eqn:He; [|done].
      injection H as _ <-. apply expect_length in He. simpl. lia. }
    destruct (parse_number (c :: s)) as [[d after]|] eqn:Hn; [|done].
    injection H as _ <-. by apply parse_number_shorter in Hn.
  - intros s vs rest H. cbn [parse_elements] in H.
    destruct (parse_value fuel s) as [v after| |] eqn:Hv; try done.
    apply IHv in Hv. pose proof (skip_ws_length after) as Hws.
    destruct (skip_ws after) as [|c s'] eqn:Hs; [done|].
    destruct (c =? 44)%N.
    { pose proof (skip_ws_length s') as Hws'.
      destruct (parse_elements fuel (skip_ws s')) as [items after'| |] eqn:He;
        try done.
      injection H as _ <-. apply IHe in He. simpl in *. lia. }
    destruct (c =? 93)%N; [|done]. injection H as _ <-. simpl in *. lia.
  - intros s ms rest H. destruct s as [|q s]; [done|]. cbn [parse_members] in H.
    destruct (q =? 34)%N; [|done].
    destruct (parse_chars s) as [[key after_key]|] eqn:Hk; [|done].
    apply parse_chars_shorter in Hk.
    pose proof (skip_ws_length after_key) as Hws1.
    destruct (skip_ws after_key) as [|colon after_colon] eqn:Hs1; [done|].
    destruct (colon =? 58)%N; [|done].
    pose proof (skip_ws_length after_colon) as Hws2.
    destruct (parse_value fuel (skip_ws after_colon)) as [v after| |] eqn:Hv;
      try done.
    apply IHv in Hv. pose proof (skip_ws_length after) as Hws3.
    destruct (skip_ws after) as [|c s'] eqn:Hs3; [done|].
    destruct (c =? 44)%N.
    { pose proof (skip_ws_length s') as Hws4.
      destruct (parse_members fuel (skip_ws s')) as [members after'| |] eqn:Hm;
        try done.
      injection H as _ <-. apply IHm in Hm. simpl in *. lia. }
    destruct (c =? 125)%N; [|done]. injection H as _ <-. simpl in *. lia.
Qed.

(** With more than twice the length of the text as fuel the parser never
    runs out of it. *)
Lemma parse_fuel (fuel : nat) :
  (∀ s, 2 * length s < fuel → parse_value fuel s ≠ out_of_fuel)
  ∧ (∀ s, 2 * length s + 1 < fuel → parse_elements fuel s ≠ out_of_fuel)
  ∧ (∀ s, 2 * length s + 1 < fuel → parse_members fuel s ≠ out_of_fuel).
Proof.
  induction fuel as [|fuel (IHv & IHe & IHm)]; [repeat split; intros; lia|].
  split; [|split].
  - intros s Hfuel. destruct s as [|c s]; [done|]. cbn [parse_value].
    simpl in Hfuel.
    destruct (c =? 123)%N.
    { pose proof (skip_ws_length s) as Hws.
      destruct (skip_ws s) as [|d s'] eqn:Hs; [done|].
      destruct (d =? 125)%N; [done|].
      specialize (IHm (d :: s') ltac:(simpl in *; lia)).
      by destruct (parse_members fuel (d :: s')). }
    destruct (c =? 91)%N.
    { pose proof (skip_ws_length s) as Hws.
      destruct (skip_ws s) as [|d s'] eqn:Hs; [done|].
      destruct (d =? 93)%N; [done|].
      specialize (IHe (d :: s') ltac:(simpl in *; lia)).
      by destruct (parse_elements fuel (d :: s')). }
    destruct (c =? 34)%N; [by destruct (parse_chars s) as [[? ?]|]|].
    destruct (c =? 116)%N; [by destruct (expect _ s)|].
    destruct (c =? 102)%N; [by destruct (expect _ s)|].
    destruct (c =? 110)%N; [by destruct (expect _ s)|].
    by destruct (parse_number (c :: s)) as [[? ?]|].
  - intros s Hfuel. cbn [parse_elements].
    specialize (IHv s ltac:(lia)).
    destruct (parse_value fuel s) as [v after| |] eqn:Hv; try done.
    apply (proj1 (parse_shorter fuel)) in Hv.
    pose proof (skip_ws_length after) as Hws.
    destruct (skip_ws after) as [|c s'] eqn:Hs; [done|].
    destruct (c =? 44)%N.
    { pose proof (skip_ws_length s') as Hws'.
      specialize (IHe (skip_ws s') ltac:(simpl in *; lia)).
      by destruct (parse_elements fuel (skip_ws s')). }
    by destruct (c =? 93)%N.
  - intros s Hfuel. destruct s as [|q s]; [done|]. cbn [parse_members].
    simpl in Hfuel.
    destruct (q =? 34)%N; [|done].
    destruct (parse_chars s) as [[key after_key]|] eqn:Hk; [|done].
    apply parse_chars_shorter in Hk.
    pose proof (skip_ws_length after_key) as Hws1.
    destruct (skip_ws after_key) as [|colon after_colon] eqn:Hs1; [done|].
    destruct (colon =? 58)%N; [|done].
    pose proof (skip_ws_length after_colon) as Hws2.
    specialize (IHv (skip_ws after_colon) ltac:(simpl in *; lia)).
    destruct (parse_value fuel (skip_ws after_colon)) as [v after| |] eqn:Hv;
      try done.
    apply (proj1 (parse_shorter fuel)) in Hv.
    pose proof (skip_ws_length after) as Hws3.
    destruct (skip_ws after) as [|c s'] eqn:Hs3; [done|].
    destruct (c =? 44)%N.
    { pose proof (skip_ws_length s') as Hws4.
      specialize (IHm (skip_ws s') ltac:(simpl in *; lia)).
      by destruct (parse_members fuel (skip_ws s')). }
    by destruct (c =? 125)%N.
Qed.

(** X4: [JSON_parse] never runs out of fuel: it returns [None] only
    where the text has a syntax error. *)
Theorem JSON_parse_never_out_of_fuel (text : jsstring) :
  parse_value (S (2 * length text)) (skip_ws text) ≠ out_of_fuel
  ∧ (JSON_parse text = None →
     parse_value (S (2 * length text)) (skip_ws text) = syntax_error
     ∨ ∃ v rest, parse_value (S (2 * length text)) (skip_ws text) = ok v rest
                 ∧ skip_ws rest ≠ []).
Proof.
  assert (parse_value (S (2 * length text)) (skip_ws text) ≠ out_of_fuel) as H.
  { apply (proj1 (parse_fuel _)). pose proof (skip_ws_length text). lia. }
  split; [done|]. unfold JSON_parse.
  destruct (parse_value _ _) as [v rest| |]; [|by left|done].
  destruct (skip_ws rest) eqn:Hr; [done|]. right. exists v, rest. by rewrite Hr.
Qed.

(** X6: the text that [JSON.stringify(v, null, 2)] writes is read back
    by [JSON.parse] as [v], for every value [v] whose numbers are safe
    integers: strings of arbitrary code units, nested arrays and
    objects. *)
Theorem JSON_stringify_then_parse (v : json Z) :
  safe_json v = true →
  JSON_parse (JSON_stringify v) = Some (as_parsed v).
Proof. intros _. apply JSON_parse_stringify. Qed.

Lemma JSON_stringify_then_parse_witness :
  let v := JObj [(str "id", JStr [34; 92; 10; 55357; 56832; 56832]%N);
                 (str "at", JArr [JNum (- MAX_SAFE_INTEGER)%Z; JNum 0%Z; JNull]);
                 (str "empty", JObj []);
                 (str "flags", JArr [JBool true; JArr []])] in
  safe_json v = true ∧ JSON_parse (JSON_stringify v) = Some (as_parsed v).
Proof.
  intros v.
  assert (Hsafe : safe_json v = true) by (vm_compute; reflexivity).
  split; [exact Hsafe|]. exact (JSON_stringify_then_parse v Hsafe).
Defined.
(* ===================================================================== *)
(** * Part III. Properties of the rest of the code                        *)
(* ===================================================================== *)

(** ** The store: queries, totals and what the calls keep *)



Lemma lookup_getChatHistory c h svc :
  chatHistories svc !! c = Some h → getChatHistory c svc = messages h.
Proof. intros H. unfold getChatHistory. by rewrite H. Qed.

(** The number of messages of a store, entry by entry. *)
Lemma getTotalMessages_insert (m : gmap jsstring ChatHistory) (L L' : Z)
    (c : jsstring) (h : ChatHistory) :
  getTotalMessages {| chatHistories := <[c := h]> m; maxHistoryLength := L |}
  + length (getChatHistory c {| chatHistories := m; maxHistoryLength := L' |})
  = getTotalMessages {| chatHistories := m; maxHistoryLength := L' |}
    + length (messages h).
Proof.
  unfold getTotalMessages, getChatHistory. simpl.
  assert (Hcomm : ∀ (m' : gmap jsstring ChatHistory) (j1 j2 : jsstring)
            (z1 z2 : ChatHistory) (y : nat),
            j1 ≠ j2 → m' !! j1 = Some z1 → m' !! j2 = Some z2 →
            y + length (messages z2) + length (messages z1)
            = y + length (messages z1) + length (messages z2)) by (intros; lia).
  destruct (m !! c) as [h0|] eqn:Hc.
  - rewrite <- (insert_delete_eq m c h).
    rewrite (map_fold_insert_L _ _ c h (delete c m));
      [|by apply Hcomm|by rewrite lookup_delete_eq].
    rewrite (map_fold_delete_L _ _ c h0 m); [|by apply Hcomm|done]. lia.
  - rewrite (map_fold_insert_L _ _ c h m); [|by apply Hcomm|done]. simpl. lia.
Qed.

Lemma getTotalMessages_bounds (a b : nat) (m : gmap jsstring ChatHistory) (L : Z) :
  (∀ c h, m !! c = Some h → a ≤ length (messages h) ≤ b) →
  a * size m ≤ getTotalMessages {| chatHistories := m; maxHistoryLength := L |}
  ≤ b * size m.
Proof.
  induction m as [|c h m Hc IH] using map_ind; intros Hall.
  - unfold getTotalMessages. simpl. rewrite map_fold_empty, map_size_empty. lia.
  - pose proof (getTotalMessages_insert m L L c h) as Hins.
    unfold getChatHistory in Hins. simpl in Hins. rewrite Hc in Hins. simpl in Hins.
    rewrite map_size_insert_None by done.
    pose proof (Hall c h (lookup_insert_eq m c h)) as Hh.
    assert (Hm : ∀ c' h', m !! c' = Some h' → a ≤ length (messages h') ≤ b).
    { intros c' h' Hc'. apply (Hall c'). rewrite lookup_insert_ne; [done|].
      intros ->. congruence. }
    specialize (IH Hm). nia.
Qed.

Lemma maxHistoryLength_perform call svc :
  maxHistoryLength (perform call svc) = maxHistoryLength svc.
Proof.
  destruct call as [now c msg|c|now daysOld]; simpl; [done|done|].
  by rewrite cleanupOldHistories_unfold.
Qed.

Lemma within_limit_perform call svc :
  (1 <= maxHistoryLength svc)%Z →
  within_limit svc → within_limit (perform call svc).
Proof.
  intros HL Hsvc c h. rewrite maxHistoryLength_perform.
  destruct call as [now c0 msg|c0|now daysOld]; cbn [perform].
  - destruct (decide (c0 = c)) as [->|Hne].
    + intros Hc. pose proof (lookup_getChatHistory _ _ _ Hc) as Hh.
      rewrite getChatHistory_addMessage_pos in Hh by done.
      split.
      * revert Hc. unfold addMessage. simpl. rewrite lookup_insert_eq.
        intros [= <-]. simpl.
        destruct (chatHistories svc !! c) as [h0|] eqn:Hc0; [|done].
        by apply (Hsvc c h0).
      * rewrite <- Hh, most_recent_length, length_app. simpl. lia.
    + unfold addMessage. simpl. rewrite lookup_insert_ne by done. apply Hsvc.
  - unfold clearChatHistory. simpl.
    intros [_ H]%lookup_delete_Some. by apply Hsvc.
  - rewrite cleanupOldHistories_unfold. simpl.
    intros [H _]%map_lookup_filter_Some. by apply Hsvc.
Qed.

Lemma within_limit_performAll calls0 svc :
  (1 <= maxHistoryLength svc)%Z →
  within_limit svc →
  maxHistoryLength (performAll calls0 svc) = maxHistoryLength svc
  ∧ within_limit (performAll calls0 svc).
Proof.
  revert svc. induction calls0 as [|call calls0 IH]; intros svc HL Hsvc; [done|].
  simpl. destruct (IH (perform call svc)) as [HL' Hin].
  - by rewrite maxHistoryLength_perform.
  - by apply within_limit_perform.
  - split; [|done]. by rewrite HL', maxHistoryLength_perform.
Qed.

Lemma within_limit_totals svc :
  within_limit svc →
  getTotalChats svc ≤ getTotalMessages svc
  ∧ (Z.of_nat (getTotalMessages svc)
     <= maxHistoryLength svc * Z.of_nat (getTotalChats svc))%Z.
Proof.
  intros Hsvc. destruct svc as [m L]. unfold within_limit in Hsvc. simpl in *.
  destruct (decide (0 <= L)%Z) as [HL|HL].
  - destruct (getTotalMessages_bounds 1 (Z.to_nat L) m L) as [Hlo Hhi].
    { intros c h Hc. destruct (Hsvc c h Hc) as [_ ?]. lia. }
    unfold getTotalChats. simpl. split; [lia|]. nia.
  - assert (m = ∅) as ->.
    { apply map_empty. intros c. destruct (m !! c) as [h|] eqn:Hc; [|done].
      destruct (Hsvc c h Hc) as [_ ?]. lia. }
    unfold getTotalChats, getTotalMessages. simpl.
    rewrite map_fold_empty, map_size_empty. lia.
Qed.

(** X7: on a store made with a limit of at least one, whatever calls of
    [addMessage], [clearChatHistory] and [cleanupOldHistories] are made,
    in whatever order and on whatever conversations: the limit is the
    one given, every history is stored under its own [chatId], holds at
    least one message and at most [maxHistoryLength], and so
    [getTotalMessages] lies between [getTotalChats] and
    [maxHistoryLength * getTotalChats]. *)
Theorem store_calls_keep_limit (L : Z) (calls0 : list StoreCall) :
  (1 <= L)%Z →
  maxHistoryLength (performAll calls0 (newChatHistoryService L)) = L
  ∧ within_limit (performAll calls0 (newChatHistoryService L))
  ∧ getTotalChats (performAll calls0 (newChatHistoryService L))
    ≤ getTotalMessages (performAll calls0 (newChatHistoryService L))
  ∧ (Z.of_nat (getTotalMessages (performAll calls0 (newChatHistoryService L)))
     <= L * Z.of_nat (getTotalChats (performAll calls0 (newChatHistoryService L))))%Z.
Proof.
  intros HL.
  destruct (within_limit_performAll calls0 (newChatHistoryService L)) as [HL' Hin].
  - done.
  - intros c h. simpl. by rewrite lookup_empty.
  - simpl in HL'. split; [done|]. split; [done|].
    destruct (within_limit_totals _ Hin) as [Hlo Hhi]. split; [done|].
    by rewrite HL' in Hhi.
Qed.

Lemma store_calls_keep_limit_witness :
  let calls0 :=
    [callAddMessage 1 (str "a") (textMessage "A" "u" "a" 1 "one");
     callAddMessage 2 (str "a") (textMessage "B" "u" "a" 2 "two");
     callAddMessage 3 (str "b") (textMessage "C" "u" "b" 3 "three");
     callClearChatHistory (str "b");
     callAddMessage 4 (str "a") (textMessage "D" "u" "a" 4 "four");
     callCleanupOldHistories 5 (Some 0%Z)] in
  (1 <= 2)%Z
  ∧ maxHistoryLength (performAll calls0 (newChatHistoryService 2)) = 2%Z
  ∧ getTotalChats (performAll calls0 (newChatHistoryService 2))
    ≤ getTotalMessages (performAll calls0 (newChatHistoryService 2)).
Proof.
  intros calls0. split; [lia|].
  destruct (store_calls_keep_limit 2 calls0 ltac:(lia)) as (H1 & _ & H2 & _).
  split; [exact H1|exact H2].
Defined.

Lemma addMessage_store now c msg svc :
  ∃ h, addMessage now c msg svc
       = {| chatHistories := <[c := h]> (chatHistories svc);
            maxHistoryLength := maxHistoryLength svc |}
       ∧ messages h = getChatHistory c (addMessage now c msg svc).
Proof.
  eexists. split; [reflexivity|].
  unfold getChatHistory, addMessage. simpl. by rewrite lookup_insert_eq.
Qed.

(** X8: how [addMessage] moves the two counters of a store whose limit
    is at least one.  A message for a conversation that holds fewer
    messages than the limit raises [getTotalMessages] by one; a message
    for a conversation that is full leaves it as it is (one message goes
    for the one that comes); [getTotalChats] goes up by one exactly when
    the conversation is new. *)
Theorem addMessage_counters (now : Z) (c : jsstring) (msg : WhatsAppMessage)
    (svc : ChatHistoryService) :
  (1 <= maxHistoryLength svc)%Z →
  ((Z.of_nat (length (getChatHistory c svc)) < maxHistoryLength svc)%Z →
     getTotalMessages (addMessage now c msg svc) = getTotalMessages svc + 1)
  ∧ (Z.of_nat (length (getChatHistory c svc)) = maxHistoryLength svc →
     getTotalMessages (addMessage now c msg svc) = getTotalMessages svc)
  ∧ getTotalChats (addMessage now c msg svc)
    = getTotalChats svc
      + match chatHistories svc !! c with Some _ => 0 | None => 1 end.
Proof.
  intros HL.
  destruct (addMessage_store now c msg svc) as (h & Hstore & Hh).
  pose proof (getTotalMessages_insert (chatHistories svc) (maxHistoryLength svc)
                (maxHistoryLength svc) c h) as Htotal.
  rewrite <- Hstore, Hh in Htotal.
  rewrite getChatHistory_addMessage_pos, most_recent_length, length_app in Htotal
    by done.
  simpl in Htotal.
  assert (Hsvc : {| chatHistories := chatHistories svc;
                    maxHistoryLength := maxHistoryLength svc |} = svc)
    by by destruct svc.
  rewrite Hsvc in Htotal.
  split; [intros Hlt; lia|]. split; [intros Hfull; lia|].
  unfold getTotalChats. rewrite Hstore. simpl.
  destruct (chatHistories svc !! c) as [h0|] eqn:Hc.
  - rewrite <- (insert_delete_eq (chatHistories svc)).
    rewrite map_size_insert_None by apply lookup_delete_eq.
    rewrite map_size_delete_Some by eauto.
    assert (size (chatHistories svc) ≠ 0); [|lia].
    intros Hz%map_size_empty_inv. rewrite Hz, lookup_empty in Hc. done.
  - rewrite map_size_insert_None by done. lia.
Qed.

Lemma addMessage_counters_witness :
  let svc := addMessages (str "chat")
               [(1%Z, textMessage "A" "u" "chat" 1 "a");
                (2%Z, textMessage "B" "u" "chat" 2 "b")]
               (newChatHistoryService 2) in
  let C := textMessage "C" "u" "chat" 3 "c" in
  (1 <= maxHistoryLength svc)%Z
  ∧ getTotalMessages (addMessage 3 (str "chat") C svc) = getTotalMessages svc
  ∧ getTotalMessages (addMessage 3 (str "other") C svc) = getTotalMessages svc + 1.
Proof.
  intros svc C.
  assert (HL : (1 <= maxHistoryLength svc)%Z) by (vm_compute; discriminate).
  split; [exact HL|]. split.
  - apply (addMessage_counters 3 (str "chat") C svc HL). reflexivity.
  - apply (addMessage_counters 3 (str "other") C svc HL). vm_compute. reflexivity.
Defined.

Lemma slice_drop {A} (l : list A) (n : Z) :
  (0 <= n)%Z → slice l n None = drop (Z.to_nat n) l.
Proof.
  intros Hn. unfold slice. rewrite relative_index_nonneg by done.
  destruct (Nat.min_spec (Z.to_nat n) (length l)) as [[Hlt ->]|[Hge ->]].
  - apply take_ge. rewrite length_drop. lia.
  - rewrite !drop_ge by lia. apply take_nil.
Qed.

Lemma getChatHistory_addMessage_negative now c msg svc :
  (maxHistoryLength svc < 0)%Z →
  getChatHistory c svc = [] →
  getChatHistory c (addMessage now c msg svc) = [].
Proof.
  intros HL Hnil. rewrite getChatHistory_addMessage, Hnil. cbv zeta.
  destruct (Z.gtb_spec (Z.of_nat (length ([] ++ [msg]))) (maxHistoryLength svc))
    as [_|Hle]; [|simpl in Hle; lia].
  rewrite slice_drop by lia. apply drop_ge. simpl. lia.
Qed.

(** X9: [clearChatHistory] forgets the conversation and nothing else.
    Afterwards the conversation reads as one that never was (no
    messages, no export, the statistics of an unknown conversation), the
    other conversations and the limit are untouched, clearing a
    conversation the store does not hold changes nothing, and the next
    message starts the history anew: after the next [addMessage] the
    history is this one message when the limit is not negative, and
    empty when it is. *)
Theorem clearChatHistory_forgets (c : jsstring) (svc : ChatHistoryService) :
  getChatHistory c (clearChatHistory c svc) = []
  ∧ (∀ layout, exportChatHistory layout c (clearChatHistory c svc) = None)
  ∧ getChatHistoryStats c (clearChatHistory c svc)
    = {| totalMessages := 0; lastMessageTime := None; averageMessageLength := 0 |}
  ∧ (∀ c', c' ≠ c →
       chatHistories (clearChatHistory c svc) !! c' = chatHistories svc !! c')
  ∧ maxHistoryLength (clearChatHistory c svc) = maxHistoryLength svc
  ∧ (chatHistories svc !! c = None → clearChatHistory c svc = svc)
  ∧ (∀ now msg,
       getChatHistory c (addMessage now c msg (clearChatHistory c svc))
       = if (0 <=? maxHistoryLength svc)%Z then [msg] else []).
Proof.
  assert (Hgone : chatHistories (clearChatHistory c svc) !! c = None)
    by apply lookup_delete_eq.
  assert (Hnil : getChatHistory c (clearChatHistory c svc) = [])
    by by apply getChatHistory_unknown.
  assert (HL : maxHistoryLength (clearChatHistory c svc) = maxHistoryLength svc)
    by done.
  split; [done|].
  split; [by intros layout; unfold exportChatHistory; rewrite Hgone|].
  split; [by unfold getChatHistoryStats; rewrite Hnil|].
  split; [intros c' Hne; by apply lookup_delete_ne|]. split; [done|]. split.
  - intros Hnone. destruct svc as [m L]. unfold clearChatHistory. simpl in *.
    by rewrite delete_id.
  - intros now msg. destruct (Z.leb_spec 0 (maxHistoryLength svc)) as [Hpos|Hneg].
    + destruct (decide (maxHistoryLength svc = 0%Z)) as [Hzero|Hnonzero].
      * rewrite getChatHistory_addMessage_zero by congruence. by rewrite Hnil.
      * rewrite getChatHistory_addMessage_pos by lia.
        rewrite Hnil. apply most_recent_all. simpl. lia.
    + apply getChatHistory_addMessage_negative; [lia|done].
Qed.

Example clearChatHistory_then_addMessage :
  let A := textMessage "A" "u" "chat" 1 "a" in
  let B := textMessage "B" "u" "chat" 2 "b" in
  let after (L : Z) :=
    getChatHistory (str "chat")
      (addMessage 3 (str "chat") B
         (clearChatHistory (str "chat")
            (addMessage 1 (str "chat") A (newChatHistoryService L)))) in
  after 50%Z = [B] ∧ after 0%Z = [B] ∧ after (-1)%Z = [].
Proof. vm_compute. done. Qed.




Example queries_example :
  let svc := addMessages (str "chat")
               [(1%Z, textMessage "A" "u" "chat" 10 "Book a FLIGHT");
                (2%Z, textMessage "B" "u" "chat" 20 "no thanks");
                (3%Z, textMessage "C" "u" "chat" 30 "flight booked")]
               (newChatHistoryService 50) in
  searchMessages toLowerCase_ascii (str "chat") (str "Flight") svc
  = [textMessage "A" "u" "chat" 10 "Book a FLIGHT";
     textMessage "C" "u" "chat" 30 "flight booked"]
  ∧ getMessagesByDateRange (str "chat") 20 30 svc
    = [textMessage "B" "u" "chat" 20 "no thanks";
       textMessage "C" "u" "chat" 30 "flight booked"]
  ∧ getMessagesByDateRange (str "chat") 30 20 svc = [].
Proof. vm_compute. repeat split; reflexivity. Qed.

Lemma fold_left_max (xs : list Z) (x : Z) :
  fold_left Z.max xs x ∈ x :: xs
  ∧ ∀ y, y ∈ x :: xs → (y <= fold_left Z.max xs x)%Z.
Proof.
  revert x. induction xs as [|z xs IH]; intros x; simpl.
  - split; [left|]. intros y ->%list_elem_of_singleton. lia.
  - destruct (IH (Z.max x z)) as [Hin Hmax]. split.
    + apply elem_of_cons in Hin as [Heq|Hin]; [|by do 2 right].
      rewrite Heq. destruct (Z.max_spec x z) as [[_ ->]|[_ ->]]; [right|]; left.
    + intros y Hy. apply elem_of_cons in Hy as [->|Hy].
      * etrans; [|apply Hmax; left]. lia.
      * apply elem_of_cons in Hy as [->|Hy].
        -- etrans; [|apply Hmax; left]. lia.
        -- apply Hmax. by right.
Qed.

Lemma fold_left_total_length (msgs : list WhatsAppMessage) (acc : Z) :
  fold_left (λ sum m, sum + Z.of_nat (length (content m)))%Z msgs acc
  = (acc + Z.of_nat (sum_list ((λ m, length (content m)) <$> msgs)))%Z.
Proof.
  revert acc. induction msgs as [|m msgs IH]; intros acc.
  - simpl. by rewrite Z.add_0_r.
  - change (fold_left _ (m :: msgs) acc)
      with (fold_left (λ sum m, sum + Z.of_nat (length (content m)))%Z msgs
                      (acc + Z.of_nat (length (content m)))%Z).
    rewrite IH. simpl. rewrite Nat2Z.inj_add, Z.add_assoc. reflexivity.
Qed.

(** X11: the statistics of a conversation that holds messages, no more
    of them than a call takes arguments ([Math.max] is called with one
    argument for each).  [totalMessages] is their number;
    [lastMessageTime] is the greatest of their timestamps (the timestamp
    of one of them, and not below any other); [averageMessageLength] is
    the integer nearest to the mean length of their contents in code
    units, a mean half-way between two integers going up. *)
Theorem getChatHistoryStats_of_history (c : jsstring) (svc : ChatHistoryService) :
  getChatHistory c svc ≠ [] →
  (Z.of_nat (length (getChatHistory c svc)) <= spread_limit)%Z →
  let msgs := getChatHistory c svc in
  let n := Z.of_nat (length msgs) in
  let total := Z.of_nat (sum_list ((λ m, length (content m)) <$> msgs)) in
  totalMessages (getChatHistoryStats c svc) = n
  ∧ (∃ latest, lastMessageTime (getChatHistoryStats c svc) = Some latest
               ∧ latest ∈ timestamp <$> msgs
               ∧ ∀ m, m ∈ msgs → (timestamp m <= latest)%Z)
  ∧ (2 * total - n < 2 * n * averageMessageLength (getChatHistoryStats c svc)
     <= 2 * total + n)%Z.
Proof.
  intros Hne _ msgs n total. unfold getChatHistoryStats. fold msgs.
  destruct msgs as [|m0 rest] eqn:Hmsgs; [done|].
  change (length (m0 :: rest) =? 0) with false. cbv iota. cbn [totalMessages
    lastMessageTime averageMessageLength].
  split; [done|]. split.
  - exists (fold_left Z.max (timestamp <$> rest) (timestamp m0)).
    destruct (fold_left_max (timestamp <$> rest) (timestamp m0)) as [Hin Hmax].
    split; [done|]. split; [done|].
    intros m Hm. apply Hmax. change (timestamp m ∈ timestamp <$> m0 :: rest).
    by apply list_elem_of_fmap_2.
  - rewrite fold_left_total_length, Z.add_0_l. fold total. unfold Math_round_div.
    assert (Hn : (0 < n)%Z) by (subst n; simpl; lia).
    pose proof (Z.div_mod (2 * total + n) (2 * n) ltac:(lia)) as Hdiv.
    pose proof (Z.mod_pos_bound (2 * total + n) (2 * n) ltac:(lia)) as Hmod.
    subst n. nia.
Qed.

Lemma getChatHistoryStats_of_history_witness :
  let svc := addMessages (str "chat")
               [(1%Z, textMessage "A" "u" "chat" 20 "abcd");
                (2%Z, textMessage "B" "u" "chat" 10 "abc")]
               (newChatHistoryService 50) in
  getChatHistory (str "chat") svc ≠ []
  ∧ (Z.of_nat (length (getChatHistory (str "chat") svc)) <= spread_limit)%Z
  ∧ totalMessages (getChatHistoryStats (str "chat") svc) = 2%Z.
Proof.
  intros svc.
  assert (H : getChatHistory (str "chat") svc ≠ []) by (vm_compute; discriminate).
  assert (Hfew : (Z.of_nat (length (getChatHistory (str "chat") svc))
                  <= spread_limit)%Z) by (vm_compute; discriminate).
  split; [exact H|]. split; [exact Hfew|].
  exact (proj1 (getChatHistoryStats_of_history (str "chat") svc H Hfew)).
Defined.

(** ** The store: edges *)

(** X12: what [getRecentMessages] and [getConversationContext] return,
    for every count.  They are the same function.  Without a count they
    return the last ten messages of the conversation; with a count of at
    least one, the last [count]; with a count of zero or less, all but
    the first [-count] messages (so every message for zero, and none
    once [-count] reaches the number of messages). *)
Theorem getConversationContext_window (c : jsstring) (count : option Z)
    (svc : ChatHistoryService) :
  getConversationContext c count svc = getRecentMessages c count svc
  ∧ getConversationContext c None svc = most_recent 10 (getChatHistory c svc)
  ∧ (∀ n, (1 <= n)%Z →
       getConversationContext c (Some n) svc
       = most_recent (Z.to_nat n) (getChatHistory c svc))
  ∧ (∀ n, (n <= 0)%Z →
       getConversationContext c (Some n) svc
       = drop (Z.to_nat (- n)) (getChatHistory c svc)).
Proof.
  split; [done|]. unfold getConversationContext. split; [|split].
  - change (default 10%Z None) with 10%Z.
    rewrite slice_last_most_recent by lia. done.
  - intros n Hn. change (default 10%Z (Some n)) with n.
    rewrite slice_last_most_recent by lia. done.
  - intros n Hn. change (default 10%Z (Some n)) with n.
    by rewrite slice_drop by lia.
Qed.

(** X13: a limit below zero.  On a store made with a negative limit
    every call of [addMessage] cuts the message it has just pushed: the
    conversation is created, and counted by [getTotalChats], but it
    never holds a message, so the model is given no history. *)
Theorem addMessage_negative_limit_stores_nothing (L : Z) (c : jsstring)
    (msgs : list (Z * WhatsAppMessage)) :
  (L < 0)%Z →
  getChatHistory c (addMessages c msgs (newChatHistoryService L)) = []
  ∧ getConversationContext c None (addMessages c msgs (newChatHistoryService L))
    = []
  ∧ (msgs ≠ [] →
     getTotalChats (addMessages c msgs (newChatHistoryService L)) = 1).
Proof.
  intros HL.
  assert (Hinv : ∀ svc, maxHistoryLength svc = L → getChatHistory c svc = [] →
            getChatHistory c (addMessages c msgs svc) = []
            ∧ dom (chatHistories (addMessages c msgs svc))
              = (if msgs is [] then ∅ else {[c]}) ∪ dom (chatHistories svc)).
  { induction msgs as [|[t m] msgs IH]; intros svc HLs Hnil.
    - simpl. split; [done|]. by rewrite (left_id_L ∅ (∪)).
    - simpl. destruct (IH (addMessage t c m svc)) as [Hh Hdom].
      + by rewrite maxHistoryLength_addMessage.
      + apply getChatHistory_addMessage_negative; [lia|done].
      + split; [done|]. rewrite Hdom.
        assert (dom (chatHistories (addMessage t c m svc))
                = {[c]} ∪ dom (chatHistories svc)) as ->
          by (unfold addMessage; simpl; apply dom_insert_L).
        destruct msgs as [|tm msgs].
        * by rewrite (left_id_L ∅ (∪)).
        * by rewrite (assoc_L (∪)), (idemp_L (∪)). }
  destruct (Hinv (newChatHistoryService L) eq_refl (getChatHistory_new L c))
    as [Hh Hdom].
  split; [done|]. split.
  - unfold getConversationContext. rewrite Hh. apply slice_nil.
  - intros Hne. unfold getTotalChats. rewrite <- size_dom, Hdom. simpl.
    rewrite dom_empty_L, (right_id_L ∅ (∪)).
    destruct msgs; [done|]. apply size_singleton.
Qed.

Lemma addMessage_negative_limit_stores_nothing_witness :
  let msgs := [(1%Z, textMessage "A" "u" "chat" 1 "a");
               (2%Z, textMessage "B" "u" "chat" 2 "b")] in
  (-1 < 0)%Z
  ∧ getChatHistory (str "chat")
      (addMessages (str "chat") msgs (newChatHistoryService (-1))) = [].
Proof.
  intros msgs. split; [lia|].
  exact (proj1 (addMessage_negative_limit_stores_nothing (-1) (str "chat") msgs
                  ltac:(lia))).
Defined.

(** X14: eviction, once more.  A second [cleanupOldHistories] at the
    same clock and with the same age removes nothing and returns zero;
    and a conversation that [addMessage] has touched at clock [touched]
    outlives every eviction whose cutoff is not after [touched]. *)
Theorem cleanupOldHistories_again (now : Z) (daysOld : option Z)
    (svc : ChatHistoryService) :
  cleanupOldHistories now daysOld (cleanupOldHistories now daysOld svc).1
  = ((cleanupOldHistories now daysOld svc).1, 0%Z)
  ∧ (∀ touched c msg,
       (now - default 30 daysOld * 24 * 60 * 60 * 1000 <= touched)%Z →
       getChatHistory c
         (cleanupOldHistories now daysOld (addMessage touched c msg svc)).1
       = getChatHistory c (addMessage touched c msg svc)).
Proof.
  split.
  - rewrite !cleanupOldHistories_unfold. cbv zeta. cbn [fst chatHistories
      maxHistoryLength].
    f_equal.
    + f_equal. apply map_filter_filter_r. auto.
    + change 0%Z with (Z.of_nat 0). f_equal. apply map_size_empty_iff.
      apply map_empty_filter. intros k h Hk.
      apply map_lookup_filter_Some in Hk as [_ Hnew]. exact Hnew.
  - intros touched c msg Hfresh. rewrite cleanupOldHistories_unfold.
    cbv zeta. cbn [fst]. unfold getChatHistory at 1. cbn [chatHistories].
    rewrite map_lookup_filter.
    pose proof (lastUpdated_addMessage touched c msg svc) as Hlast.
    unfold getChatHistory.
    destruct (chatHistories (addMessage touched c msg svc) !! c) as [h|];
      [|done].
    injection Hlast as Hlast. simpl. rewrite option_guard_True; [done|].
    simpl. lia.
Qed.

(** ** Import, continued *)

(** X15: what [importChatHistory] does, case by case.  It returns
    [false] exactly when the text carries no [chatId] equal to the one
    asked for (no JSON, no object, no such string), and then the store
    is the one it was.  Otherwise it returns [true]: the value read is
    stored under the [chatId] in the place of what was there, the other
    conversations and the limit are untouched; no check is made that the
    value is a history, so a text with the right [chatId] and nothing
    else is stored as well.  The value stored is the history that the
    text spells, where it spells one with safe integers for its
    numbers; it is the value of the text, whatever it is, otherwise. *)
Theorem importChatHistory_cases (c blob : jsstring) (svc : ChatHistoryService) :
  match importChatHistory c blob svc with
  | returned false svc' => svc' = svc ∧ embedded_chatId blob ≠ Some c
  | returned true svc' =>
      embedded_chatId blob = Some c
      ∧ ∃ parsed h, JSON_parse blob = Some parsed
                    ∧ history_of_json parsed = Some h
                    ∧ chatId h = c
                    ∧ chatHistories svc' = <[c := h]> (chatHistories svc)
                    ∧ maxHistoryLength svc' = maxHistoryLength svc
  | stored_untyped value others =>
      embedded_chatId blob = Some c
      ∧ (∃ parsed, JSON_parse blob = Some parsed
                   ∧ history_of_json parsed = None
                   ∧ value = JSON_value parsed)
      ∧ chatHistories others !! c = None
      ∧ (∀ c', c' ≠ c → chatHistories others !! c' = chatHistories svc !! c')
      ∧ maxHistoryLength others = maxHistoryLength svc
  end.
Proof.
  unfold embedded_chatId.
  destruct (JSON_parse blob) as [parsed|] eqn:Hparse;
    [|unfold importChatHistory; by rewrite Hparse].
  rewrite (importChatHistory_parsed _ _ _ _ Hparse).
  destruct (property "chatId" parsed) as [[| | |embedded| |]|] eqn:Hid;
    try done.
  simpl. destruct (decide (embedded = c)) as [->|Hne]; [|split; congruence].
  destruct (history_of_json parsed) as [h|] eqn:Hh.
  - split; [done|]. exists parsed, h. repeat split; try done.
    apply history_of_json_chatId in Hh. congruence.
  - split; [done|]. split; [by exists parsed|]. simpl.
    split; [apply lookup_delete_eq|]. split; [|done].
    intros c' Hc'. by apply lookup_delete_ne.
Qed.

Example importChatHistory_untyped :
  let kept := addMessage 1 (str "other") (textMessage "A" "u" "other" 1 "a")
                (newChatHistoryService 50) in
  importChatHistory (str "chat")
    (json_text "{'n': 0.5, 'chatId': 'x', '7': null, 'chatId': 'chat'}") kept
  = stored_untyped
      (JObj [(str "7", JNull);
             (str "n", JNum (nearest {| mantissa := 5; exponent := -1 |}));
             (str "chatId", JStr (str "chat"))])
      kept.
Proof. vm_compute. reflexivity. Qed.

Lemma importChatHistory_true (c blob : jsstring) (svc svc' : ChatHistoryService) :
  importChatHistory c blob svc = returned true svc' →
  ∃ h, chatId h = c
       ∧ chatHistories svc' = <[c := h]> (chatHistories svc)
       ∧ maxHistoryLength svc' = maxHistoryLength svc.
Proof.
  destruct (JSON_parse blob) as [parsed|] eqn:Hparse;
    [|unfold importChatHistory; by rewrite Hparse].
  rewrite (importChatHistory_parsed _ _ _ _ Hparse).
  destruct (property "chatId" parsed) as [[| | |embedded| |]|] eqn:Hid;
    try done.
  destruct (decide (embedded = c)) as [->|Hne]; [|done].
  destruct (history_of_json parsed) as [h|] eqn:Hh; [|done].
  intros [= <-]. exists h. split; [|done].
  apply history_of_json_chatId in Hh. congruence.
Qed.

Lemma most_recent_snoc_last {A} (n : nat) (l : list A) (x : A) :
  1 ≤ n → last (most_recent n (l ++ [x])) = Some x.
Proof.
  intros Hn. unfold most_recent. rewrite length_app. simpl.
  rewrite drop_app_le by lia. apply last_snoc.
Qed.

(** X16: an import does not cut the history it stores, the next
    [addMessage] does.  After a successful import into a store whose
    limit is at least one, one call of [addMessage] on this conversation
    leaves the most recent [maxHistoryLength] of the imported messages
    followed by the new one, so the history is within the limit again. *)
Theorem addMessage_after_import (c blob : jsstring) (svc svc' : ChatHistoryService)
    (now : Z) (msg : WhatsAppMessage) :
  importChatHistory c blob svc = returned true svc' →
  (1 <= maxHistoryLength svc)%Z →
  getChatHistory c (addMessage now c msg svc')
  = most_recent (Z.to_nat (maxHistoryLength svc)) (getChatHistory c svc' ++ [msg])
  ∧ (Z.of_nat (length (getChatHistory c (addMessage now c msg svc')))
     <= maxHistoryLength svc)%Z
  ∧ last (getChatHistory c (addMessage now c msg svc')) = Some msg.
Proof.
  intros Himport HL.
  destruct (importChatHistory_true _ _ _ _ Himport) as (h & _ & _ & HL').
  rewrite getChatHistory_addMessage_pos by lia. rewrite HL'.
  split; [done|]. split.
  - rewrite most_recent_length. lia.
  - apply most_recent_snoc_last. lia.
Qed.

Lemma addMessage_after_import_witness :
  let blob :=
    json_text "{'chatId':'chat','messages':[{'id':'1','from':'u','to':'chat','timestamp':1,'type':'text','content':'a','isGroup':false},{'id':'2','from':'u','to':'chat','timestamp':2,'type':'text','content':'b','isGroup':false}],'lastUpdated':9}" in
  let C := textMessage "3" "u" "chat" 3 "c" in
  ∃ svc',
    importChatHistory (str "chat") blob (newChatHistoryService 1)
    = returned true svc'
    ∧ (1 <= maxHistoryLength (newChatHistoryService 1))%Z
    ∧ length (getChatHistory (str "chat") svc') = 2
    ∧ getChatHistory (str "chat") (addMessage 10 (str "chat") C svc') = [C].
Proof.
  intros blob C.
  destruct (importChatHistory (str "chat") blob (newChatHistoryService 1))
    as [[|] svc'|value others] eqn:Himport;
    [|exfalso; vm_compute in Himport; discriminate..].
  exists svc'. split; [reflexivity|].
  assert (HL : (1 <= maxHistoryLength (newChatHistoryService 1))%Z)
    by (simpl; lia).
  split; [exact HL|].
  destruct (addMessage_after_import (str "chat") blob (newChatHistoryService 1)
              svc' 10 C Himport HL) as (Hcut & _ & _).
  vm_compute in Himport. injection Himport as <-.
  split; [reflexivity|]. rewrite Hcut. reflexivity.
Defined.

Lemma importChatHistory_true_safe (c blob : jsstring) (svc svc' : ChatHistoryService) :
  importChatHistory c blob svc = returned true svc' →
  ∃ h, chatId h = c ∧ safe_history h = true
       ∧ svc' = {| chatHistories := <[c := h]> (chatHistories svc);
                   maxHistoryLength := maxHistoryLength svc |}.
Proof.
  destruct (JSON_parse blob) as [parsed|] eqn:Hparse;
    [|unfold importChatHistory; by rewrite Hparse].
  rewrite (importChatHistory_parsed _ _ _ _ Hparse).
  destruct (property "chatId" parsed) as [[| | |embedded| |]|] eqn:Hid;
    try done.
  destruct (decide (embedded = c)) as [->|Hne]; [|done].
  destruct (history_of_json parsed) as [h|] eqn:Hh; [|done].
  intros [= <-]. exists h. split; [|split; [by apply (history_of_json_safe parsed)|done]].
  apply history_of_json_chatId in Hh. congruence.
Qed.

(** X17: exporting what an import stored as a history gives a text,
    whatever the order in which the stored objects hold their
    properties, that imports to the same store: into the store the
    first import started from, and, once more, into the one it left. *)
Theorem import_export_import (layout : Layout) (c blob : jsstring)
    (svc svc' : ChatHistoryService) :
  arranges layout →
  importChatHistory c blob svc = returned true svc' →
  ∃ blob', exportChatHistory layout c svc' = Some blob'
           ∧ importChatHistory c blob' svc = returned true svc'
           ∧ importChatHistory c blob' svc' = returned true svc'.
Proof.
  intros Hlayout Himport.
  destruct (importChatHistory_true_safe _ _ _ _ Himport) as (h & Hc & Hsafe & ->).
  unfold exportChatHistory. simpl. rewrite lookup_insert_eq.
  eexists. split; [done|]. split.
  - apply (importChatHistory_typed _ _ _ (as_parsed (history_to_json layout h)) h).
    + apply JSON_parse_stringify.
    + by apply history_of_json_to_json.
    + done.
  - rewrite (importChatHistory_typed _ _ _ (as_parsed (history_to_json layout h)) h).
    + simpl. by rewrite insert_insert_eq.
    + apply JSON_parse_stringify.
    + by apply history_of_json_to_json.
    + done.
Qed.

Lemma import_export_import_witness :
  let blob := json_text " { 'lastUpdated' : 7.0e0, 'chatId':'chat', 'messages':[] } " in
  let as_imported :=
    {| of_history := λ members, match members with
                                | [chatId0; messages0; lastUpdated0] =>
                                    [lastUpdated0; chatId0; messages0]
                                | _ => members
                                end;
       of_message := λ _ members, members |} in
  arranges as_imported
  ∧ ∃ svc',
    importChatHistory (str "chat") blob (newChatHistoryService 5)
    = returned true svc'
    ∧ ∃ blob', exportChatHistory as_imported (str "chat") svc' = Some blob'
               ∧ blob' ≠ blob
               ∧ startsWith blob'
                   ([123; 10; 32; 32]%N ++ json_text "'lastUpdated': 7,") = true
               ∧ importChatHistory (str "chat") blob' (newChatHistoryService 5)
                 = returned true svc'.
Proof.
  intros blob as_imported.
  assert (Hlayout : arranges as_imported).
  { split; [|done]. intros [|a [|b [|c [|d rest]]]]; simpl; try done.
    by rewrite (Permutation_app_comm [c] [a; b]). }
  split; [exact Hlayout|].
  destruct (importChatHistory (str "chat") blob (newChatHistoryService 5))
    as [[|] svc'|value others] eqn:Himport;
    [|exfalso; vm_compute in Himport; discriminate..].
  exists svc'. split; [reflexivity|].
  destruct (import_export_import as_imported (str "chat") blob
              (newChatHistoryService 5) svc' Hlayout Himport)
    as (blob' & Hexport & Hagain & _).
  exists blob'. split; [exact Hexport|].
  vm_compute in Himport. injection Himport as <-.
  vm_compute in Hexport. injection Hexport as <-.
  split; [vm_compute; discriminate|]. split; [vm_compute; reflexivity|exact Hagain].
Defined.

(** ** The transport: what reaches the orchestrator *)

Lemma nonempty_truthy (s : option jsstring) (s' : jsstring) :
  nonempty s = Some s' → s = Some s' ∧ truthy s' = true.
Proof.
  destruct s as [s0|]; [|done]. simpl.
  destruct (truthy s0) eqn:H; [|done]. by intros [= <-].
Qed.

Lemma default_nonempty (s : option jsstring) :
  default [] (nonempty s) = default [] s.
Proof. by destruct s as [[|c s]|]. Qed.

Lemma or_else_Some {A} (a b : option A) (x : A) :
  or_else a b = Some x → a = Some x ∨ (a = None ∧ b = Some x).
Proof. destruct a; simpl; [by left|by right]. Qed.

Lemma extractMessageContent_truthy message0 s :
  WhatsAppService.extractMessageContent message0 = Some s → truthy s = true.
Proof.
  destruct message0 as [m|]; [|done]. unfold WhatsAppService.extractMessageContent.
  intros H.
  repeat (apply or_else_Some in H as [H|[_ H]];
          [by apply nonempty_truthy in H as [_ ?]|]).
  by apply nonempty_truthy in H as [_ ?].
Qed.

Lemma parseMessage_Some now info m :
  WhatsAppService.parseMessage now info = Some m →
  WhatsAppService.extractMessageContent (WhatsAppService.message info)
  = Some (content m)
  ∧ to m = default [] (WhatsAppService.remoteJid (WhatsAppService.key info))
  ∧ isGroup m = endsWith (to m) (str "@g.us")
  ∧ groupId m = (if isGroup m then Some (to m) else None)
  ∧ from m = match nonempty (WhatsAppService.participant
                               (WhatsAppService.key info)) with
             | Some p => p
             | None => to m
             end.
Proof.
  unfold WhatsAppService.parseMessage. set (suffix := str "@g.us").
  destruct (WhatsAppService.extractMessageContent (WhatsAppService.message info))
    as [content0|] eqn:Hcontent; [|done].
  intros [= <-]. cbn [content to isGroup groupId from].
  split; [done|]. rewrite default_nonempty. split; [done|].
  destruct (WhatsAppService.remoteJid (WhatsAppService.key info)) as [jid|];
    cbn [default].
  - split; [done|]. split.
    + destruct (endsWith jid suffix) eqn:Hg; [|done].
      destruct jid as [|c jid]; [by vm_compute in Hg|done].
    + destruct (nonempty (WhatsAppService.participant (WhatsAppService.key info)));
        [done|]. cbn [or_else]. by destruct jid.
  - split; [done|]. split; [done|].
    by destruct (nonempty (WhatsAppService.participant (WhatsAppService.key info))).
Qed.

(** X18: what [parseMessage] makes of a message of the transport.  It
    returns a message exactly when the payload carries a text that is
    not empty (the conversation, the text of an extended text message,
    the caption of an image or of a video, the title of a document, in
    this order), and this text is the content; a payload without one (an
    audio, a location, a contact, an image without caption) gives
    [null].  Of the message returned: [to] is the [remoteJid]; [isGroup]
    says that it ends with "@g.us", and then [groupId] is this jid, and
    is absent otherwise; [from] is the participant when there is one,
    and the [remoteJid] otherwise. *)
Theorem parseMessage_result (now : Z) (info : WhatsAppService.IWebMessageInfo) :
  let key0 := WhatsAppService.key info in
  match WhatsAppService.parseMessage now info with
  | Some m =>
      WhatsAppService.extractMessageContent (WhatsAppService.message info)
      = Some (content m)
      ∧ truthy (content m) = true
      ∧ to m = default [] (WhatsAppService.remoteJid key0)
      ∧ isGroup m = endsWith (to m) (str "@g.us")
      ∧ groupId m = (if isGroup m then Some (to m) else None)
      ∧ from m = match nonempty (WhatsAppService.participant key0) with
                 | Some p => p
                 | None => to m
                 end
  | None =>
      match WhatsAppService.message info with
      | Some payload =>
          nonempty (WhatsAppService.conversation payload) = None
          ∧ nonempty (mjoin (WhatsAppService.extendedTextMessage payload)) = None
          ∧ nonempty (mjoin (WhatsAppService.imageMessage payload)) = None
          ∧ nonempty (mjoin (WhatsAppService.videoMessage payload)) = None
          ∧ nonempty (mjoin (WhatsAppService.documentMessage payload)) = None
      | None => True
      end
  end.
Proof.
  intros key0.
  destruct (WhatsAppService.parseMessage now info) as [m|] eqn:Hparse.
  - destruct (parseMessage_Some _ _ _ Hparse) as (Hc & Hto & Hg & Hid & Hfrom).
    split; [done|].
    split; [by apply extractMessageContent_truthy in Hc|done].
  - unfold WhatsAppService.parseMessage in Hparse.
    destruct (WhatsAppService.extractMessageContent (WhatsAppService.message info))
      as [content0|] eqn:Hcontent; [done|].
    destruct (WhatsAppService.message info) as [payload|]; [|done].
    unfold WhatsAppService.extractMessageContent in Hcontent.
    destruct (nonempty (WhatsAppService.conversation payload)); [done|].
    destruct (nonempty (mjoin (WhatsAppService.extendedTextMessage payload))); [done|].
    destruct (nonempty (mjoin (WhatsAppService.imageMessage payload))); [done|].
    destruct (nonempty (mjoin (WhatsAppService.videoMessage payload))); [done|].
    by destruct (nonempty (mjoin (WhatsAppService.documentMessage payload))).
Qed.

Example parseMessage_voice_note :
  WhatsAppService.parseMessage 5
    {| WhatsAppService.key :=
         {| WhatsAppService.remoteJid := Some (str "491700000000@s.whatsapp.net");
            WhatsAppService.fromMe := Some false;
            WhatsAppService.key_id := Some (str "ABCD");
            WhatsAppService.participant := None |};
       WhatsAppService.message :=
         Some {| WhatsAppService.conversation := None;
                 WhatsAppService.extendedTextMessage := None;
                 WhatsAppService.imageMessage := None;
                 WhatsAppService.videoMessage := None;
                 WhatsAppService.audioMessage := true;
                 WhatsAppService.documentMessage := None;
                 WhatsAppService.locationMessage := false;
                 WhatsAppService.contactMessage := false |};
       WhatsAppService.messageTimestamp := Some 1700000000%Z;
       WhatsAppService.pushName := Some (str "Ana") |}
  = None.
Proof. reflexivity. Qed.

(** X19: in a conversation of two (a message without participant) the
    message of the user and the reply of the bot have the same [from]:
    [parseMessage] gives the message the [remoteJid] as [from] and as
    [to], and the reply takes its [from] from the [to] of the message.
    So the context builder gives both the same role, whatever the
    jid. *)
Theorem private_chat_roles_coincide (parsedAt : Z)
    (info : WhatsAppService.IWebMessageInfo) (m : WhatsAppMessage)
    (env : Env) (response : jsstring) :
  WhatsAppService.parseMessage parsedAt info = Some m →
  nonempty (WhatsAppService.participant (WhatsAppService.key info)) = None →
  from m = to m
  ∧ from (botMessage env m response) = from m
  ∧ role_of (botMessage env m response) = role_of m.
Proof.
  intros Hparse Hnone.
  destruct (parseMessage_Some _ _ _ Hparse) as (_ & _ & _ & _ & Hfrom).
  rewrite Hnone in Hfrom.
  split; [done|]. unfold role_of. simpl. by rewrite Hfrom.
Qed.

Lemma private_chat_roles_coincide_witness :
  let info :=
    {| WhatsAppService.key :=
         {| WhatsAppService.remoteJid := Some (str "491700000000@s.whatsapp.net");
            WhatsAppService.fromMe := Some false;
            WhatsAppService.key_id := Some (str "ABCD");
            WhatsAppService.participant := None |};
       WhatsAppService.message :=
         Some {| WhatsAppService.conversation := Some (str "hello");
                 WhatsAppService.extendedTextMessage := None;
                 WhatsAppService.imageMessage := None;
                 WhatsAppService.videoMessage := None;
                 WhatsAppService.audioMessage := false;
                 WhatsAppService.documentMessage := None;
                 WhatsAppService.locationMessage := false;
                 WhatsAppService.contactMessage := false |};
       WhatsAppService.messageTimestamp := Some 1700000000%Z;
       WhatsAppService.pushName := Some (str "Ana") |} in
  ∃ m, WhatsAppService.parseMessage 5 info = Some m
       ∧ role_of m = assistant
       ∧ role_of (botMessage (calm 9) m (str "hi")) = assistant.
Proof.
  intros info. eexists. split; [reflexivity|].
  match goal with
  | |- role_of ?m = _ ∧ _ =>
      destruct (private_chat_roles_coincide 5 info m (calm 9) (str "hi")
                  eq_refl eq_refl) as (_ & _ & Hrole)
  end.
  split; [|rewrite Hrole]; vm_compute; reflexivity.
Defined.

(** ** The orchestrator: what a flight leaves *)

Lemma last_getChatHistory_addMessage now c msg svc :
  (0 <= maxHistoryLength svc)%Z →
  last (getChatHistory c (addMessage now c msg svc)) = Some msg.
Proof.
  intros HL. destruct (decide (maxHistoryLength svc = 0%Z)) as [Hz|Hnz].
  - rewrite getChatHistory_addMessage_zero by done. apply last_snoc.
  - rewrite getChatHistory_addMessage_pos by lia.
    apply most_recent_snoc_last. lia.
Qed.

Lemma chatHistoryService_afterSendMessage env msg response s :
  chatHistoryService (afterSendMessage env msg response (inl true) s)
  = addMessage (now env) (to msg) (botMessage env msg response)
      (chatHistoryService s).
Proof.
  unfold afterSendMessage, broadcast.
  destruct (throws env _); [|done].
  by destruct (catch_finally_exit env l
                 (on_history (addMessage (now env) (to msg)
                                (botMessage env msg response)) s))
    as (_ & _ & ->).
Qed.

(** X20: the reply to a message of a group.  When the message has a
    participant, [parseMessage] gives it the participant as [from] and
    the jid of the group as [to]; so the reply is sent to the
    participant, not to the group, while the message built for it, from
    the group to the participant, goes to the history of the group:
    when the send succeeded and the limit of the store is not negative,
    it is the last message there. *)
Theorem group_reply_goes_to_participant (parsedAt : Z)
    (info : WhatsAppService.IWebMessageInfo) (m : WhatsAppMessage)
    (p : jsstring) (env : Env) (response : jsstring) (s : ChatbotService) :
  WhatsAppService.parseMessage parsedAt info = Some m →
  nonempty (WhatsAppService.participant (WhatsAppService.key info)) = Some p →
  (0 <= maxHistoryLength (chatHistoryService s))%Z →
  let group := default [] (WhatsAppService.remoteJid (WhatsAppService.key info)) in
  calls (afterDelay m response s) = calls s ++ [sendMessage p response]
  ∧ ∃ stored,
      last (getChatHistory group
              (chatHistoryService (afterSendMessage env m response (inl true) s)))
      = Some stored
      ∧ from stored = group
      ∧ to stored = p
      ∧ content stored = response
      ∧ senderName stored = Some (str "AI Assistant").
Proof.
  intros Hparse Hp HL group.
  destruct (parseMessage_Some _ _ _ Hparse) as (_ & Hto & _ & _ & Hfrom).
  rewrite Hp in Hfrom. fold group in Hto.
  split; [by unfold afterDelay; simpl; rewrite Hfrom|].
  exists (botMessage env m response).
  split; [|by rewrite <- Hto, <- Hfrom].
  rewrite chatHistoryService_afterSendMessage, Hto.
  by apply last_getChatHistory_addMessage.
Qed.

Lemma group_reply_goes_to_participant_witness :
  let info :=
    {| WhatsAppService.key :=
         {| WhatsAppService.remoteJid := Some (str "120363000000000000@g.us");
            WhatsAppService.fromMe := Some false;
            WhatsAppService.key_id := Some (str "ABCD");
            WhatsAppService.participant :=
              Some (str "5511999990000@s.whatsapp.net") |};
       WhatsAppService.message :=
         Some {| WhatsAppService.conversation := Some (str "hello bot");
                 WhatsAppService.extendedTextMessage := None;
                 WhatsAppService.imageMessage := None;
                 WhatsAppService.videoMessage := None;
                 WhatsAppService.audioMessage := false;
                 WhatsAppService.documentMessage := None;
                 WhatsAppService.locationMessage := false;
                 WhatsAppService.contactMessage := false |};
       WhatsAppService.messageTimestamp := Some 1700000000%Z;
       WhatsAppService.pushName := Some (str "Ana") |} in
  let s := newChatbotService (newChatHistoryService 50) 1000 in
  ∃ m, WhatsAppService.parseMessage 5 info = Some m
       ∧ calls (afterDelay m (str "hello Ana") s)
         = [sendMessage (str "5511999990000@s.whatsapp.net") (str "hello Ana")].
Proof.
  intros info s. eexists. split; [reflexivity|].
  match goal with
  | |- calls (afterDelay ?m _ _) = _ =>
      exact (proj1 (group_reply_goes_to_participant 5 info m
                      (str "5511999990000@s.whatsapp.net") (calm 9)
                      (str "hello Ana") s eq_refl eq_refl ltac:(simpl; lia)))
  end.
Defined.

Lemma join_snoc (sep : jsstring) (xs : list jsstring) (x : jsstring) :
  ∃ before, join sep (xs ++ [x]) = before ++ x.
Proof.
  induction xs as [|y xs [before IH]]; [by exists []|].
  exists (y ++ sep ++ before).
  change ((y :: xs) ++ [x]) with (y :: (xs ++ [x])).
  destruct (xs ++ [x]) as [|z rest] eqn:Hx; [by destruct xs|].
  rewrite join_cons, IH. by rewrite <- !app_assoc.
Qed.

Lemma buildConversationContext_snoc (l : list WhatsAppMessage) (msg : WhatsAppMessage) :
  truthy (trim (content msg)) = true →
  ∃ before, buildConversationContext (l ++ [msg])
            = before ++ [(role_of msg, content msg)].
Proof.
  intros Hmsg. rewrite buildConversationContext_turns.
  unfold most_recent. rewrite length_app. simpl.
  rewrite drop_app_le by lia. rewrite filter_app, fmap_app.
  rewrite filter_cons, decide_True by done. by eexists.
Qed.

(** X21: the message that is being answered reaches the model twice.
    When a message whose content is not blank is accepted (the service
    is idle, the event channel takes the message, the store has a limit
    that is not negative), the history handed to [generateResponse] has
    been read after the message was appended, so the message is its
    last element;
    the request to OpenAI then ends with the turn of this message
    followed by the same content as the final turn of the user, and the
    prompt for Gemini ends with the line of this message followed by
    the same content on the line of the user. *)
Theorem request_repeats_inbound_message (env : Env) (msg : WhatsAppMessage)
    (s : ChatbotService) (config : AIService.AIServiceConfig) :
  isProcessing s = false →
  throws env (sendMessageReceived msg) = None →
  (0 <= maxHistoryLength (chatHistoryService s))%Z →
  truthy (trim (content msg)) = true →
  ∃ chatHistory,
    calls (handleIncomingMessage env msg s)
    = calls s ++ [sendMessageReceived msg;
                  generateResponse (content msg) chatHistory]
    ∧ last chatHistory = Some msg
    ∧ (∃ before,
         AIService.chatMessages config (content msg) chatHistory
         = before ++ [(AIService.role_name (role_of msg), content msg);
                      (str "user", content msg)])
    ∧ (∃ before,
         AIService.geminiPrompt config (content msg) chatHistory
         = before ++ AIService.turn_line (role_of msg, content msg)
           ++ [10%N] ++ str "User: " ++ content msg ++ [10%N] ++ str "Bot:").
Proof.
  intros Hidle Hcalm HL Hmsg.
  unfold handleIncomingMessage, broadcast. rewrite Hidle, Hcalm.
  eexists.
  split; [cbn [calls suspend call on_history set_isProcessing];
          by rewrite <- app_assoc|].
  cbn [chatHistoryService suspend call on_history set_isProcessing].
  set (stored := getChatHistory (to msg)
                   (addMessage (now env) (to msg) msg (chatHistoryService s))).
  assert (Hlast : last stored = Some msg)
    by by apply last_getChatHistory_addMessage.
  apply last_Some in Hlast as [older Hstored].
  unfold getConversationContext. fold stored. cbn [default].
  rewrite slice_last_most_recent by lia.
  rewrite Hstored. unfold most_recent. rewrite length_app. cbn [length].
  rewrite drop_app_le by lia.
  set (l := drop _ older).
  destruct (buildConversationContext_snoc l msg Hmsg) as [turns Hturns].
  split; [apply last_snoc|]. split.
  - unfold AIService.chatMessages. cbv zeta. rewrite Hturns, fmap_app.
    exists ([(str "system", AIService.systemPrompt config)]
            ++ ((λ turn, (AIService.role_name turn.1, turn.2)) <$> turns)).
    rewrite <- !app_assoc. reflexivity.
  - unfold AIService.geminiPrompt. cbv zeta. rewrite Hturns, fmap_app.
    change (AIService.turn_line <$> [(role_of msg, content msg)])
      with [AIService.turn_line (role_of msg, content msg)].
    destruct (join_snoc [10%N] (AIService.turn_line <$> turns)
                (AIService.turn_line (role_of msg, content msg)))
      as [before Hjoin].
    rewrite Hjoin. exists (AIService.systemPrompt config ++ [10%N] ++ before).
    rewrite <- !app_assoc. reflexivity.
Qed.

Lemma request_repeats_inbound_message_witness :
  let msg := textMessage "M1" "491700000000@s.whatsapp.net"
               "491700000000@s.whatsapp.net" 1 "hello" in
  let s := newChatbotService (newChatHistoryService 50) 1000 in
  let config :=
    {| AIService.provider := AIService.openai;
       AIService.apiKey := str "key";
       AIService.model := str "gpt-3.5-turbo";
       AIService.maxTokens := 150;
       AIService.temperature := 7 # 10;
       AIService.systemPrompt := str "Be brief." |} in
  isProcessing s = false
  ∧ truthy (trim (content msg)) = true
  ∧ ∃ chatHistory,
      last chatHistory = Some msg
      ∧ ∃ before,
          AIService.chatMessages config (content msg) chatHistory
          = before ++ [(str "assistant", str "hello"); (str "user", str "hello")].
Proof.
  intros msg s config. split; [reflexivity|]. split; [reflexivity|].
  destruct (request_repeats_inbound_message (calm 10) msg s config
              eq_refl eq_refl ltac:(simpl; lia) eq_refl)
    as (chatHistory & _ & Hlast & Hrequest & _).
  exists chatHistory. split; [exact Hlast|exact Hrequest].
Defined.

(** A message whose content is blank is accepted and stored like any
    other, but the context leaves it out: it reaches the model once. *)
Example blank_message_reaches_model_once :
  let msg := textMessage "M1" "u" "chat" 1 " " in
  let s := newChatbotService (newChatHistoryService 50) 1000 in
  let config :=
    {| AIService.provider := AIService.openai;
       AIService.apiKey := str "key";
       AIService.model := str "gpt-3.5-turbo";
       AIService.maxTokens := 150;
       AIService.temperature := 7 # 10;
       AIService.systemPrompt := str "Be brief." |} in
  calls (handleIncomingMessage (calm 10) msg s)
  = [sendMessageReceived msg; generateResponse (str " ") [msg]]
  ∧ AIService.chatMessages config (str " ") [msg]
    = [(str "system", str "Be brief."); (str "user", str " ")].
Proof. vm_compute. done. Qed.




(** X23: from the transport to the store.  Of a batch of the transport
    only the first message is looked at; it is handed to the
    orchestrator when it is not the account's own, has a payload, and
    carries a text.  When the orchestrator is idle, the event channel
    takes the message and the store has a limit that is not negative,
    the message handed over becomes the last message of the
    conversation named by its [remoteJid], whose [lastUpdated] is the
    clock, and the flag is set; a batch that hands nothing over changes
    nothing. *)
Theorem delivered_message_is_stored (parsedAt : Z) (env : Env)
    (batch : list WhatsAppService.IWebMessageInfo) (s : ChatbotService) :
  match WhatsAppService.onMessagesUpsert parsedAt batch with
  | None => deliver parsedAt env batch s = s
  | Some m =>
      (∃ info rest,
         batch = info :: rest
         ∧ WhatsAppService.fromMe (WhatsAppService.key info) ≠ Some true
         ∧ WhatsAppService.parseMessage parsedAt info = Some m
         ∧ to m = default [] (WhatsAppService.remoteJid (WhatsAppService.key info)))
      ∧ truthy (content m) = true
      ∧ (isProcessing s = false →
         throws env (sendMessageReceived m) = None →
         (0 <= maxHistoryLength (chatHistoryService s))%Z →
         last (getChatHistory (to m)
                 (chatHistoryService (deliver parsedAt env batch s)))
         = Some m
         ∧ lastUpdated
             <$> chatHistories (chatHistoryService (deliver parsedAt env batch s))
                 !! to m
           = Some (now env)
         ∧ isProcessing (deliver parsedAt env batch s) = true)
  end.
Proof.
  unfold deliver.
  destruct (WhatsAppService.onMessagesUpsert parsedAt batch) as [m|] eqn:Hup;
    [|done].
  unfold WhatsAppService.onMessagesUpsert in Hup.
  destruct batch as [|info rest]; [done|].
  destruct (WhatsAppService.fromMe (WhatsAppService.key info)) as [[|]|] eqn:Hme;
    try done;
    (destruct (present (WhatsAppService.message info)); [|done]); simpl in Hup;
    destruct (parseMessage_Some _ _ _ Hup) as (Hcontent & Hto & _);
    (split; [exists info, rest; by rewrite Hme|]);
    (split; [by apply extractMessageContent_truthy in Hcontent|]);
    intros Hidle Hcalm HL;
    unfold handleIncomingMessage, broadcast; rewrite Hidle, Hcalm;
    cbn [chatHistoryService isProcessing suspend call on_history set_isProcessing];
    (split; [by apply last_getChatHistory_addMessage|]);
    (split; [apply lastUpdated_addMessage|done]).
Qed.

(** ** The model: requests and replies *)

Lemma buildConversationContext_not_blank (chatHistory : list WhatsAppMessage) :
  Forall (λ turn, truthy (trim turn.2) = true)
         (buildConversationContext chatHistory).
Proof.
  rewrite buildConversationContext_turns. apply Forall_fmap, Forall_forall.
  intros msg Hin. by apply list_elem_of_filter in Hin as [? _].
Qed.

(** X24: the request to OpenAI.  Its messages are the system prompt,
    then the turns of the history, then the message to answer as a turn
    of the user.  There are at most ten turns in between (so at most
    twelve messages), each with the role "user" or "assistant" and a
    content that is not blank. *)
Theorem chatMessages_shape (config : AIService.AIServiceConfig)
    (message0 : jsstring) (chatHistory : list WhatsAppMessage) :
  ∃ turns,
    AIService.request_messages
      (AIService.completionRequest config message0 chatHistory)
    = (str "system", AIService.systemPrompt config) :: turns
      ++ [(str "user", message0)]
    ∧ length turns ≤ 10
    ∧ length turns = length (buildConversationContext chatHistory)
    ∧ Forall (λ turn, (turn.1 = str "user" ∨ turn.1 = str "assistant")
                      ∧ truthy (trim turn.2) = true) turns.
Proof.
  eexists. split; [reflexivity|]. rewrite length_fmap.
  split; [apply buildConversationContext_length|]. split; [done|].
  apply Forall_fmap.
  eapply Forall_impl; [apply buildConversationContext_not_blank|].
  intros [[|] body] Hbody; simpl in *; split; auto.
Qed.

Lemma extractContext_length toLowerCase (chatHistory : list WhatsAppMessage) :
  length (extractContext toLowerCase chatHistory) ≤ 5.
Proof. rewrite extractContext_unfold, length_take. lia. Qed.

Lemma reply_text_truthy (text0 : option (json decimal)) (s : jsstring) :
  AIService.reply_text text0 = inl s → truthy s = true.
Proof.
  destruct text0 as [[|[|]|d|s'|items|members]|]; simpl; try done;
    try (by intros [= <-]).
  - by destruct (mantissa d =? 0)%Z; [intros [= <-]|].
  - by destruct (truthy s') eqn:H; intros [= <-].
Qed.

Lemma generateResponse_message_truthy (toLowerCase : jsstring → jsstring)
    (nullReadError : jsstring) (config : AIService.AIServiceConfig) (now : Z)
    (chatHistory : list WhatsAppMessage) (answers : AIService.Answers)
    (response : AIResponse) :
  AIService.generateResponse toLowerCase nullReadError config now chatHistory
    answers = AIService.replied response →
  truthy (message response) = true.
Proof.
  unfold AIService.generateResponse.
  destruct (AIService.provider config).
  - unfold AIService.generateOpenAIResponse.
    destruct (AIService.completion answers) as [completion|thrown]; [|done].
    intros [= <-]. cbn [message].
    destruct (nonempty _) as [s|] eqn:Hs; [|done].
    by apply nonempty_truthy in Hs as [_ ?].
  - unfold AIService.generateGeminiResponse.
    destruct (AIService.fetched answers) as [thrown|status [errorText|thrown]
                                            |[data|thrown]]; try done.
    destruct data; try done;
      (destruct (AIService.reply_text _) as [aiMessage|other] eqn:Htext; [|done]);
      intros [= <-]; by apply reply_text_truthy in Htext.
Qed.

(** X25: a response of [generateResponse] never has an empty message:
    where the service gave no text (no choice, no message, no content,
    an empty content; no candidate, no part, an empty text) the message
    is the apology.  Its [context] has at most five topics, its
    [timestamp] is the clock, and its [confidence] is one of 0.9, 0.7,
    0.5 and 0.6, always 0.9 with Gemini. *)
Theorem generateResponse_reply (toLowerCase : jsstring → jsstring)
    (nullReadError : jsstring) (config : AIService.AIServiceConfig) (now : Z)
    (chatHistory : list WhatsAppMessage) (answers : AIService.Answers)
    (response : AIResponse) :
  AIService.generateResponse toLowerCase nullReadError config now chatHistory
    answers = AIService.replied response →
  truthy (message response) = true
  ∧ context response = extractContext toLowerCase chatHistory
  ∧ length (context response) ≤ 5
  ∧ producedAt response = now
  ∧ confidence response ∈ [9 # 10; 7 # 10; 5 # 10; 6 # 10]
  ∧ (AIService.provider config = AIService.gemini →
     confidence response = 9 # 10).
Proof.
  unfold AIService.generateResponse.
  destruct (AIService.provider config) eqn:Hprovider.
  - unfold AIService.generateOpenAIResponse.
    destruct (AIService.completion answers) as [completion|thrown]; [|done].
    intros [= <-]. cbn [message context producedAt confidence].
    split.
    { destruct (nonempty _) as [s|] eqn:Hs; [|done].
      by apply nonempty_truthy in Hs as [_ ?]. }
    split; [done|]. split; [apply extractContext_length|]. split; [done|].
    split; [|done]. unfold AIService.calculateConfidence.
    repeat case_decide; set_solver.
  - unfold AIService.generateGeminiResponse.
    destruct (AIService.fetched answers) as [thrown|status [errorText|thrown]
                                            |[data|thrown]]; try done.
    assert (∀ data', match AIService.reply_text (AIService.candidate_text data') with
                     | inl aiMessage =>
                         AIService.replied
                           {| message := aiMessage; confidence := 9 # 10;
                              context := extractContext toLowerCase chatHistory;
                              producedAt := now |}
                     | inr other => AIService.replied_untyped other
                     end = AIService.replied response →
            truthy (message response) = true
            ∧ context response = extractContext toLowerCase chatHistory
            ∧ length (context response) ≤ 5
            ∧ producedAt response = now
            ∧ confidence response ∈ [9 # 10; 7 # 10; 5 # 10; 6 # 10]
            ∧ (AIService.gemini = AIService.gemini → confidence response = 9 # 10))
      as Hdata.
    { intros data'.
      destruct (AIService.reply_text (AIService.candidate_text data'))
        as [aiMessage|other] eqn:Htext; [|done].
      intros [= <-]. cbn [message context producedAt confidence].
      split; [by apply reply_text_truthy in Htext|]. split; [done|].
      split; [apply extractContext_length|]. split; [done|]. split; [|done].
      set_solver. }
    destruct data; try done; apply Hdata.
Qed.

Lemma generateResponse_reply_witness :
  let config :=
    {| AIService.provider := AIService.gemini;
       AIService.apiKey := str "key";
       AIService.model := str "gemini-pro";
       AIService.maxTokens := 150;
       AIService.temperature := 7 # 10;
       AIService.systemPrompt := str "Be brief." |} in
  let answers :=
    {| AIService.completion := inr None;
       AIService.fetched :=
         AIService.response_ok (inl (JObj [(str "candidates", JArr [])])) |} in
  ∃ response,
    AIService.generateResponse toLowerCase_ascii (str "null") config 7 [] answers
    = AIService.replied response
    ∧ message response = AIService.apology
    ∧ truthy (message response) = true.
Proof.
  intros config answers. eexists. split; [reflexivity|]. split; [reflexivity|].
  match goal with
  | |- truthy (message ?r) = true =>
      exact (proj1 (generateResponse_reply toLowerCase_ascii (str "null")
                      config 7 [] answers r eq_refl))
  end.
Defined.

(** X26: the error of [generateResponse].  When the promise is rejected,
    it is with an [Error] whose message names the service: "Failed to
    generate OpenAI response: " or "Failed to generate Gemini response:
    ", followed by the message of what was thrown ("Unknown error" when
    it was no [Error]).  For a response of Gemini that is not [ok] this
    is "Gemini API error: ", the status, " - " and the text of the
    response. *)
Theorem generateResponse_failure (toLowerCase : jsstring → jsstring)
    (nullReadError : jsstring) (config : AIService.AIServiceConfig) (now : Z)
    (chatHistory : list WhatsAppMessage) (answers : AIService.Answers)
    (error : jsstring) :
  AIService.generateResponse toLowerCase nullReadError config now chatHistory
    answers = AIService.failed error →
  match AIService.provider config with
  | AIService.openai =>
      ∃ thrown, AIService.completion answers = inr thrown
                ∧ error = str "Failed to generate OpenAI response: "
                          ++ error_message thrown
  | AIService.gemini =>
      ∃ detail, error = str "Failed to generate Gemini response: " ++ detail
                ∧ match AIService.fetched answers with
                  | AIService.fetch_rejected thrown =>
                      detail = error_message thrown
                  | AIService.response_not_ok status (inl errorText) =>
                      detail = str "Gemini API error: " ++ Number_toString status
                               ++ str " - " ++ errorText
                  | AIService.response_not_ok status (inr thrown) =>
                      detail = error_message thrown
                  | AIService.response_ok (inr thrown) =>
                      detail = error_message thrown
                  | AIService.response_ok (inl data) =>
                      data = JNull ∧ detail = nullReadError
                  end
  end.
Proof.
  unfold AIService.generateResponse.
  destruct (AIService.provider config).
  - unfold AIService.generateOpenAIResponse.
    destruct (AIService.completion answers) as [completion|thrown]; [done|].
    intros [= <-]. by exists thrown.
  - unfold AIService.generateGeminiResponse.
    destruct (AIService.fetched answers) as [thrown|status [errorText|thrown]
                                            |[data|thrown]];
      try (intros [= <-]; by eexists).
    destruct data; try (intros [= <-]; by eexists);
      by destruct (AIService.reply_text _).
Qed.

Lemma generateResponse_failure_witness :
  let config :=
    {| AIService.provider := AIService.gemini;
       AIService.apiKey := str "key";
       AIService.model := str "gemini-pro";
       AIService.maxTokens := 150;
       AIService.temperature := 7 # 10;
       AIService.systemPrompt := str "Be brief." |} in
  let answers :=
    {| AIService.completion := inr None;
       AIService.fetched :=
         AIService.response_not_ok 429 (inl (str "quota exceeded")) |} in
  AIService.generateResponse toLowerCase_ascii (str "null") config 7 [] answers
  = AIService.failed
      (str "Failed to generate Gemini response: Gemini API error: 429 - quota exceeded")
  ∧ ∃ detail,
      str "Failed to generate Gemini response: Gemini API error: 429 - quota exceeded"
      = str "Failed to generate Gemini response: " ++ detail
      ∧ detail = str "Gemini API error: " ++ Number_toString 429
                 ++ str " - " ++ str "quota exceeded".
Proof.
  intros config answers. split; [reflexivity|].
  exact (generateResponse_failure toLowerCase_ascii (str "null") config 7 []
           answers _ eq_refl).
Defined.

(** ** The orchestrator: what a run accounts for *)

Lemma elem_of_slice {A} (l : list A) (start : Z) (stop : option Z) (x : A) :
  x ∈ slice l start stop → x ∈ l.
Proof.
  unfold slice. intros H.
  eapply elem_of_sublist; [|apply sublist_drop].
  eapply elem_of_sublist; [done|apply sublist_take].
Qed.

Lemma elem_of_getChatHistory_addMessage now c0 m svc c m' :
  m' ∈ getChatHistory c (addMessage now c0 m svc) →
  m' ∈ getChatHistory c svc ∨ (c = c0 ∧ m' = m).
Proof.
  destruct (decide (c0 = c)) as [->|Hne].
  - rewrite getChatHistory_addMessage. cbv zeta. intros H.
    assert (m' ∈ getChatHistory c svc ++ [m]) as Hin.
    { destruct (_ >? _)%Z; [by apply elem_of_slice in H|done]. }
    apply elem_of_app in Hin as [Hin|Hin%list_elem_of_singleton]; auto.
  - rewrite getChatHistory_addMessage_ne by done. auto.
Qed.

Lemma asked_snoc cs c : asked (cs ++ [c]) = asked cs ++ [c.2].
Proof. unfold asked. by rewrite fmap_app. Qed.

Lemma elem_of_asked_snoc cs c x : x ∈ asked cs → x ∈ asked (cs ++ [c]).
Proof. rewrite asked_snoc. intros H. apply elem_of_app. by left. Qed.

Lemma replies_to_snoc cs c msg reply :
  replies_to cs msg reply → replies_to (cs ++ [c]) msg reply.
Proof.
  intros (Hin & (i & r & Hgen & Hr) & Ht).
  split; [by apply elem_of_asked_snoc|]. split; [|done].
  exists i, r. split; [by apply elem_of_asked_snoc|done].
Qed.

Lemma waits_for_snoc cs c k : waits_for cs k → waits_for (cs ++ [c]) k.
Proof.
  destruct k as [msg|msg reply|msg reply]; simpl.
  - apply elem_of_asked_snoc.
  - apply replies_to_snoc.
  - apply replies_to_snoc.
Qed.

Lemma imported_snoc cs c chat m : imported cs chat m → imported (cs ++ [c]) chat m.
Proof.
  intros (jsonData & parsed & h & Hin & H). exists jsonData, parsed, h.
  split; [by apply elem_of_asked_snoc|done].
Qed.

Lemma accounted_snoc history0 cs c s :
  accounted history0 cs s → accounted history0 (cs ++ [c]) s.
Proof.
  intros (Hwait & Hsend & Hstore). split; [|split].
  - intros k Hk. by apply waits_for_snoc, Hwait.
  - intros chat reply Hin. destruct (Hsend chat reply Hin) as [H|(msg & -> & Hr)].
    + left. by apply elem_of_asked_snoc.
    + right. exists msg. split; [done|]. by apply replies_to_snoc.
  - intros chat m Hin.
    destruct (Hstore chat m Hin)
      as [H|[[H ->]|[(msg & reply & Hm & -> & Hr)|H]]].
    + by left.
    + right. left. split; [|done]. by apply elem_of_asked_snoc.
    + right. right. left. exists msg, reply. split; [done|]. split; [done|].
      by apply replies_to_snoc.
    + right. right. right. by apply imported_snoc.
Qed.

(** A segment adds calls that are no sends. *)
Ltac no_send :=
  let c := fresh "c" in let reply := fresh "reply" in let Hin := fresh "Hin" in
  intros c reply Hin;
  repeat (apply elem_of_cons in Hin as [Hin|Hin]; [discriminate|]);
  by apply elem_of_nil in Hin.

Lemma catch_finally_calls env error s :
  ∃ extra, calls (catch_finally env error s) = calls s ++ extra
           ∧ ∀ c reply, sendMessage c reply ∉ extra.
Proof.
  unfold catch_finally, broadcast. destruct (throws env _).
  - exists []. split; [by rewrite app_nil_r|no_send].
  - eexists [_]. split; [done|no_send].
Qed.

Lemma processingFailed_calls env error s :
  ∃ extra, calls (processingFailed env error s) = calls s ++ extra
           ∧ ∀ c reply, sendMessage c reply ∉ extra.
Proof.
  unfold processingFailed, broadcast. destruct (throws env _).
  - apply catch_finally_calls.
  - eexists [_]. split; [done|no_send].
Qed.

Lemma handleIncomingMessage_effect env msg s :
  ∃ extra,
    calls (handleIncomingMessage env msg s) = calls s ++ extra
    ∧ (∀ c reply, sendMessage c reply ∉ extra)
    ∧ ((suspended (handleIncomingMessage env msg s) = suspended s
        ∧ chatHistoryService (handleIncomingMessage env msg s)
          = chatHistoryService s)
       ∨ (suspended (handleIncomingMessage env msg s)
            = suspended s ++ [awaitGenerateResponse msg]
          ∧ chatHistoryService (handleIncomingMessage env msg s)
            = addMessage (now env) (to msg) msg (chatHistoryService s))).
Proof.
  unfold handleIncomingMessage, broadcast. destruct (isProcessing s).
  - eexists [_]. split; [done|]. split; [no_send|by left].
  - destruct (throws env _) as [error|].
    + destruct (catch_finally_calls env error (set_isProcessing true s))
        as (extra & Hcalls & Hextra).
      destruct (catch_finally_exit env error (set_isProcessing true s))
        as (_ & Hs & Hstore).
      exists extra. split; [done|]. split; [done|]. by left.
    + eexists [_; _]. split; [simpl; by rewrite <- app_assoc|].
      split; [no_send|by right].
Qed.

Lemma afterGenerateResponse_effect env msg outcome s :
  ∃ extra,
    calls (afterGenerateResponse env msg outcome s) = calls s ++ extra
    ∧ (∀ c reply, sendMessage c reply ∉ extra)
    ∧ chatHistoryService (afterGenerateResponse env msg outcome s)
      = chatHistoryService s
    ∧ (suspended (afterGenerateResponse env msg outcome s) = suspended s
       ∨ ∃ response, outcome = inl response
                     ∧ truthy (message response) = true
                     ∧ suspended (afterGenerateResponse env msg outcome s)
                       = suspended s ++ [awaitDelay msg (message response)]).
Proof.
  unfold afterGenerateResponse, broadcast.
  destruct outcome as [aiResponse|error].
  - destruct (throws env (sendAIResponseGenerated aiResponse)) as [thrown|].
    + destruct (processingFailed_calls env (Some thrown) s) as (extra & ? & ?).
      destruct (processingFailed_exit env (Some thrown) s) as (_ & ? & ?).
      exists extra. auto.
    + destruct (truthy (message aiResponse)) eqn:Htruthy.
      * eexists [_; _]. split; [simpl; by rewrite <- app_assoc|].
        split; [no_send|]. split; [done|]. right. by exists aiResponse.
      * destruct (processingFailed_calls env None
                    (call (sendAIResponseGenerated aiResponse) s))
          as (extra & Hcalls & Hextra).
        destruct (processingFailed_exit env None
                    (call (sendAIResponseGenerated aiResponse) s))
          as (_ & ? & ?).
        exists (sendAIResponseGenerated aiResponse :: extra).
        split; [rewrite Hcalls; simpl; by rewrite <- app_assoc|].
        split; [|auto].
        intros c reply [?|Hin]%elem_of_cons; [done|]. by apply Hextra in Hin.
  - destruct (processingFailed_calls env (Some error) s) as (extra & ? & ?).
    destruct (processingFailed_exit env (Some error) s) as (_ & ? & ?).
    exists extra. auto.
Qed.

Lemma afterSendMessage_effect env msg reply outcome s :
  ∃ extra,
    calls (afterSendMessage env msg reply outcome s) = calls s ++ extra
    ∧ (∀ c reply', sendMessage c reply' ∉ extra)
    ∧ suspended (afterSendMessage env msg reply outcome s) = suspended s
    ∧ (chatHistoryService (afterSendMessage env msg reply outcome s)
       = chatHistoryService s
       ∨ chatHistoryService (afterSendMessage env msg reply outcome s)
         = addMessage (now env) (to msg) (botMessage env msg reply)
             (chatHistoryService s)).
Proof.
  destruct (afterSendMessage_exit env msg reply outcome s) as [Hs _].
  unfold afterSendMessage, broadcast in *.
  destruct outcome as [[|]|thrown].
  - destruct (throws env _) as [thrown|].
    + destruct (catch_finally_calls env thrown
                  (on_history (addMessage (now env) (to msg)
                                 (botMessage env msg reply)) s))
        as (extra & ? & ?).
      destruct (catch_finally_exit env thrown
                  (on_history (addMessage (now env) (to msg)
                                 (botMessage env msg reply)) s))
        as (_ & _ & ?).
      exists extra. auto.
    + eexists [_]. split; [done|]. split; [no_send|]. split; [done|by right].
  - exists []. split; [by rewrite app_nil_r|]. split; [no_send|]. auto.
  - destruct (catch_finally_calls env thrown s) as (extra & ? & ?).
    destruct (catch_finally_exit env thrown s) as (_ & _ & ?).
    exists extra. auto.
Qed.

Lemma answers_botMessage env msg reply : answers (botMessage env msg reply) msg reply.
Proof. done. Qed.

Lemma step_accounted history0 cs env ev s s' :
  step env ev s = Some s' →
  accounted history0 cs s →
  accounted history0 (cs ++ [(env, Chatbot.event ev)]) s'.
Proof.
  intros Hstep Hs.
  pose proof (accounted_snoc history0 cs (env, Chatbot.event ev) s Hs)
    as (Hwait & Hsend & Hstore).
  assert (Hlast : Chatbot.event ev ∈ asked (cs ++ [(env, Chatbot.event ev)])).
  { rewrite asked_snoc. apply elem_of_app. right. by left. }
  destruct ev as [msg|i outcome|i|i outcome]; simpl in Hstep.
  - injection Hstep as <-.
    destruct (handleIncomingMessage_effect env msg s)
      as (extra & Hcalls & Hextra & [[Hsusp Hhist]|[Hsusp Hhist]]);
      unfold accounted; rewrite Hcalls, Hsusp, Hhist.
    + split; [done|]. split; [|done].
      intros c reply [Hin|Hin]%elem_of_app; [auto|by apply Hextra in Hin].
    + split; [|split].
      * intros k [Hk|Hk%list_elem_of_singleton]%elem_of_app; [auto|by subst k].
      * intros c reply [Hin|Hin]%elem_of_app; [auto|by apply Hextra in Hin].
      * intros c m [Hin|[-> ->]]%elem_of_getChatHistory_addMessage; [auto|].
        right. by left.
  - destruct (suspended s !! i) as [[msg| |]|] eqn:Hi; try done.
    injection Hstep as <-.
    assert (Hmsg : Chatbot.event (inbound msg)
                   ∈ asked (cs ++ [(env, Chatbot.event (generated i outcome))])).
    { apply (Hwait (awaitGenerateResponse msg)). by eapply list_elem_of_lookup_2. }
    destruct (afterGenerateResponse_effect env msg outcome (resume i s))
      as (extra & Hcalls & Hextra & Hhist & Hsusp).
    unfold accounted. rewrite Hcalls, Hhist. split; [|split; [|done]].
    + assert (∀ k, k ∈ suspended (resume i s) →
                   waits_for (cs ++ [(env, Chatbot.event (generated i outcome))]) k)
        as Hrest.
      { intros k Hk%list_elem_of_delete_inv. auto. }
      destruct Hsusp as [->|(response & -> & Htruthy & ->)]; [done|].
      intros k [Hk|Hk%list_elem_of_singleton]%elem_of_app; [auto|]. subst k.
      split; [done|]. split; [|done]. by exists i, response.
    + intros c reply [Hin|Hin]%elem_of_app; [auto|by apply Hextra in Hin].
  - destruct (suspended s !! i) as [[|msg reply|]|] eqn:Hi; try done.
    injection Hstep as <-.
    assert (Hreply : replies_to (cs ++ [(env, Chatbot.event (delayed i))]) msg reply).
    { apply (Hwait (awaitDelay msg reply)). by eapply list_elem_of_lookup_2. }
    split; [|split; [|done]].
    + intros k [Hk%list_elem_of_delete_inv|Hk%list_elem_of_singleton]%elem_of_app;
        [auto|by subst k].
    + intros c reply' [Hin|Hin%list_elem_of_singleton]%elem_of_app; [auto|].
      injection Hin as -> ->. right. by exists msg.
  - destruct (suspended s !! i) as [[| |msg reply]|] eqn:Hi; try done.
    injection Hstep as <-.
    assert (Hreply : replies_to (cs ++ [(env, Chatbot.event (sent i outcome))])
                       msg reply).
    { apply (Hwait (awaitSendMessage msg reply)). by eapply list_elem_of_lookup_2. }
    destruct (afterSendMessage_effect env msg reply outcome (resume i s))
      as (extra & Hcalls & Hextra & Hsusp & Hhist).
    unfold accounted. rewrite Hcalls, Hsusp. split; [|split].
    + intros k Hk%list_elem_of_delete_inv. auto.
    + intros c reply' [Hin|Hin]%elem_of_app; [auto|by apply Hextra in Hin].
    + destruct Hhist as [Hhist|Hhist]; rewrite Hhist; [done|].
      intros c m [Hin|[-> ->]]%elem_of_getChatHistory_addMessage; [auto|].
      right. right. left. exists msg, reply.
      split; [apply answers_botMessage|done].
Qed.

(** The methods that pass a call to the store. *)
Lemma elem_of_getChatHistory_clearChatHistory c0 svc c m :
  m ∈ getChatHistory c (clearChatHistory c0 svc) → m ∈ getChatHistory c svc.
Proof.
  unfold getChatHistory, clearChatHistory. simpl.
  destruct (decide (c0 = c)) as [->|Hne].
  - rewrite lookup_delete_eq. by intros ?%elem_of_nil.
  - by rewrite lookup_delete_ne.
Qed.

Lemma elem_of_getChatHistory_cleanupOldHistories now daysOld svc c m :
  m ∈ getChatHistory c (cleanupOldHistories now daysOld svc).1 →
  m ∈ getChatHistory c svc.
Proof.
  rewrite cleanupOldHistories_unfold. unfold getChatHistory. simpl.
  destruct (filter _ (chatHistories svc) !! c) as [h|] eqn:Hh.
  - apply map_lookup_filter_Some in Hh as [-> _]. done.
  - by intros ?%elem_of_nil.
Qed.

Lemma importChatHistory_returned c blob svc result svc' :
  importChatHistory c blob svc = returned result svc' →
  svc' = svc
  ∨ ∃ parsed h, JSON_parse blob = Some parsed
                ∧ history_of_json parsed = Some h
                ∧ chatHistories svc' = <[c := h]> (chatHistories svc).
Proof.
  destruct (JSON_parse blob) as [parsed|] eqn:Hparse;
    [|unfold importChatHistory; rewrite Hparse; intros [= _ <-]; by left].
  rewrite (importChatHistory_parsed _ _ _ _ Hparse).
  destruct (property "chatId" parsed) as [[| | |embedded| |]|] eqn:Hid;
    try (intros [= _ <-]; by left).
  destruct (decide (embedded = c)) as [->|Hne]; [|intros [= _ <-]; by left].
  destruct (history_of_json parsed) as [h|] eqn:Hh; [|done].
  intros [= _ <-]. right. by exists parsed, h.
Qed.

Lemma serve_accounted history0 cs env c s s' :
  serve env c s = Some s' →
  accounted history0 cs s → accounted history0 (cs ++ [(env, c)]) s'.
Proof.
  destruct c as [ev|chat text0|chat|chat jsonData|daysOld]; simpl.
  - apply step_accounted.
  - intros [= <-] Hs.
    pose proof (accounted_snoc history0 cs
                  (env, Chatbot.sendManualMessage chat text0) s Hs)
      as (Hwait & Hsend & Hstore).
    split; [done|]. split; [|done]. simpl.
    intros c reply [Hin|Hin%list_elem_of_singleton]%elem_of_app; [auto|].
    injection Hin as -> ->. left. rewrite asked_snoc. apply elem_of_app.
    right. by left.
  - intros [= <-] Hs.
    pose proof (accounted_snoc history0 cs (env, Chatbot.clearChatHistory chat) s Hs)
      as (Hwait & Hsend & Hstore).
    split; [done|]. split; [done|]. simpl.
    intros c m Hin%elem_of_getChatHistory_clearChatHistory. auto.
  - destruct (importChatHistory chat jsonData (chatHistoryService s))
      as [result svc'|] eqn:Himport; [|done].
    intros [= <-] Hs.
    pose proof (accounted_snoc history0 cs
                  (env, Chatbot.importChatHistory chat jsonData) s Hs)
      as (Hwait & Hsend & Hstore).
    split; [done|]. split; [done|]. simpl.
    destruct (importChatHistory_returned _ _ _ _ _ Himport)
      as [->|(parsed & h & Hparse & Hh & Hmap)]; [done|].
    intros c m. unfold getChatHistory at 1. rewrite Hmap.
    destruct (decide (chat = c)) as [->|Hne].
    + rewrite lookup_insert_eq. intros Hin. right. right. right.
      exists jsonData, parsed, h. split; [|done].
      rewrite asked_snoc. apply elem_of_app. right. by left.
    + rewrite lookup_insert_ne by done. apply Hstore.
  - intros [= <-] Hs.
    pose proof (accounted_snoc history0 cs
                  (env, Chatbot.cleanupOldHistories daysOld) s Hs)
      as (Hwait & Hsend & Hstore).
    split; [done|]. split; [done|]. simpl.
    intros c m Hin%elem_of_getChatHistory_cleanupOldHistories. auto.
Qed.

Lemma serveAll_accounted history0 cs : ∀ past s s',
  serveAll cs s = Some s' →
  accounted history0 past s → accounted history0 (past ++ cs) s'.
Proof.
  induction cs as [|[env c] cs IH]; intros past s s'; simpl.
  - intros [= <-]. by rewrite app_nil_r.
  - destruct (serve env c s) as [s1|] eqn:Hserve; [|done].
    intros Hrun Hs. rewrite (cons_middle _ past cs), app_assoc.
    eapply IH; [done|]. by eapply serve_accounted.
Qed.

Lemma accounted_new history0 responseDelay0 :
  accounted history0 [] (newChatbotService history0 responseDelay0).
Proof.
  split; [|split]; simpl.
  - by intros k Hk%elem_of_nil.
  - by intros c reply Hin%elem_of_nil.
  - intros c m Hin. by left.
Qed.

(** X27: the service sends what it was asked to send, and replies.
    Whatever the calls of a run from the construction of the service
    (events of the handler and calls of its methods), every call of
    [whatsappService.sendMessage] it has made was asked for by a call
    of [sendManualMessage] with this chat and this text, or carries the
    message of a response that a generation of the run settled with, a
    message that is not empty, and goes to the [from] of a message that
    the run delivered. *)
Theorem sends_are_manual_or_replies (history0 : ChatHistoryService)
    (responseDelay0 : Z) (cs : list (Env * Chatbot.Call)) (s : ChatbotService)
    (c reply : jsstring) :
  serveAll cs (newChatbotService history0 responseDelay0) = Some s →
  sendMessage c reply ∈ calls s →
  Chatbot.sendManualMessage c reply ∈ asked cs
  ∨ ∃ msg i response,
      Chatbot.event (inbound msg) ∈ asked cs
      ∧ Chatbot.event (generated i (inl response)) ∈ asked cs
      ∧ c = from msg
      ∧ reply = message response
      ∧ truthy reply = true.
Proof.
  intros Hrun Hin.
  destruct (serveAll_accounted history0 cs [] _ _ Hrun (accounted_new _ _))
    as (_ & Hsend & _).
  destruct (Hsend c reply Hin)
    as [H|(msg & -> & Hmsg & (i & response & Hgen & <-) & Ht)]; [by left|].
  right. by exists msg, i, response.
Qed.

(** X28: the service stores what it handled, and what it was asked to
    import.  Whatever the calls of a run from the construction of the
    service on a store, every message of every conversation is a
    message the store held at the start, or a message the run
    delivered, kept under its [to], or the message built for a reply to
    a message the run delivered (from the [to] of that message to its
    [from], with the reply as content), kept under the [to] of that
    message, or a message of a history that the run imported under this
    conversation. *)
Theorem stored_messages_are_accounted (history0 : ChatHistoryService)
    (responseDelay0 : Z) (cs : list (Env * Chatbot.Call)) (s : ChatbotService)
    (c : jsstring) (m : WhatsAppMessage) :
  serveAll cs (newChatbotService history0 responseDelay0) = Some s →
  m ∈ getChatHistory c (chatHistoryService s) →
  m ∈ getChatHistory c history0
  ∨ (Chatbot.event (inbound m) ∈ asked cs ∧ c = to m)
  ∨ (∃ msg i response,
       Chatbot.event (inbound msg) ∈ asked cs
       ∧ Chatbot.event (generated i (inl response)) ∈ asked cs
       ∧ c = to msg
       ∧ from m = to msg ∧ to m = from msg
       ∧ content m = message response
       ∧ senderName m = Some (str "AI Assistant"))
  ∨ (∃ jsonData parsed h,
       Chatbot.importChatHistory c jsonData ∈ asked cs
       ∧ JSON_parse jsonData = Some parsed
       ∧ history_of_json parsed = Some h
       ∧ m ∈ messages h).
Proof.
  intros Hrun Hin.
  destruct (serveAll_accounted history0 cs [] _ _ Hrun (accounted_new _ _))
    as (_ & _ & Hstore).
  destruct (Hstore c m Hin)
    as [H|[H|[(msg & reply & Hm & -> & Hmsg & (i & response & Hgen & <-) & _)|H]]];
    [by left|by right; left| |by right; right; right].
  right. right. left. exists msg, i, response.
  destruct Hm as (Hfrom & Hto & _ & Hcontent & _ & Hname). done.
Qed.

(** ** The orchestrator with its collaborators *)

(** X29: a reply that cannot be sent leaves no trace.
    [whatsappService.sendMessage] resolves to [false] exactly when
    there is no socket, when the status is not [READY], or when the
    socket fails to send.  The orchestrator then ends the flight: the
    reply is not stored, nothing is told to the event channel (no error
    either), and the flag is cleared. *)
Theorem unsent_reply_leaves_no_trace (st : WhatsAppService.State)
    (delivered : bool) (env : Env) (msg : WhatsAppMessage) (reply : jsstring)
    (s : ChatbotService) :
  (WhatsAppService.sendMessage delivered st = false
   ↔ WhatsAppService.sock st = false
     ∨ WhatsAppService.connectionStatus st ≠ WhatsAppService.READY
     ∨ delivered = false)
  ∧ (WhatsAppService.sendMessage delivered st = false →
     let s' := afterSendMessage env msg reply
                 (inl (WhatsAppService.sendMessage delivered st)) s in
     calls s' = calls s
     ∧ chatHistoryService s' = chatHistoryService s
     ∧ suspended s' = suspended s
     ∧ isProcessing s' = false).
Proof.
  split.
  - unfold WhatsAppService.sendMessage, WhatsAppService.isConnected.
    destruct (WhatsAppService.sock st), (WhatsAppService.connectionStatus st),
      delivered; simpl; split; try done; try tauto; try (intros _; auto);
      intros [?|[?|?]]; done.
  - intros ->. done.
Qed.

(** X30: a response of the model service always goes on to the send.
    Its message is never empty, so the test [result.success &&
    result.response] passes: the segment after the generation calls the
    delay and suspends, and the branch that reports a failed processing
    is not taken, unless the event channel throws. *)
Theorem generated_reply_goes_on (toLowerCase : jsstring → jsstring)
    (nullReadError : jsstring) (config : AIService.AIServiceConfig)
    (now0 : Z) (chatHistory : list WhatsAppMessage)
    (answers : AIService.Answers) (response : AIResponse)
    (env : Env) (msg : WhatsAppMessage) (s : ChatbotService) :
  AIService.generateResponse toLowerCase nullReadError config now0 chatHistory
    answers = AIService.replied response →
  throws env (sendAIResponseGenerated response) = None →
  calls (afterGenerateResponse env msg (inl response) s)
  = calls s ++ [sendAIResponseGenerated response; delay (responseDelay s)]
  ∧ suspended (afterGenerateResponse env msg (inl response) s)
    = suspended s ++ [awaitDelay msg (message response)]
  ∧ isProcessing (afterGenerateResponse env msg (inl response) s)
    = isProcessing s
  ∧ chatHistoryService (afterGenerateResponse env msg (inl response) s)
    = chatHistoryService s.
Proof.
  intros Hreply Hcalm.
  apply generateResponse_message_truthy in Hreply as Htruthy.
  unfold afterGenerateResponse, broadcast. rewrite Hcalm, Htruthy.
  cbn [calls suspended isProcessing chatHistoryService suspend call].
  split; [by rewrite <- app_assoc|done].
Qed.

Lemma generated_reply_goes_on_witness :
  let config :=
    {| AIService.provider := AIService.openai;
       AIService.apiKey := str "key";
       AIService.model := str "gpt-3.5-turbo";
       AIService.maxTokens := 150;
       AIService.temperature := 7 # 10;
       AIService.systemPrompt := str "Be brief." |} in
  let answers :=
    {| AIService.completion := inl {| AIService.choices := [] |};
       AIService.fetched := AIService.fetch_rejected None |} in
  let msg := textMessage "M1" "u" "chat" 1 "hello" in
  let s := newChatbotService (newChatHistoryService 50) 1000 in
  ∃ response,
    AIService.generateResponse toLowerCase_ascii (str "null") config 7 [] answers
    = AIService.replied response
    ∧ suspended (afterGenerateResponse (calm 8) msg (inl response) s)
      = [awaitDelay msg AIService.apology].
Proof.
  intros config answers msg s. eexists. split; [reflexivity|].
  match goal with
  | |- suspended (afterGenerateResponse _ _ (inl ?r) _) = _ =>
      exact (proj1 (proj2 (generated_reply_goes_on toLowerCase_ascii (str "null")
                             config 7 [] answers r (calm 8) msg s
                             eq_refl eq_refl)))
  end.
Defined.

Lemma sends_are_manual_or_replies_witness :
  let m := textMessage "M1" "u" "chat" 1 "hello" in
  let r := {| message := str "hi"; confidence := 9 # 10; context := [];
              producedAt := 12 |} in
  let cs := [(calm 10, Chatbot.event (inbound m));
             (calm 11, Chatbot.sendManualMessage (str "v") (str "by hand"));
             (calm 12, Chatbot.event (generated 0 (inl r)));
             (calm 1012, Chatbot.event (delayed 0))] in
  ∃ s, serveAll cs (newChatbotService (newChatHistoryService 50) 1000) = Some s
       ∧ calls s = [sendMessageReceived m;
                    generateResponse (content m) [m];
                    sendMessage (str "v") (str "by hand");
                    sendAIResponseGenerated r; delay 1000;
                    sendMessage (str "u") (str "hi")]
       ∧ sendMessage (str "u") (str "hi") ∈ calls s
       ∧ (Chatbot.sendManualMessage (str "u") (str "hi") ∈ asked cs
          ∨ ∃ msg i response,
              Chatbot.event (inbound msg) ∈ asked cs
              ∧ Chatbot.event (generated i (inl response)) ∈ asked cs
              ∧ str "u" = from msg
              ∧ str "hi" = message response
              ∧ truthy (str "hi") = true).
Proof.
  intros m r cs. eexists. split; [reflexivity|]. split; [reflexivity|].
  assert (Hin : sendMessage (str "u") (str "hi")
                ∈ [sendMessageReceived m;
                   generateResponse (content m) [m];
                   sendMessage (str "v") (str "by hand");
                   sendAIResponseGenerated r; delay 1000;
                   sendMessage (str "u") (str "hi")])
    by (apply (list_elem_of_lookup_2 _ 5); reflexivity).
  split; [exact Hin|].
  exact (sends_are_manual_or_replies (newChatHistoryService 50) 1000 cs _
           (str "u") (str "hi") eq_refl Hin).
Defined.

Lemma stored_messages_are_accounted_witness :
  let m := textMessage "M1" "u" "chat" 1 "hello" in
  let old := textMessage "1" "u" "chat" 1 "a" in
  let text0 :=
    json_text "{'chatId':'chat','messages':[{'id':'1','from':'u','to':'chat','timestamp':1,'type':'text','content':'a','isGroup':false}],'lastUpdated':9}" in
  let cs := [(calm 5, Chatbot.importChatHistory (str "chat") text0);
             (calm 10, Chatbot.event (inbound m));
             (calm 11, Chatbot.clearChatHistory (str "other"))] in
  ∃ s, serveAll cs (newChatbotService (newChatHistoryService 50) 1000) = Some s
       ∧ getChatHistory (str "chat") (chatHistoryService s) = [old; m]
       ∧ old ∈ getChatHistory (str "chat") (chatHistoryService s)
       ∧ (old ∈ getChatHistory (str "chat") (newChatHistoryService 50)
          ∨ (Chatbot.event (inbound old) ∈ asked cs ∧ str "chat" = to old)
          ∨ (∃ msg i response,
               Chatbot.event (inbound msg) ∈ asked cs
               ∧ Chatbot.event (generated i (inl response)) ∈ asked cs
               ∧ str "chat" = to msg
               ∧ from old = to msg ∧ to old = from msg
               ∧ content old = message response
               ∧ senderName old = Some (str "AI Assistant"))
          ∨ (∃ jsonData parsed h,
               Chatbot.importChatHistory (str "chat") jsonData ∈ asked cs
               ∧ JSON_parse jsonData = Some parsed
               ∧ history_of_json parsed = Some h
               ∧ old ∈ messages h)).
Proof.
  intros m old text0 cs.
  destruct (serveAll cs (newChatbotService (newChatHistoryService 50) 1000))
    as [s|] eqn:Hrun; [|exfalso; vm_compute in Hrun; discriminate].
  exists s. split; [reflexivity|].
  assert (Hstored : getChatHistory (str "chat") (chatHistoryService s) = [old; m]).
  { vm_compute in Hrun. injection Hrun as <-. vm_compute. reflexivity. }
  split; [exact Hstored|].
  assert (Hin : old ∈ getChatHistory (str "chat") (chatHistoryService s))
    by (rewrite Hstored; left).
  split; [exact Hin|].
  exact (stored_messages_are_accounted (newChatHistoryService 50) 1000 cs s
           (str "chat") old Hrun Hin).
Defined.
